(** * IFSCee: tokenizer, parser and trace generator

    A shallow embedding of the three pipeline stages of the IFSCee C
    visualisation tool (lexer.js, parser.js, interpreter.js and the data
    classes of state.js), followed by the properties of the pipeline
    that the design document states.

    Conventions of the embedding:
    - a JavaScript string is a [string]: a sequence of 8-bit code units
      (the Latin-1 fragment of UTF-16);
    - a JavaScript number is a [Z] (every number the pipeline computes is
      a small integer); list indices and string offsets are [nat];
    - an object used as a map is a [gmap]; an absent sub-object of a
      step's [changes] is the empty map;
    - code that can throw returns a completion: the normal result or the
      thrown error, together with the state mutated so far. *)

From Stdlib Require Import ZArith String Ascii List Bool Lia.
From stdpp Require Import base option list gmap strings pretty.

Local Open Scope Z_scope.

(** ** JavaScript string primitives *)

Module Js.

(** Code unit of a character. *)
Definition code (c : ascii) : N := N_of_ascii c.

Definition inRange (lo hi : N) (c : ascii) : bool :=
  ((lo <=? code c) && (code c <=? hi))%N.

(** [\d] *)
Definition isDigit (c : ascii) : bool := inRange 48 57 c.

(** [\w] is [A-Za-z0-9_] *)
Definition isWordChar (c : ascii) : bool :=
  inRange 97 122 c || inRange 65 90 c || isDigit c || (code c =? 95)%N.

(** [[0-9a-fA-F]] *)
Definition isHexDigit (c : ascii) : bool :=
  isDigit c || inRange 97 102 c || inRange 65 70 c.

(** [\s], which is also the set String.prototype.trim strips: tab, line
    feed, vertical tab, form feed, carriage return, space, no-break
    space. *)
Definition isWhiteSpace (c : ascii) : bool :=
  inRange 9 13 c || (code c =? 32)%N || (code c =? 160)%N.

(** Line terminators, which [.] does not match. *)
Definition isLineTerminator (c : ascii) : bool :=
  (code c =? 10)%N || (code c =? 13)%N.

Definition newline : ascii := ascii_of_N 10.

(** String.prototype.toLowerCase on Latin-1: A-Z and the accented
    capitals (all of 0xC0-0xDE but the multiplication sign). *)
Definition toLowerCaseChar (c : ascii) : ascii :=
  if inRange 65 90 c || (inRange 192 222 c && negb (code c =? 215)%N)
  then ascii_of_N (code c + 32) else c.

Fixpoint toLowerCase (s : string) : string :=
  match s with
  | EmptyString => EmptyString
  | String c s' => String (toLowerCaseChar c) (toLowerCase s')
  end.

(** String.prototype.startsWith *)
Definition startsWith (s prefix : string) : bool := String.prefix prefix s.

(** String.prototype.includes *)
Fixpoint includes (s needle : string) : bool :=
  startsWith s needle ||
  match s with
  | EmptyString => false
  | String _ s' => includes s' needle
  end.

(** A value used as a condition: a string is truthy when not empty,
    [null] is falsy. *)
Definition truthy (v : option string) : bool :=
  match v with
  | Some s => negb (String.eqb s "")
  | None => false
  end.

(** Strict equality of a string with a possibly-null value. *)
Definition seq_opt (v : option string) (s : string) : bool :=
  match v with
  | Some s' => String.eqb s' s
  | None => false
  end.

(** String.prototype.substring(n): the string from offset [n] on. *)
Fixpoint drop (n : nat) (s : string) : string :=
  match n, s with
  | O, _ => s
  | S n', String _ s' => drop n' s'
  | S _, EmptyString => EmptyString
  end.

(** The first [n] code units. *)
Fixpoint take (n : nat) (s : string) : string :=
  match n, s with
  | S n', String c s' => String c (take n' s')
  | _, _ => EmptyString
  end.

(** String.prototype.substring(start, end): both arguments are clamped
    to the string and swapped when out of order. *)
Definition substring (s : string) (start end_ : Z) : string :=
  let len := Z.of_nat (String.length s) in
  let a := Z.max 0 (Z.min start len) in
  let b := Z.max 0 (Z.min end_ len) in
  let lo := Z.min a b in
  let hi := Z.max a b in
  take (Z.to_nat (hi - lo)) (drop (Z.to_nat lo) s).

(** The longest prefix of characters of a class, and what follows it. *)
Fixpoint takeWhile (f : ascii → bool) (s : string) : string :=
  match s with
  | String c s' => if f c then String c (takeWhile f s') else EmptyString
  | EmptyString => EmptyString
  end.

Fixpoint dropWhile (f : ascii → bool) (s : string) : string :=
  match s with
  | String c s' => if f c then dropWhile f s' else s
  | EmptyString => EmptyString
  end.

(** String.prototype.trim *)
Fixpoint trimEnd (s : string) : string :=
  match s with
  | EmptyString => EmptyString
  | String c s' =>
      let t := trimEnd s' in
      if isWhiteSpace c && String.eqb t "" then EmptyString else String c t
  end.

Definition trim (s : string) : string := trimEnd (dropWhile isWhiteSpace s).

(** Adding a character in front of the first piece of a split. *)
Definition consHead (c : ascii) (pieces : list string) : list string :=
  match pieces with
  | piece :: rest => String c piece :: rest
  | [] => [String c EmptyString]
  end.

(** String.prototype.split on the newline character *)
Fixpoint splitLines (s : string) : list string :=
  match s with
  | EmptyString => [EmptyString]
  | String c s' =>
      if Ascii.eqb c newline then EmptyString :: splitLines s'
      else consHead c (splitLines s')
  end.

(** String.prototype.split on the pattern of a whitespace run;
    [inSeparator] tells that the previous character was whitespace. *)
Fixpoint splitSpacesFrom (inSeparator : bool) (s : string) : list string :=
  match s with
  | EmptyString => [EmptyString]
  | String c s' =>
      if isWhiteSpace c then
        if inSeparator then splitSpacesFrom true s'
        else EmptyString :: splitSpacesFrom true s'
      else consHead c (splitSpacesFrom false s')
  end.

Definition splitSpaces (s : string) : list string := splitSpacesFrom false s.

(** String.prototype.indexOf(needle, from): -1 when absent. *)
Fixpoint indexOfFrom (s needle : string) (i : nat) : Z :=
  if startsWith s needle then Z.of_nat i
  else
    match s with
    | EmptyString => -1
    | String _ s' => indexOfFrom s' needle (S i)
    end.

Definition indexOf (s needle : string) (from : nat) : Z :=
  let from := Nat.min from (String.length s) in
  indexOfFrom (drop from s) needle from.

(** String.prototype.lastIndexOf(needle) *)
Fixpoint lastIndexOfFrom (s needle : string) (i : nat) (last : Z) : Z :=
  let last := if startsWith s needle then Z.of_nat i else last in
  match s with
  | EmptyString => last
  | String _ s' => lastIndexOfFrom s' needle (S i) last
  end.

Definition lastIndexOf (s needle : string) : Z :=
  lastIndexOfFrom s needle 0 (-1).

(** String.prototype.includes(needle, from) *)
Definition includesFrom (s needle : string) (from : nat) : bool :=
  includes (drop from s) needle.

(** The strings of one character the tokenizer looks for. *)
Definition quote : string := String (ascii_of_N 34) EmptyString.
Definition apostrophe : string := String (ascii_of_N 39) EmptyString.
Definition backslash : ascii := ascii_of_N 92.

(** Number.prototype.toString(16) on a non-negative integer. *)
Definition hexDigit (d : N) : ascii :=
  if (d <? 10)%N then ascii_of_N (48 + d) else ascii_of_N (87 + d).

Fixpoint toHexPos (p : positive) (fuel : nat) (acc : string) : string :=
  match fuel with
  | O => acc
  | S fuel' =>
      let acc' := String (hexDigit (Npos p mod 16)) acc in
      match (Npos p / 16)%N with
      | N0 => acc'
      | Npos q => toHexPos q fuel' acc'
      end
  end.

Definition toString16 (z : Z) : string :=
  match z with
  | Zpos p => toHexPos p (Pos.to_nat p) ""
  | _ => "0"
  end.

(** Number to string in base 10, as a template literal does. *)
Definition toString (z : Z) : string := pretty z.

End Js.

(** ** state.js: the data classes *)

Module Token.
(** class Token *)
Record t := mk {
  type : string;
  value : string;
  line : Z;
  column : Z }.
End Token.

Module ASTNode.
#[local] Unset Elimination Schemes.
(** class ASTNode, with the properties the parser attaches to some
    nodes: [returnType] and [parameters] on a function definition,
    [isPointer] on a variable. *)
Inductive t := mk {
  type : string;
  value : option string;
  children : list t;
  returnType : option string;
  parameters : list (string * string);
  isPointer : bool }.

#[local] Set Elimination Schemes.

(** new ASTNode(type, value) *)
Definition new (ty : string) (v : option string) : t :=
  mk ty v [] None [] false.

(** node.addChild(child) *)
Definition addChild (n child : t) : t :=
  mk (type n) (value n) (children n ++ [child])
     (returnType n) (parameters n) (isPointer n).
End ASTNode.

Module MemCell.
(** A cell of the simulated memory: { value, name, type }. *)
Record t := mk { value : Z; name : string; type : string }.
End MemCell.

Module StackVar.
(** The payload of an [add] or [update] entry of a step's stack
    sub-map: { name, value, address, type }. *)
Record t := mk { name : string; value : Z; address : Z; type : string }.
End StackVar.

(** An entry of the stack sub-map of a step, keyed by function name. *)
Inductive StackChange :=
| SAdd (v : StackVar.t)
| SUpdate (v : StackVar.t)
| SRemove.

Module HeapDelta.
(** An entry of the heap sub-map of a step: { address, size, freed }. *)
Record t := mk { address : Z; size : Z; freed : bool }.
End HeapDelta.

Module Changes.
(** The [changes] object of a step. *)
Record t := mk {
  memory : gmap Z MemCell.t;
  stack : gmap string StackChange;
  heap : gmap Z HeapDelta.t;
  saida : option string }.

Definition none : t := mk ∅ ∅ ∅ None.
End Changes.

Module ExecutionStep.
(** class ExecutionStep *)
Record t := mk {
  type : string;
  line : Z;
  description : string;
  changes : Changes.t }.
End ExecutionStep.

Module FrameVar.
Record t := mk { value : Z; address : Z; type : string }.
End FrameVar.

Module StackFrame.
(** class StackFrame *)
Record t := mk {
  functionName : string;
  returnAddress : Z;
  variables : gmap string FrameVar.t }.

Definition new (f : string) (ra : Z) : t := mk f ra ∅.

Definition addVariable (name : string) (value address : Z) (type : string)
    (fr : t) : t :=
  mk (functionName fr) (returnAddress fr)
     (<[name := FrameVar.mk value address type]> (variables fr)).

Definition updateVariable (name : string) (value : Z) (fr : t) : t :=
  match variables fr !! name with
  | Some v =>
      mk (functionName fr) (returnAddress fr)
         (<[name := FrameVar.mk value (FrameVar.address v) (FrameVar.type v)]>
            (variables fr))
  | None => fr
  end.
End StackFrame.

(** The [content] of a heap block: the string it is created with, or the
  index-to-value object the initialisation loop builds. *)
Inductive HeapContent :=
| ContentText (s : string)
| ContentValues (m : gmap Z Z).

Module HeapBlock.
(** class HeapBlock *)
Record t := mk {
  address : Z;
  size : Z;
  content : HeapContent;
  freed : bool }.

Definition new (a sz : Z) (c : HeapContent) : t := mk a sz c false.
End HeapBlock.

Module ErrorEntry.
(** An entry of the error log: { message, type, time }. *)
Record t := mk { message : string; type : string; time : Z }.
End ErrorEntry.

Module AppState.
(** class AppState: the fields the pipeline reads and writes. *)
Record t := mk {
  code : string;
  tokens : list Token.t;
  ast : option ASTNode.t;
  memory : gmap Z MemCell.t;
  stack : list StackFrame.t;
  heap : gmap Z HeapBlock.t;
  consoleOutput : string;
  errors : list ErrorEntry.t }.

Definition set_memory (f : gmap Z MemCell.t → gmap Z MemCell.t) (a : t) : t :=
  mk (code a) (tokens a) (ast a) (f (memory a)) (stack a) (heap a)
     (consoleOutput a) (errors a).
Definition set_stack (f : list StackFrame.t → list StackFrame.t) (a : t) : t :=
  mk (code a) (tokens a) (ast a) (memory a) (f (stack a)) (heap a)
     (consoleOutput a) (errors a).
Definition set_heap (f : gmap Z HeapBlock.t → gmap Z HeapBlock.t) (a : t) : t :=
  mk (code a) (tokens a) (ast a) (memory a) (stack a) (f (heap a))
     (consoleOutput a) (errors a).
Definition set_consoleOutput (f : string → string) (a : t) : t :=
  mk (code a) (tokens a) (ast a) (memory a) (stack a) (heap a)
     (f (consoleOutput a)) (errors a).
Definition set_errors (f : list ErrorEntry.t → list ErrorEntry.t) (a : t) : t :=
  mk (code a) (tokens a) (ast a) (memory a) (stack a) (heap a)
     (consoleOutput a) (f (errors a)).

(** addError(message, type = 'error'); [now] stands for [new Date()].
    The subscribers that updateState notifies belong to the display
    layer and are not part of the state modelled here. *)
Definition addError (now : Z) (message : string) (a : t) : t :=
  set_errors (λ es, es ++ [ErrorEntry.mk message "error" now]) a.
End AppState.

(** ** lexer.js: the tokenizer *)

Module Lexer.

(** tokenDefinitions *)
Definition keywords : list string :=
  ["auto"; "break"; "case"; "char"; "const"; "continue"; "default"; "do";
   "double"; "else"; "enum"; "extern"; "float"; "for"; "goto"; "if";
   "inline"; "int"; "long"; "register"; "restrict"; "return"; "short";
   "signed"; "sizeof"; "static"; "struct"; "switch"; "typedef"; "union";
   "unsigned"; "void"; "volatile"; "while"; "_Bool"; "_Complex";
   "_Imaginary"].

Definition stdFunctions : list string :=
  ["printf"; "scanf"; "malloc"; "free"; "calloc"; "realloc"; "strlen";
   "strcpy"; "strcat"; "strcmp"; "fopen"; "fclose"; "fread"; "fwrite";
   "fprintf"; "fscanf"; "fgets"; "fputs"; "fseek"; "ftell"; "rewind"].

Definition preprocessor : list string :=
  ["#include"; "#define"; "#ifdef"; "#ifndef"; "#endif"; "#if"; "#else";
   "#pragma"; "#undef"; "#error"].

Definition arithmetic : list string := ["+"; "-"; "*"; "/"; "%"; "++"; "--"].
Definition relational : list string := ["=="; "!="; ">"; "<"; ">="; "<="].
Definition logical : list string := ["&&"; "||"; "!"].
Definition bitwise : list string := ["&"; "|"; "^"; "~"; "<<"; ">>"].
Definition assignment : list string :=
  ["="; "+="; "-="; "*="; "/="; "%="; "&="; "|="; "^="; "<<="; ">>="].

Definition punctuation : list string :=
  ["{"; "}"; "("; ")"; "["; "]"; ";"; ","; "."; "->"; ":"; "?"; "<"; ">"].

(** Array.prototype.includes on an array of strings *)
Definition includes (l : list string) (s : string) : bool :=
  existsb (String.eqb s) l.

(** isTokenOfType *)
Definition isTokenOfType (value type : string) : bool :=
  if String.eqb type "keyword" then includes keywords value
  else if String.eqb type "stdFunction" then includes stdFunctions value
  else if String.eqb type "preprocessor" then
    existsb (λ p, Js.startsWith value p) preprocessor
  else if String.eqb type "operatorArithmetic" then includes arithmetic value
  else if String.eqb type "operatorRelational" then includes relational value
  else if String.eqb type "operatorLogical" then includes logical value
  else if String.eqb type "operatorBitwise" then includes bitwise value
  else if String.eqb type "operatorAssignment" then includes assignment value
  else if String.eqb type "punctuation" then includes punctuation value
  else false.

(** The while loop of getLineColumnFromPos; [line] never passes the
    length of the array, which is the fuel given. *)
Fixpoint lineLoop (fuel : nat) (newlinePositions : list nat) (pos line : nat)
    : nat :=
  match fuel with
  | O => line
  | S fuel =>
      match newlinePositions !! line with
      | Some newlinePosition =>
          if (newlinePosition <? pos)%nat
          then lineLoop fuel newlinePositions pos (S line)
          else line
      | None => line
      end
  end.

(** getLineColumnFromPos: the pair (line, column). *)
Definition getLineColumnFromPos (pos : nat) (newlinePositions : list nat)
    : Z * Z :=
  let line := lineLoop (length newlinePositions) newlinePositions pos 0 in
  let lineStartPos :=
    if (line =? 0)%nat then 0
    else
      match newlinePositions !! (line - 1)%nat with
      | Some newlinePosition => Z.of_nat newlinePosition + 1
      | None => 0
      end in
  let column := Z.of_nat pos - lineStartPos in
  (Z.of_nat line + 1, column + 1).

(** A span { start, end } of a directive. *)
Record Span := mkSpan { spanStart : nat; spanEnd : nat }.

(** isWithinDirective *)
Definition isWithinDirective (pos : nat) (directivePositions : list Span)
    : bool :=
  existsb (λ d, (spanStart d <=? pos)%nat && (pos <? spanEnd d)%nat)
    directivePositions.

(** findDirectivePosition (the [line] argument is not used) *)
Definition findDirectivePosition (code : string) (lineIndex : nat) : nat :=
  let lines := Js.splitLines code in
  let position :=
    fold_left (λ position l, (position + (String.length l + 1))%nat)
      (take lineIndex lines) 0%nat in
  let currentLine := default "" (lines !! lineIndex) in
  let indent := String.length (Js.takeWhile Js.isWhiteSpace currentLine) in
  (position + indent)%nat.

(** A directive { text, line, start }. *)
Record Directive := mkDirective {
  text : string;
  directiveLine : nat;
  start : nat }.

(** The positions of the newline characters, in increasing order. *)
Fixpoint newlinesFrom (s : string) (i : nat) : list nat :=
  match s with
  | EmptyString => []
  | String c s' =>
      if Ascii.eqb c Js.newline then i :: newlinesFrom s' (S i)
      else newlinesFrom s' (S i)
  end.

(** The first loop over the lines: the directives of the text. *)
Fixpoint collectDirectives (code : string) (lines : list string) (i : nat)
    : list Directive :=
  match lines with
  | [] => []
  | l :: rest =>
      let line := Js.trim l in
      if Js.startsWith line "#"
      then mkDirective line (i + 1) (findDirectivePosition code i)
           :: collectDirectives code rest (S i)
      else collectDirectives code rest (S i)
  end.

(** The tokens of one directive. *)
Definition directiveTokens (newlinePositions : list nat) (directive : Directive)
    : list Token.t :=
  let text := text directive in
  let directiveParts := Js.splitSpaces text in
  let command := default "" (head directiveParts) in
  let '(line, column) :=
    getLineColumnFromPos (start directive) newlinePositions in
  let token := Token.mk "preprocessor" command line column in
  [token] ++
  if String.eqb command "#include" then
    let rest := Js.trim (Js.drop 8 text) in
    let includePos := column + Z.of_nat (String.length command) in
    if Js.startsWith rest "<" && Js.includes rest ">" then
      let fileName := Js.substring rest 1 (Js.indexOf rest ">" 0) in
      let leftBracketPos := includePos + Js.indexOf text "<" 8 - 8 in
      let fileNamePos := leftBracketPos + 1 in
      let rightBracketPos := fileNamePos + Z.of_nat (String.length fileName) in
      [Token.mk "punctuation" "<" line leftBracketPos;
       Token.mk "identifier" fileName line fileNamePos;
       Token.mk "punctuation" ">" line rightBracketPos]
    else if Js.startsWith rest Js.quote && Js.includesFrom rest Js.quote 1 then
      let fileName := Js.substring rest 1 (Js.lastIndexOf rest Js.quote) in
      let leftQuotePos := includePos + Js.indexOf text Js.quote 8 - 8 in
      let fileNamePos := leftQuotePos + 1 in
      let rightQuotePos := fileNamePos + Z.of_nat (String.length fileName) in
      [Token.mk "punctuation" Js.quote line leftQuotePos;
       Token.mk "identifier" fileName line fileNamePos;
       Token.mk "punctuation" Js.quote line rightQuotePos]
    else []
  else if String.eqb command "#define" then
    let parts := take 2 (Js.splitSpaces (Js.trim (Js.drop 7 text))) in
    match parts with
    | macroName :: more =>
        let macroNamePos := column + Js.indexOf text macroName 7 in
        Token.mk "identifier" macroName line macroNamePos ::
        match more with
        | macroValue :: _ =>
            let macroValuePos :=
              macroNamePos + Z.of_nat (String.length macroName) + 1 in
            [Token.mk "literal" macroValue line macroValuePos]
        | [] => []
        end
    | [] => []
    end
  else [].

(** *** The pattern of the tokenizer

    The regular expression is an alternation of five groups. Each group
    is modelled by a function that gives the length of its match at the
    start of a string, if it matches there. No alternative matches the
    empty string. *)

(** Length of the longest prefix of characters of a class. *)
Definition run (f : ascii → bool) (s : string) : nat :=
  String.length (Js.takeWhile f s).

(** Offset of the first occurrence of the end of a block comment. *)
Fixpoint findCommentEnd (s : string) : option nat :=
  if Js.startsWith s "*/" then Some 0%nat
  else
    match s with
    | EmptyString => None
    | String _ s' => S <$> findCommentEnd s'
    end.

(** Group 1: a line comment, or a block comment up to the first end
    marker (the quantifier is lazy). *)
Definition matchComment (s : string) : option nat :=
  if Js.startsWith s "//" then
    Some (2 + run (λ c, negb (Ascii.eqb c Js.newline)) (Js.drop 2 s))%nat
  else if Js.startsWith s "/*" then
    (λ n, 2 + n + 2)%nat <$> findCommentEnd (Js.drop 2 s)
  else None.

(** Group 2: digits, a point and digits; or digits; or a hexadecimal
    literal. The alternatives are tried in this order. *)
Definition matchDecimal (s : string) : option nat :=
  let n := run Js.isDigit s in
  if (0 <? n)%nat && Js.startsWith (Js.drop n s) "." then
    let m := run Js.isDigit (Js.drop (n + 1) s) in
    if (0 <? m)%nat then Some (n + 1 + m)%nat else None
  else None.

Definition matchInteger (s : string) : option nat :=
  let n := run Js.isDigit s in
  if (0 <? n)%nat then Some n else None.

Definition matchHex (s : string) : option nat :=
  if Js.startsWith s "0x" then
    let n := run Js.isHexDigit (Js.drop 2 s) in
    if (0 <? n)%nat then Some (2 + n)%nat else None
  else None.

Definition orElse {A} (a b : option A) : option A :=
  match a with
  | Some _ => a
  | None => b
  end.

Definition matchNumber (s : string) : option nat :=
  orElse (matchDecimal s) (orElse (matchInteger s) (matchHex s)).

(** The body of a quoted literal and its closing quote: an escaped
    character that is no line terminator, or any character but the quote
    and the backslash. Where an item starts is never a quote, so giving
    back items cannot make a failed match succeed. *)
Fixpoint quotedBody (q : ascii) (s : string) : option nat :=
  match s with
  | EmptyString => None
  | String c s' =>
      if Ascii.eqb c q then Some 1%nat
      else if Ascii.eqb c Js.backslash then
        match s' with
        | String d s'' =>
            if Js.isLineTerminator d then None
            else (λ n, n + 2)%nat <$> quotedBody q s''
        | EmptyString => None
        end
      else S <$> quotedBody q s'
  end.

(** Group 3: a string or a character literal. *)
Definition matchQuoted (s : string) : option nat :=
  match s with
  | String c s' =>
      if Ascii.eqb c (ascii_of_N 34) || Ascii.eqb c (ascii_of_N 39)
      then S <$> quotedBody c s'
      else None
  | EmptyString => None
  end.

(** Group 4: the operators of more than one character, in the order of
    the pattern, then the class of single characters. *)
Definition longOperators : list string :=
  ["++"; "--"; "=="; "!="; "<="; ">="; "&&"; "||"; "<<"; ">>"; "+="; "-=";
   "*="; "/="; "%="; "&="; "|="; "^="; "<<="; ">>="; "->"].

Definition operatorChars : string := "+-*/%=<>&|^!~.,;:?[]{}()".

Fixpoint inString (c : ascii) (s : string) : bool :=
  match s with
  | String d s' => Ascii.eqb c d || inString c s'
  | EmptyString => false
  end.

Definition matchOperator (s : string) : option nat :=
  match List.find (λ o, Js.startsWith s o) longOperators with
  | Some o => Some (String.length o)
  | None =>
      match s with
      | String c _ => if inString c operatorChars then Some 1%nat else None
      | EmptyString => None
      end
  end.

(** Group 5: a run of word characters. *)
Definition matchWord (s : string) : option nat :=
  let n := run Js.isWordChar s in
  if (0 <? n)%nat then Some n else None.

(** The group that matched. *)
Inductive Group := Comment | Number | Quoted | Operator | Word.

(** The match of the whole pattern at the start of a string: the first
    group that matches there. *)
Definition matchHere (s : string) : option (Group * nat) :=
  orElse (pair Comment <$> matchComment s)
 (orElse (pair Number <$> matchNumber s)
 (orElse (pair Quoted <$> matchQuoted s)
 (orElse (pair Operator <$> matchOperator s)
         (pair Word <$> matchWord s)))).

(** A match object: match.index, the group and match[0]. *)
Record Match := mkMatch { index : nat; group : Group; matched : string }.

(** The search of regex.exec: the leftmost offset, from [i] on, at which
    the pattern matches; [s] is the text from offset [i]. *)
Fixpoint search (s : string) (i : nat) : option Match :=
  match matchHere s with
  | Some (g, n) => Some (mkMatch i g (Js.take n s))
  | None =>
      match s with
      | EmptyString => None
      | String _ s' => search s' (S i)
      end
  end.

(** regex.exec(code) with the sticky position [lastIndex]. *)
Definition exec (code : string) (lastIndex : nat) : option Match :=
  search (Js.drop lastIndex code) lastIndex.

(** The kind of the token of a match; the empty string when no token is
    made of it. *)
Definition classify (g : Group) (value : string) : string :=
  match g with
  | Comment => ""
  | Number => "literal"
  | Quoted => "literal"
  | Operator =>
      if isTokenOfType value "operatorArithmetic"
         || isTokenOfType value "operatorRelational"
         || isTokenOfType value "operatorLogical"
         || isTokenOfType value "operatorBitwise"
         || isTokenOfType value "operatorAssignment"
      then "operator"
      else if isTokenOfType value "punctuation" then "punctuation"
      else ""
  | Word =>
      if isTokenOfType value "keyword" then "keyword"
      else if isTokenOfType value "stdFunction" then "function"
      else "identifier"
  end.

(** The while loop over the matches. Each iteration takes one unit of
    fuel; [None] tells that the fuel ran out before exec returned null. *)
Fixpoint matchLoop (fuel : nat) (code : string) (newlinePositions : list nat)
    (directivePositions : list Span) (lastIndex : nat) (tokens : list Token.t)
    : option (list Token.t) :=
  match fuel with
  | O => None
  | S fuel =>
      match exec code lastIndex with
      | None => Some tokens
      | Some m =>
          let lastIndex := (index m + String.length (matched m))%nat in
          let continue :=
            matchLoop fuel code newlinePositions directivePositions lastIndex in
          if isWithinDirective (index m) directivePositions then continue tokens
          else
            match group m with
            | Comment => continue tokens
            | _ =>
                let value := matched m in
                let '(line, column) :=
                  getLineColumnFromPos (index m) newlinePositions in
                let type := classify (group m) value in
                if Js.truthy (Some type)
                then continue (tokens ++ [Token.mk type value line column])
                else continue tokens
            end
      end
  end.

(** The comparison function of the final sort. *)
Definition compareTokens (a b : Token.t) : Z :=
  if negb (Token.line a =? Token.line b) then Token.line a - Token.line b
  else Token.column a - Token.column b.

(** Array.prototype.sort, which is stable: an element is put before the
    first element of the sorted rest that does not come before it. *)
Fixpoint insertToken (a : Token.t) (sorted : list Token.t) : list Token.t :=
  match sorted with
  | [] => [a]
  | b :: rest =>
      if compareTokens a b <=? 0 then a :: sorted
      else b :: insertToken a rest
  end.

Definition sortTokens (tokens : list Token.t) : list Token.t :=
  foldr insertToken [] tokens.

(** The tokens before the sort, with the fuel of the match loop. *)
Definition tokenizeWith (fuel : nat) (code : string) : option (list Token.t) :=
  let newlinePositions := newlinesFrom code 0 in
  let lines := Js.splitLines code in
  let directives := collectDirectives code lines 0 in
  let directivePositions :=
    (λ d, mkSpan (start d) (start d + String.length (text d))) <$> directives in
  let tokens := directives ≫= directiveTokens newlinePositions in
  sortTokens <$>
    matchLoop fuel code newlinePositions directivePositions 0 tokens.

(** tokenize, on the code of the application state. Every match is at
    least one character long, so the loop runs at most once per
    character and once more to see the end. *)
Definition tokenize (code : string) : option (list Token.t) :=
  tokenizeWith (S (String.length code)) code.

End Lexer.

(** ** parser.js: the recursive-descent parser *)

Module Parser.

(** How a parsing method ends: it returns, it throws an Error with a
    message, or it is still running when the fuel that bounds the
    recursion depth and the loop iterations of the model is used up. *)
Inductive Result (A : Type) :=
| Ok (a : A)
| Throw (message : string)
| OutOfFuel.
Arguments Ok {A} a.
Arguments Throw {A} message.
Arguments OutOfFuel {A}.

(** A method reads the token array [this.tokens], which parsing never
    changes, and reads and moves the cursor [this.currentTokenIndex]:
    it is a function of the cursor that returns the new cursor. *)
Definition M (A : Type) : Type := nat → Result (A * nat).

Definition ret {A} (a : A) : M A := λ p, Ok (a, p).

Definition bind {A B} (m : M A) (k : A → M B) : M B := λ p,
  match m p with
  | Ok (a, p') => k a p'
  | Throw msg => Throw msg
  | OutOfFuel => OutOfFuel
  end.

Definition throw {A} (msg : string) : M A := λ _, Throw msg.

Definition outOfFuel {A} : M A := λ _, OutOfFuel.

Notation "'do' x <- m ; k" := (bind m (λ x, k))
  (at level 10, x name, m at level 100, k at level 200,
   format "'[v' 'do'  x  <-  m ; '/' k ']'").
Notation "'do_' m ; k" := (bind m (λ _, k))
  (at level 10, m at level 100, k at level 200,
   format "'[v' 'do_'  m ; '/' k ']'").

(** The assignment operators of the constructor. *)
Definition assignment : list string :=
  ["="; "+="; "-="; "*="; "/="; "%="; "&="; "|="; "^="; "<<="; ">>="].

(** Array.prototype.includes on an array of strings *)
Definition includes (l : list string) (s : string) : bool :=
  existsb (String.eqb s) l.

Section Methods.

(** this.tokens *)
Variable tokens : list Token.t.

(** getCurrentToken *)
Definition getCurrentToken (p : nat) : option Token.t := tokens !! p.

(** advance *)
Definition advance (p : nat) : nat := S p.

(** checkType *)
Definition checkType (type : string) (p : nat) : bool :=
  match getCurrentToken p with
  | Some token => String.eqb (Token.type token) type
  | None => false
  end.

(** checkValue *)
Definition checkValue (value : string) (p : nat) : bool :=
  match getCurrentToken p with
  | Some token => String.eqb (Token.value token) value
  | None => false
  end.

(** Reading the parser state inside a method. *)
Definition test (f : nat → bool) : M bool := λ p, Ok (f p, p).

Definition describe (token : Token.t) : string :=
  Token.type token +:+ " '" +:+ Token.value token +:+ "' at line "
  +:+ Js.toString (Token.line token).

(** consume(type, value = null) *)
Definition consume (type : string) (value : option string) : M Token.t := λ p,
  match getCurrentToken p with
  | None =>
      Throw ("Expected token of type " +:+ type
             +:+ ", but reached end of tokens")
  | Some token =>
      if negb (String.eqb (Token.type token) type)
         || match value with
            | Some v => negb (String.eqb (Token.value token) v)
            | None => false
            end
      then
        Throw ("Expected token of type " +:+ type
               +:+ (if Js.truthy value
                    then " with value '" +:+ default "" value +:+ "'"
                    else "")
               +:+ ", but found " +:+ describe token)
      else Ok (token, advance p)
  end.

(** tryConsume(type, value = null) *)
Definition tryConsume (type : string) (value : option string)
    : M (option Token.t) := λ p,
  match getCurrentToken p with
  | Some token =>
      if String.eqb (Token.type token) type
         && match value with
            | Some v => String.eqb (Token.value token) v
            | None => true
            end
      then Ok (Some token, advance p)
      else Ok (None, p)
  | None => Ok (None, p)
  end.

(** parsePreprocessorDirective *)
Definition parsePreprocessorDirective : M ASTNode.t :=
  do token <- consume "preprocessor" None;
  ret (ASTNode.new "preprocessor_directive" (Some (Token.value token))).

(** The look-ahead loop of parseTypeDeclaration over the tokens that
    remain: is a brace met, outside parentheses, before a semicolon? *)
Fixpoint lookAhead (initialTokens : list Token.t) (nestedParentheses : Z)
    : bool :=
  match initialTokens with
  | [] => false
  | t :: rest =>
      let nestedParentheses :=
        if String.eqb (Token.value t) "(" then nestedParentheses + 1
        else if String.eqb (Token.value t) ")" then nestedParentheses - 1
        else nestedParentheses in
      if (nestedParentheses =? 0) && String.eqb (Token.value t) "{" then true
      else if (nestedParentheses =? 0) && String.eqb (Token.value t) ";"
      then false
      else lookAhead rest nestedParentheses
  end.

(** The node of a binary operator with its two operands. *)
Definition binary (type operator : string) (left right : ASTNode.t)
    : ASTNode.t :=
  ASTNode.addChild (ASTNode.addChild (ASTNode.new type (Some operator)) left)
    right.

(** The message of the error parsePrimaryFactor ends with; reading a
    property of the null token is a TypeError of its own. *)
Definition unexpectedToken : M ASTNode.t := λ p,
  match getCurrentToken p with
  | Some token =>
      Throw ("Unexpected token while parsing expression: " +:+ describe token)
  | None => Throw "Cannot read properties of null (reading 'type')"
  end.

(** The methods of the expression grammar call one another, so they are
    defined together; every call and every loop iteration takes one unit
    of fuel. *)
Fixpoint parseExpression (fuel : nat) : M ASTNode.t :=
  match fuel with
  | O => outOfFuel
  | S fuel => parseAssignment fuel
  end

with parseAssignment (fuel : nat) : M ASTNode.t :=
  match fuel with
  | O => outOfFuel
  | S fuel =>
      do left <- parseLogicalExpression fuel;
      λ p,
      match getCurrentToken p with
      | Some token =>
          if String.eqb (Token.type token) "operator"
             && includes assignment (Token.value token)
          then
            (do operatorToken <- consume "operator" None;
             let operator := Token.value operatorToken in
             do right <- parseAssignment fuel;
             ret (binary "assignment_expression" operator left right)) p
          else Ok (left, p)
      | None => Ok (left, p)
      end
  end

with parseLogicalExpression (fuel : nat) : M ASTNode.t :=
  match fuel with
  | O => outOfFuel
  | S fuel =>
      do left <- parseRelationalExpression fuel;
      parseLogicalRest fuel left
  end

(** The while loop of parseLogicalExpression. *)
with parseLogicalRest (fuel : nat) (left : ASTNode.t) : M ASTNode.t :=
  match fuel with
  | O => outOfFuel
  | S fuel =>
      λ p,
      match getCurrentToken p with
      | Some token =>
          if String.eqb (Token.type token) "operator"
             && (String.eqb (Token.value token) "&&"
                 || String.eqb (Token.value token) "||")
          then
            (do operatorToken <- consume "operator" None;
             let operator := Token.value operatorToken in
             do right <- parseRelationalExpression fuel;
             parseLogicalRest fuel
               (binary "logical_expression" operator left right)) p
          else Ok (left, p)
      | None => Ok (left, p)
      end
  end

with parseRelationalExpression (fuel : nat) : M ASTNode.t :=
  match fuel with
  | O => outOfFuel
  | S fuel =>
      do left <- parseAdditiveExpression fuel;
      parseRelationalRest fuel left
  end

(** The while loop of parseRelationalExpression. *)
with parseRelationalRest (fuel : nat) (left : ASTNode.t) : M ASTNode.t :=
  match fuel with
  | O => outOfFuel
  | S fuel =>
      λ p,
      match getCurrentToken p with
      | Some token =>
          if String.eqb (Token.type token) "operator"
             && includes ["=="; "!="; "<"; ">"; "<="; ">="] (Token.value token)
          then
            (do operatorToken <- consume "operator" None;
             let operator := Token.value operatorToken in
             do right <- parseAdditiveExpression fuel;
             parseRelationalRest fuel
               (binary "relational_expression" operator left right)) p
          else Ok (left, p)
      | None => Ok (left, p)
      end
  end

with parseAdditiveExpression (fuel : nat) : M ASTNode.t :=
  match fuel with
  | O => outOfFuel
  | S fuel =>
      do left <- parseMultiplicativeExpression fuel;
      parseAdditiveRest fuel left
  end

(** The while loop of parseAdditiveExpression. *)
with parseAdditiveRest (fuel : nat) (left : ASTNode.t) : M ASTNode.t :=
  match fuel with
  | O => outOfFuel
  | S fuel =>
      λ p,
      match getCurrentToken p with
      | Some token =>
          if String.eqb (Token.type token) "operator"
             && (String.eqb (Token.value token) "+"
                 || String.eqb (Token.value token) "-")
          then
            (do operatorToken <- consume "operator" None;
             let operator := Token.value operatorToken in
             do right <- parseMultiplicativeExpression fuel;
             parseAdditiveRest fuel
               (binary "additive_expression" operator left right)) p
          else Ok (left, p)
      | None => Ok (left, p)
      end
  end

with parseMultiplicativeExpression (fuel : nat) : M ASTNode.t :=
  match fuel with
  | O => outOfFuel
  | S fuel =>
      do left <- parseUnaryExpression fuel;
      parseMultiplicativeRest fuel left
  end

(** The while loop of parseMultiplicativeExpression. *)
with parseMultiplicativeRest (fuel : nat) (left : ASTNode.t) : M ASTNode.t :=
  match fuel with
  | O => outOfFuel
  | S fuel =>
      λ p,
      match getCurrentToken p with
      | Some token =>
          if String.eqb (Token.type token) "operator"
             && (String.eqb (Token.value token) "*"
                 || String.eqb (Token.value token) "/"
                 || String.eqb (Token.value token) "%")
          then
            (do operatorToken <- consume "operator" None;
             let operator := Token.value operatorToken in
             do right <- parseUnaryExpression fuel;
             parseMultiplicativeRest fuel
               (binary "multiplicative_expression" operator left right)) p
          else Ok (left, p)
      | None => Ok (left, p)
      end
  end

with parseUnaryExpression (fuel : nat) : M ASTNode.t :=
  match fuel with
  | O => outOfFuel
  | S fuel =>
      λ p,
      match getCurrentToken p with
      | Some token =>
          if String.eqb (Token.type token) "operator"
             && includes ["+"; "-"; "!"; "~"; "++"; "--"; "*"; "&"]
                  (Token.value token)
          then
            (do operatorToken <- consume "operator" None;
             let operator := Token.value operatorToken in
             do operand <- parseUnaryExpression fuel;
             ret (ASTNode.addChild
                    (ASTNode.new "unary_expression" (Some operator)) operand)) p
          else parsePrimaryFactor fuel p
      | None => parsePrimaryFactor fuel p
      end
  end

with parsePrimaryFactor (fuel : nat) : M ASTNode.t :=
  match fuel with
  | O => outOfFuel
  | S fuel =>
      do isLiteral <- test (checkType "literal");
      do isIdentifier <- test (checkType "identifier");
      do isParenthesis <- test (checkValue "(");
      if isLiteral then
        do literal <- consume "literal" None;
        ret (ASTNode.new "literal" (Some (Token.value literal)))
      else if isIdentifier then
        do identifier <- consume "identifier" None;
        do isCall <- test (checkValue "(");
        do isIndex <- test (checkValue "[");
        if isCall then
          do_ consume "punctuation" (Some "(");
          let callNode :=
            ASTNode.new "call_expression" (Some (Token.value identifier)) in
          do closing <- test (checkValue ")");
          do callNode <-
            (if negb closing then parseArguments fuel callNode
             else ret callNode);
          do_ consume "punctuation" (Some ")");
          ret callNode
        else if isIndex then
          do_ consume "punctuation" (Some "[");
          do index <- parseExpression fuel;
          do_ consume "punctuation" (Some "]");
          ret (ASTNode.addChild
                 (ASTNode.new "array_access" (Some (Token.value identifier)))
                 index)
        else ret (ASTNode.new "identifier" (Some (Token.value identifier)))
      else if isParenthesis then
        do_ consume "punctuation" (Some "(");
        do expression <- parseExpression fuel;
        do_ consume "punctuation" (Some ")");
        ret expression
      else unexpectedToken
  end

(** The do-while loop over the arguments of a call. *)
with parseArguments (fuel : nat) (callNode : ASTNode.t) : M ASTNode.t :=
  match fuel with
  | O => outOfFuel
  | S fuel =>
      do comma <- test (checkValue ",");
      do_ (if comma then do_ consume "punctuation" (Some ","); ret tt
           else ret tt);
      do argument <- parseExpression fuel;
      let callNode := ASTNode.addChild callNode argument in
      do more <- test (checkValue ",");
      if more then parseArguments fuel callNode else ret callNode
  end.

Definition parseExpressionStatement (fuel : nat) : M ASTNode.t :=
  do expression <- parseExpression fuel;
  do_ consume "punctuation" (Some ";");
  ret expression.

Definition parseReturnStatement (fuel : nat) : M ASTNode.t :=
  do_ consume "keyword" (Some "return");
  let returnNode := ASTNode.new "return_statement" None in
  do noValue <- test (checkValue ";");
  do returnNode <-
    (if negb noValue then
       do returnValue <- parseExpression fuel;
       ret (ASTNode.addChild returnNode returnValue)
     else ret returnNode);
  do_ consume "punctuation" (Some ";");
  ret returnNode.

(** The do-while loop over the declared variables. *)
Fixpoint parseVariables (fuel : nat) (firstVar : bool)
    (declarationNode : ASTNode.t) : M ASTNode.t :=
  match fuel with
  | O => outOfFuel
  | S fuel =>
      do_ (if negb firstVar
           then do_ consume "punctuation" (Some ","); ret tt
           else ret tt);
      let varNode := ASTNode.new "variable" None in
      do isIdentifier <- test (checkType "identifier");
      do isStar <- test (checkValue "*");
      do varNode <-
        (if isIdentifier then
           do t <- consume "identifier" None;
           ret (ASTNode.new "variable" (Some (Token.value t)))
         else if isStar then
           do_ consume "operator" (Some "*");
           do t <- consume "identifier" None;
           ret (ASTNode.mk "variable" (Some (Token.value t)) [] None [] true)
         else ret varNode);
      do isInit <- test (checkValue "=");
      do varNode <-
        (if isInit then
           do_ consume "operator" (Some "=");
           do valueNode <- parseExpression fuel;
           ret (ASTNode.addChild varNode valueNode)
         else ret varNode);
      let declarationNode := ASTNode.addChild declarationNode varNode in
      do comma <- test (checkValue ",");
      if comma then parseVariables fuel false declarationNode
      else ret declarationNode
  end.

Definition parseVariableDeclaration (fuel : nat) (type : string) : M ASTNode.t :=
  (* declarationNode.type = type: the kind of the node is overwritten *)
  let declarationNode := ASTNode.new type None in
  do declarationNode <- parseVariables fuel true declarationNode;
  do_ consume "punctuation" (Some ";");
  ret declarationNode.

(** A clause of a for statement, which ends at [terminator]:
    !this.checkValue(terminator) ? this.parseExpression() : new ASTNode('empty') *)
Definition parseForClause (fuel : nat) (terminator : string) : M ASTNode.t :=
  do omitted <- test (checkValue terminator);
  if negb omitted then parseExpression fuel
  else ret (ASTNode.new "empty" None).

(** The statements that nest. *)
Fixpoint parseCompoundStatement (fuel : nat) : M ASTNode.t :=
  match fuel with
  | O => outOfFuel
  | S fuel =>
      do_ consume "punctuation" (Some "{");
      do blockNode <-
        parseStatements fuel (ASTNode.new "compound_statement" None);
      do_ consume "punctuation" (Some "}");
      ret blockNode
  end

(** The while loop over the statements of a block. *)
with parseStatements (fuel : nat) (blockNode : ASTNode.t) : M ASTNode.t :=
  match fuel with
  | O => outOfFuel
  | S fuel =>
      λ p,
      if negb (checkValue "}" p) then
        (do statement <-
           (λ p,
            match getCurrentToken p with
            | Some token =>
                if String.eqb (Token.type token) "keyword" then
                  if includes ["if"; "for"; "while"; "do"; "switch"; "return"]
                       (Token.value token)
                  then parseControlFlowStatement fuel p
                  else parseVariableDeclaration fuel (Token.value token) p
                else if String.eqb (Token.type token) "identifier" then
                  parseExpressionStatement fuel p
                else parseExpressionStatement fuel p
            | None => parseExpressionStatement fuel p
            end);
         parseStatements fuel (ASTNode.addChild blockNode statement)) p
      else Ok (blockNode, p)
  end

with parseControlFlowStatement (fuel : nat) : M ASTNode.t :=
  match fuel with
  | O => outOfFuel
  | S fuel =>
      λ p,
      match getCurrentToken p with
      | Some token =>
          if String.eqb (Token.value token) "if" then parseIfStatement fuel p
          else if String.eqb (Token.value token) "for" then
            parseForStatement fuel p
          else if String.eqb (Token.value token) "while" then
            parseWhileStatement fuel p
          else if String.eqb (Token.value token) "return" then
            parseReturnStatement fuel p
          else
            Throw ("Unsupported control flow structure: "
                   +:+ Token.value token)
      | None => Throw "Cannot read properties of null (reading 'value')"
      end
  end

(** checkValue('{') ? parseCompoundStatement() : parseExpressionStatement() *)
with parseBlockOrStatement (fuel : nat) : M ASTNode.t :=
  match fuel with
  | O => outOfFuel
  | S fuel =>
      do brace <- test (checkValue "{");
      if brace then parseCompoundStatement fuel
      else parseExpressionStatement fuel
  end

with parseIfStatement (fuel : nat) : M ASTNode.t :=
  match fuel with
  | O => outOfFuel
  | S fuel =>
      do_ consume "keyword" (Some "if");
      do_ consume "punctuation" (Some "(");
      do condition <- parseExpression fuel;
      do_ consume "punctuation" (Some ")");
      do ifBlock <- parseBlockOrStatement fuel;
      let ifNode := ASTNode.new "if_statement" None in
      let ifNode := ASTNode.addChild ifNode condition in
      let ifNode := ASTNode.addChild ifNode ifBlock in
      do else_ <- tryConsume "keyword" (Some "else");
      match else_ with
      | Some _ =>
          do elseBlock <- parseBlockOrStatement fuel;
          ret (ASTNode.addChild ifNode elseBlock)
      | None => ret ifNode
      end
  end

with parseForStatement (fuel : nat) : M ASTNode.t :=
  match fuel with
  | O => outOfFuel
  | S fuel =>
      do_ consume "keyword" (Some "for");
      do_ consume "punctuation" (Some "(");
      do initialization <- parseForClause fuel ";";
      do_ consume "punctuation" (Some ";");
      do condition <- parseForClause fuel ";";
      do_ consume "punctuation" (Some ";");
      do increment <- parseForClause fuel ")";
      do_ consume "punctuation" (Some ")");
      do body <- parseBlockOrStatement fuel;
      let forNode := ASTNode.new "for_statement" None in
      let forNode := ASTNode.addChild forNode initialization in
      let forNode := ASTNode.addChild forNode condition in
      let forNode := ASTNode.addChild forNode increment in
      let forNode := ASTNode.addChild forNode body in
      ret forNode
  end

with parseWhileStatement (fuel : nat) : M ASTNode.t :=
  match fuel with
  | O => outOfFuel
  | S fuel =>
      do_ consume "keyword" (Some "while");
      do_ consume "punctuation" (Some "(");
      do condition <- parseExpression fuel;
      do_ consume "punctuation" (Some ")");
      do body <- parseBlockOrStatement fuel;
      let whileNode := ASTNode.new "while_statement" None in
      let whileNode := ASTNode.addChild whileNode condition in
      let whileNode := ASTNode.addChild whileNode body in
      ret whileNode
  end.

(** The do-while loop over the parameters. *)
Fixpoint parseParameters (fuel : nat) (parameters : list (string * string))
    : M (list (string * string)) :=
  match fuel with
  | O => outOfFuel
  | S fuel =>
      do isKeyword <- test (checkType "keyword");
      do parameters <-
        (if isKeyword then
           do paramTypeToken <- consume "keyword" None;
           let paramType := Token.value paramTypeToken in
           do isIdentifier <- test (checkType "identifier");
           do paramName <-
             (if isIdentifier
              then do t <- consume "identifier" None; ret (Token.value t)
              else ret "");
           let parameters := parameters ++ [(paramType, paramName)] in
           do comma <- test (checkValue ",");
           if comma
           then do_ consume "punctuation" (Some ","); ret parameters
           else ret parameters
         else ret parameters);
      do closing <- test (checkValue ")");
      if negb closing then parseParameters fuel parameters else ret parameters
  end.

Definition parseFunctionDefinition (fuel : nat) (returnType : string)
    : M ASTNode.t :=
  do nameToken <- consume "identifier" None;
  let functionName := Token.value nameToken in
  do_ consume "punctuation" (Some "(");
  do closing <- test (checkValue ")");
  do parameters <-
    (if negb closing then parseParameters fuel [] else ret []);
  do_ consume "punctuation" (Some ")");
  let functionNode :=
    ASTNode.mk "function_definition" (Some functionName) []
      (Some returnType) parameters false in
  do functionBody <- parseCompoundStatement fuel;
  ret (ASTNode.addChild functionNode functionBody).

Definition parseTypeDeclaration (fuel : nat) : M ASTNode.t :=
  do typeToken <- consume "keyword" None;
  λ p,
  let initialTokens := drop p tokens in
  let isFunction := lookAhead initialTokens 0 in
  if isFunction
  then parseFunctionDefinition fuel (Token.value typeToken) p
  else parseVariableDeclaration fuel (Token.value typeToken) p.

Fixpoint parseProgramLoop (fuel : nat) (root : ASTNode.t) : M ASTNode.t :=
  match fuel with
  | O => outOfFuel
  | S fuel =>
      λ p,
      match getCurrentToken p with
      | None => Ok (root, p)
      | Some token =>
          if checkType "preprocessor" p then
            (do directive <- parsePreprocessorDirective;
             parseProgramLoop fuel (ASTNode.addChild root directive)) p
          else if checkType "keyword" p then
            (do declaration <- parseTypeDeclaration fuel;
             parseProgramLoop fuel (ASTNode.addChild root declaration)) p
          else
            Throw ("Unexpected token in global scope: " +:+ describe token)
      end
  end.

(** parseProgram *)
Definition parseProgram (fuel : nat) : M ASTNode.t :=
  parseProgramLoop fuel (ASTNode.new "program" None).

(** parse, on the token array of the application state *)
Definition parse (fuel : nat) : Result ASTNode.t :=
  let currentTokenIndex := 0%nat in
  if (length tokens =? 0)%nat then Throw "No tokens to parse"
  else
    match parseProgram fuel currentTokenIndex with
    | Ok (root, _) => Ok root
    | Throw msg => Throw msg
    | OutOfFuel => OutOfFuel
    end.

End Methods.

End Parser.

(** ** interpreter.js: the trace generator *)

Module Interpreter.

(** The error a failing statement throws; [message] is what the catch
    block reads. *)
Inductive JsError := TypeError (message : string).

Definition message (e : JsError) : string :=
  match e with TypeError m => m end.

(** The two objects a generator mutates: the step array it is handed and
    the application state. *)
Record Sim := mkSim { steps : list ExecutionStep.t; app : AppState.t }.

(** How a block of statements ends. A throw keeps the mutations made
    before it. *)
Inductive Completion :=
| Normal (s : Sim)
| Throws (e : JsError) (s : Sim).

Definition Cmd := Sim → Completion.

Definition skip : Cmd := Normal.

Definition andThen (c1 c2 : Cmd) : Cmd := λ σ,
  match c1 σ with
  | Normal σ' => c2 σ'
  | Throws e σ' => Throws e σ'
  end.

Declare Scope cmd_scope.
Delimit Scope cmd_scope with cmd.
Bind Scope cmd_scope with Cmd.
Notation "c1 ;; c2" := (andThen c1 c2)
  (at level 100, c2 at level 200, right associativity) : cmd_scope.
Local Open Scope cmd_scope.

Definition throw (e : JsError) : Cmd := Throws e.

(** steps.push(step) *)
Definition push (s : ExecutionStep.t) : Cmd := λ σ,
  Normal (mkSim (steps σ ++ [s]) (app σ)).

Definition update (f : AppState.t → AppState.t) : Cmd := λ σ,
  Normal (mkSim (steps σ) (f (app σ))).

(** A statement that reads the application state. *)
Definition withState (k : AppState.t → Cmd) : Cmd := λ σ, k (app σ) σ.

(** for (const x of l) body(x) *)
Definition forEach {A} (l : list A) (body : A → Cmd) : Cmd :=
  foldr (λ x k, andThen (body x) k) skip l.

(** this.appState.memory[address] = cell *)
Definition writeMemory (address : Z) (cell : MemCell.t) : Cmd :=
  update (AppState.set_memory (λ m, <[address := cell]> m)).

(** this.appState.memory[address].value = v: a TypeError when the cell
    does not exist. *)
Definition setMemoryValue (address v : Z) : Cmd := λ σ,
  match AppState.memory (app σ) !! address with
  | Some c =>
      writeMemory address (MemCell.mk v (MemCell.name c) (MemCell.type c)) σ
  | None =>
      Throws (TypeError "Cannot set properties of undefined (setting 'value')") σ
  end.

(** this.appState.heap[address].content = c and .freed = true *)
Definition setHeapContent (address : Z) (c : HeapContent) : Cmd := λ σ,
  match AppState.heap (app σ) !! address with
  | Some b =>
      update (AppState.set_heap (λ h,
        <[address := HeapBlock.mk (HeapBlock.address b) (HeapBlock.size b) c
                       (HeapBlock.freed b)]> h)) σ
  | None =>
      Throws (TypeError "Cannot set properties of undefined (setting 'content')") σ
  end.

Definition setHeapFreed (address : Z) : Cmd := λ σ,
  match AppState.heap (app σ) !! address with
  | Some b =>
      update (AppState.set_heap (λ h,
        <[address := HeapBlock.mk (HeapBlock.address b) (HeapBlock.size b)
                       (HeapBlock.content b) true]> h)) σ
  | None =>
      Throws (TypeError "Cannot set properties of undefined (setting 'freed')") σ
  end.

(** this.appState.consoleOutput += text *)
Definition print (text : string) : Cmd :=
  update (AppState.set_consoleOutput (λ out, out +:+ text)).

(** A stack frame is an object shared between the local [mainFrame] and
    the stack array: it is referred to by its index in the array.
    [pushFrame frame k] is

      const mainFrame = frame; this.appState.stack.push(mainFrame); k

    where [k] is given the reference. *)
Definition pushFrame (frame : StackFrame.t) (k : nat → Cmd) : Cmd := λ σ,
  k (length (AppState.stack (app σ)))
    (mkSim (steps σ) (AppState.set_stack (λ s, s ++ [frame]) (app σ))).

Definition onFrame (frame : nat) (f : StackFrame.t → StackFrame.t) : Cmd :=
  update (AppState.set_stack (alter f frame)).

(** A call of a method the class does not define. *)
Definition callUndefined (method : string) : Cmd :=
  throw (TypeError ("this." +:+ method +:+ " is not a function")).

(** constructor *)
Definition baseAddress : Z := 0x1000.
Definition heapBase : Z := 0x8000.

Definition nl : string := String Js.newline "".

(** Step objects as the generators write them. *)
Definition step (type : string) (line : Z) (description : string)
    (changes : Changes.t) : ExecutionStep.t :=
  ExecutionStep.mk type line description changes.

Definition declares (address : Z) (cell : MemCell.t) (fn : string)
    (c : StackChange) : Changes.t :=
  Changes.mk {[ address := cell ]} {[ fn := c ]} ∅ None.

Definition prints (text : string) : Changes.t :=
  Changes.mk ∅ ∅ ∅ (Some text).

Definition removesFrame (fn : string) : Changes.t :=
  Changes.mk ∅ {[ fn := SRemove ]} ∅ None.

(** determineCodeType *)
Fixpoint findFunctions (node : ASTNode.t) : list string :=
  match node with
  | ASTNode.mk ty v ch _ _ _ =>
      (if String.eqb ty "function_definition" && Js.truthy v
       then option_list v else [])
      ++ flat_map findFunctions ch
  end.

Fixpoint findRecursiveCalls (functionNames : list string) (node : ASTNode.t)
    (currentFunction : option string) (hasRecursiveCall : bool) : bool :=
  match node with
  | ASTNode.mk ty v ch _ _ _ =>
      let currentFunction :=
        if String.eqb ty "function_definition" && Js.truthy v
        then v else currentFunction in
      if String.eqb ty "call_expression" && Js.truthy v
         && existsb (Js.seq_opt v) functionNames
         && match currentFunction with
            | Some f => Js.seq_opt v f
            | None => false
            end
      then true
      else if negb hasRecursiveCall
      then fold_left
             (λ flag child,
                findRecursiveCalls functionNames child currentFunction flag)
             ch hasRecursiveCall
      else hasRecursiveCall
  end.

Definition hasRecursion (a : AppState.t) : bool :=
  match AppState.ast a with
  | None => false
  | Some ast => findRecursiveCalls (findFunctions ast) ast None false
  end.

Definition determineCodeType (a : AppState.t) : string :=
  let code := Js.toLowerCase (AppState.code a) in
  if Js.includes code "malloc(" || Js.includes code "free(" then
    "dynamic_allocation"
  else if Js.includes code "struct " then
    "structures"
  else if Js.includes code "fopen(" || Js.includes code "fclose(" then
    "file_io"
  else if Js.includes code "switch(" || Js.includes code "case " then
    "switch_case"
  else if Js.includes code "#define " then
    "preprocessor"
  else if Js.includes code "<<" || Js.includes code ">>"
          || Js.includes code " & " then
    "bitwise"
  else if hasRecursion a then
    "recursion"
  else if Js.includes code "[" && Js.includes code "]" then
    "arrays"
  else
    "basic".

(** findLastLine *)
Definition findLastLine (a : AppState.t) : Z :=
  match Token.line <$> AppState.tokens a with
  | [] => 1
  | l :: lines => fold_left Z.max lines l
  end.

(** generateStepsForVariablesAndPointers *)
Definition generateStepsForVariablesAndPointers : Cmd :=
  let currentAddress := baseAddress in
  pushFrame (StackFrame.new "main" 0) (λ mainFrame,
   let xAddress := currentAddress in
   let currentAddress := currentAddress + 4 in
   push (step "declaration" 4 "Declaration of variable x with value 10"
     (declares xAddress (MemCell.mk 10 "x" "int")
        "main" (SAdd (StackVar.mk "x" 10 xAddress "int")))) ;;
   onFrame mainFrame (StackFrame.addVariable "x" 10 xAddress "int") ;;
   writeMemory xAddress (MemCell.mk 10 "x" "int") ;;
   let yAddress := currentAddress in
   let currentAddress := currentAddress + 4 in
   push (step "declaration" 5 "Declaration of variable y with value 20"
     (declares yAddress (MemCell.mk 20 "y" "int")
        "main" (SAdd (StackVar.mk "y" 20 yAddress "int")))) ;;
   onFrame mainFrame (StackFrame.addVariable "y" 20 yAddress "int") ;;
   writeMemory yAddress (MemCell.mk 20 "y" "int") ;;
   let ptrAddress := currentAddress in
   let currentAddress := currentAddress + 8 in
   push (step "declaration" 6 "Declaration of pointer ptr pointing to x"
     (declares ptrAddress (MemCell.mk xAddress "ptr" "int*")
        "main" (SAdd (StackVar.mk "ptr" xAddress ptrAddress "int*")))) ;;
   onFrame mainFrame (StackFrame.addVariable "ptr" xAddress ptrAddress "int*") ;;
   writeMemory ptrAddress (MemCell.mk xAddress "ptr" "int*") ;;
   push (step "call" 8 "Printf function call showing x and y values"
     (prints ("x = 10, y = 20" +:+ nl))) ;;
   print ("x = 10, y = 20" +:+ nl) ;;
   push (step "call" 9 "Printf function call showing value pointed by ptr"
     (prints ("*ptr = 10" +:+ nl))) ;;
   print ("*ptr = 10" +:+ nl) ;;
   push (step "assignment" 11 "Assignment of 30 to the value pointed by ptr (x)"
     (declares xAddress (MemCell.mk 30 "x" "int")
        "main" (SUpdate (StackVar.mk "x" 30 xAddress "int")))) ;;
   onFrame mainFrame (StackFrame.updateVariable "x" 30) ;;
   setMemoryValue xAddress 30 ;;
   push (step "call" 12 "Printf function call showing x value after change"
     (prints ("After *ptr = 30, x = 30" +:+ nl))) ;;
   print ("After *ptr = 30, x = 30" +:+ nl) ;;
   push (step "assignment" 14 "Assignment of y address to ptr"
     (declares ptrAddress (MemCell.mk yAddress "ptr" "int*")
        "main" (SUpdate (StackVar.mk "ptr" yAddress ptrAddress "int*")))) ;;
   onFrame mainFrame (StackFrame.updateVariable "ptr" yAddress) ;;
   setMemoryValue ptrAddress yAddress ;;
   push (step "assignment" 15 "Assignment of 40 to the value pointed by ptr (y)"
     (declares yAddress (MemCell.mk 40 "y" "int")
        "main" (SUpdate (StackVar.mk "y" 40 yAddress "int")))) ;;
   onFrame mainFrame (StackFrame.updateVariable "y" 40) ;;
   setMemoryValue yAddress 40 ;;
   push (step "call" 16 "Printf function call showing y value after change"
     (prints ("After ptr = &y and *ptr = 40, y = 40" +:+ nl))) ;;
   print ("After ptr = &y and *ptr = 40, y = 40" +:+ nl) ;;
   push (step "return" 18 "Return from main function" (removesFrame "main"))).

(** generateStepsForArraysAndPointers *)
Definition initialValues : list Z := [10; 20; 30; 40; 50].

(** initialValues[i]; every index the generator uses is in range. *)
Definition initialValue (i : Z) : Z := default 0 (initialValues !! Z.to_nat i).

Definition enderecoDeNumeros : string :=
  "Endere" +:+ String (ascii_of_N 231) "o de numeros: 0x".

Definition generateStepsForArraysAndPointers : Cmd :=
  let currentAddress := baseAddress in
  pushFrame (StackFrame.new "main" 0) (λ mainFrame,
   let arraySize := 5 in
   let intSize := 4 in
   let arrayAddress := currentAddress in
   let currentAddress := currentAddress + arraySize * intSize in
   let memoryChanges : gmap Z MemCell.t :=
     fold_left
       (λ m i,
          let elementAddress := arrayAddress + i * intSize in
          <[elementAddress :=
              MemCell.mk (initialValue i)
                ("numeros[" +:+ Js.toString i +:+ "]") "int"]> m)
       (seqZ 0 arraySize) ∅ in
   push (step "declaration" 5
     "Declaration and initialization of array numeros with 5 elements"
     (Changes.mk memoryChanges
        {[ "main" :=
             SAdd (StackVar.mk "numeros" arrayAddress arrayAddress "int[5]") ]}
        ∅ None)) ;;
   onFrame mainFrame
     (StackFrame.addVariable "numeros" arrayAddress arrayAddress "int[5]") ;;
   update (AppState.set_memory (λ m, memoryChanges ∪ m)) ;;
   let ptrAddress := currentAddress in
   let currentAddress := currentAddress + 8 in
   push (step "declaration" 6
     "Declaration of pointer ptr initialized with numeros array address"
     (declares ptrAddress (MemCell.mk arrayAddress "ptr" "int*")
        "main" (SAdd (StackVar.mk "ptr" arrayAddress ptrAddress "int*")))) ;;
   onFrame mainFrame
     (StackFrame.addVariable "ptr" arrayAddress ptrAddress "int*") ;;
   writeMemory ptrAddress (MemCell.mk arrayAddress "ptr" "int*") ;;
   push (step "call" 8 "Printf function call showing the array address"
     (prints (enderecoDeNumeros +:+ Js.toString16 arrayAddress +:+ nl))) ;;
   print (enderecoDeNumeros +:+ Js.toString16 arrayAddress +:+ nl) ;;
   push (step "call" 9 "Printf function call showing pointer ptr value"
     (prints ("Valor de ptr: 0x" +:+ Js.toString16 arrayAddress +:+ nl))) ;;
   print ("Valor de ptr: 0x" +:+ Js.toString16 arrayAddress +:+ nl) ;;
   forEach (seqZ 0 arraySize) (λ i,
     let text :=
       "numeros[" +:+ Js.toString i +:+ "] = " +:+ Js.toString (initialValue i)
       +:+ ", *(ptr+" +:+ Js.toString i +:+ ") = "
       +:+ Js.toString (initialValue i) +:+ nl in
     push (step "execution" 11
       ("Loop iteration " +:+ Js.toString (i + 1)
        +:+ " - accessing array elements") Changes.none) ;;
     push (step "call" 13
       ("Printf function call showing array element " +:+ Js.toString i)
       (prints text)) ;;
     print text) ;;
   push (step "assignment" 16
     "Repositioning ptr to the third element of array (numeros[2])"
     (declares ptrAddress (MemCell.mk (arrayAddress + 2 * intSize) "ptr" "int*")
        "main"
        (SUpdate
           (StackVar.mk "ptr" (arrayAddress + 2 * intSize) ptrAddress "int*")))) ;;
   onFrame mainFrame
     (StackFrame.updateVariable "ptr" (arrayAddress + 2 * intSize)) ;;
   setMemoryValue ptrAddress (arrayAddress + 2 * intSize) ;;
   push (step "call" 17 "Printf function call with informative message"
     (prints (nl +:+ "ptr agora aponta para numeros[2]" +:+ nl))) ;;
   print (nl +:+ "ptr agora aponta para numeros[2]" +:+ nl) ;;
   push (step "call" 18 "Printf function call showing value pointed by ptr"
     (prints ("*ptr = " +:+ Js.toString (initialValue 2) +:+ nl))) ;;
   print ("*ptr = " +:+ Js.toString (initialValue 2) +:+ nl) ;;
   push (step "call" 19 "Printf function call demonstrating pointer indexing"
     (prints ("ptr[-1] = " +:+ Js.toString (initialValue 1) +:+ ", ptr[1] = "
              +:+ Js.toString (initialValue 3) +:+ nl))) ;;
   print ("ptr[-1] = " +:+ Js.toString (initialValue 1) +:+ ", ptr[1] = "
          +:+ Js.toString (initialValue 3) +:+ nl) ;;
   push (step "return" 21 "Return from main function" (removesFrame "main"))).

(** generateStepsForDynamicAllocation *)
Definition generateStepsForDynamicAllocation : Cmd :=
  let currentAddress := baseAddress in
  let heapAddress := heapBase in
  pushFrame (StackFrame.new "main" 0) (λ mainFrame,
   let ptrAddress := currentAddress in
   let currentAddress := currentAddress + 8 in
   push (step "declaration" 5 "Declaration of pointer ptr (uninitialized)"
     (declares ptrAddress (MemCell.mk 0 "ptr" "int*")
        "main" (SAdd (StackVar.mk "ptr" 0 ptrAddress "int*")))) ;;
   onFrame mainFrame (StackFrame.addVariable "ptr" 0 ptrAddress "int*") ;;
   writeMemory ptrAddress (MemCell.mk 0 "ptr" "int*") ;;
   let nAddress := currentAddress in
   let currentAddress := currentAddress + 4 in
   push (step "declaration" 6 "Declaration of variable n with value 5"
     (declares nAddress (MemCell.mk 5 "n" "int")
        "main" (SAdd (StackVar.mk "n" 5 nAddress "int")))) ;;
   onFrame mainFrame (StackFrame.addVariable "n" 5 nAddress "int") ;;
   writeMemory nAddress (MemCell.mk 5 "n" "int") ;;
   let allocSize := 5 * 4 in
   let heapBlockAddress := heapAddress in
   let heapAddress := heapAddress + allocSize in
   push (step "call" 9 "Malloc function call to allocate 5 integers on heap"
     (Changes.mk
        {[ ptrAddress := MemCell.mk heapBlockAddress "ptr" "int*" ]}
        {[ "main" :=
             SUpdate (StackVar.mk "ptr" heapBlockAddress ptrAddress "int*") ]}
        {[ heapBlockAddress := HeapDelta.mk heapBlockAddress allocSize false ]}
        None)) ;;
   onFrame mainFrame (StackFrame.updateVariable "ptr" heapBlockAddress) ;;
   setMemoryValue ptrAddress heapBlockAddress ;;
   update (AppState.set_heap (λ h,
     <[heapBlockAddress :=
         HeapBlock.new heapBlockAddress allocSize (ContentText "uninitialized")]>
       h)) ;;
   push (step "conditional" 11 "Checking if allocation was successful"
     Changes.none) ;;
   forEach (seqZ 0 5) (λ i,
     let elementAddress := heapBlockAddress + i * 4 in
     let elementValue := i * 10 in
     let cell :=
       MemCell.mk elementValue ("*(ptr+" +:+ Js.toString i +:+ ")") "int" in
     push (step "assignment" 16
       ("Initializing ptr[" +:+ Js.toString i +:+ "] with value "
        +:+ Js.toString elementValue)
       (Changes.mk {[ elementAddress := cell ]} ∅ ∅ None)) ;;
     writeMemory elementAddress cell) ;;
   let heapValues : gmap Z Z :=
     fold_left (λ m i, <[i := i * 10]> m) (seqZ 0 5) ∅ in
   setHeapContent heapBlockAddress (ContentValues heapValues) ;;
   forEach (seqZ 0 5) (λ i,
     let elementValue := i * 10 in
     let text :=
       "ptr[" +:+ Js.toString i +:+ "] = " +:+ Js.toString elementValue
       +:+ nl in
     push (step "call" 21
       ("Printf function call showing ptr[" +:+ Js.toString i +:+ "]")
       (prints text)) ;;
     print text) ;;
   push (step "call" 25 "Free function call to release allocated memory"
     (Changes.mk ∅ ∅
        {[ heapBlockAddress := HeapDelta.mk heapBlockAddress allocSize true ]}
        None)) ;;
   setHeapFreed heapBlockAddress ;;
   push (step "warning" 28
     "ptr is now a dangling pointer pointing to freed memory" Changes.none) ;;
   push (step "return" 30 "Return from main function" (removesFrame "main"))).

(** findFunctionCalls *)
Fixpoint findFunctionCalls (rootNode : ASTNode.t) (functionName : string)
    : list ASTNode.t :=
  match rootNode with
  | ASTNode.mk ty v ch _ _ _ =>
      (if String.eqb ty "call_expression" && Js.seq_opt v functionName
       then [rootNode] else [])
      ++ flat_map (λ child, findFunctionCalls child functionName) ch
  end.

(** generateStepsBasedOnAST. A node carries no [line] property, so the
    line of a call step is always [index + 3]. *)
Definition generateStepsBasedOnAST : Cmd := withState (λ a,
  let mainNode :=
    match AppState.ast a with
    | Some ast =>
        List.find
          (λ node,
             String.eqb (ASTNode.type node) "function_definition"
             && Js.seq_opt (ASTNode.value node) "main")
          (ASTNode.children ast)
    | None => None
    end in
  match mainNode with
  | Some mainNode =>
      pushFrame (StackFrame.new "main" 0) (λ mainFrame,
       push (step "information" 2 "Found main() function - starting execution"
         Changes.none) ;;
       let printfCalls := findFunctionCalls mainNode "printf" in
       forEach (seq 0 (length printfCalls)) (λ index,
         push (step "call" (Z.of_nat index + 3) "Printf function call"
           (prints ("Simulated output from printf call" +:+ nl))) ;;
         print ("Simulated output from printf call" +:+ nl)) ;;
       withState (λ a,
         push (step "return" (findLastLine a - 1)
           "Return from main function" (removesFrame "main"))))
  | None =>
      push (step "error" 1 "Could not find main function for execution"
        Changes.none)
  end).

(** The switch of generateExecutionSteps. The class defines the
    generators of three categories and the generic one; the other six
    method names it calls are not defined anywhere. *)
Definition generateStepsFor (codeType : string) : Cmd :=
  if String.eqb codeType "basic" then generateStepsForVariablesAndPointers
  else if String.eqb codeType "arrays" then generateStepsForArraysAndPointers
  else if String.eqb codeType "dynamic_allocation" then
    generateStepsForDynamicAllocation
  else if String.eqb codeType "structures" then
    callUndefined "generateStepsForStructures"
  else if String.eqb codeType "recursion" then
    callUndefined "generateStepsForRecursion"
  else if String.eqb codeType "file_io" then
    callUndefined "generateStepsForFileHandling"
  else if String.eqb codeType "switch_case" then
    callUndefined "generateStepsForSwitchCase"
  else if String.eqb codeType "preprocessor" then
    callUndefined "generateStepsForPreprocessor"
  else if String.eqb codeType "bitwise" then
    callUndefined "generateStepsForBitwise"
  else generateStepsBasedOnAST.

Definition initialization : ExecutionStep.t :=
  step "initialization" 1 "Program start" Changes.none.

Definition finalization (lastLine : Z) : ExecutionStep.t :=
  step "finalization" lastLine "Program end" Changes.none.

(** The statements of the try block that follow the classification. *)
Definition stepsOfType (codeType : string) : Cmd :=
  push initialization ;;
  generateStepsFor codeType ;;
  withState (λ a, push (finalization (findLastLine a))).

(** The try block. *)
Definition tryBlock : Cmd := withState (λ a,
  let codeType := determineCodeType a in
  stepsOfType codeType).

(** generateExecutionSteps: the returned array and the state left
    behind. [now] is the time the catch block would log. *)
Definition generateExecutionSteps (now : Z) (a : AppState.t)
    : list ExecutionStep.t * AppState.t :=
  match tryBlock (mkSim [] a) with
  | Normal σ => (steps σ, app σ)
  | Throws error σ => (steps σ, AppState.addError now (message error) (app σ))
  end.

End Interpreter.

(** ** state.js: the steps in view, and the type descriptions *)

Module Session.

(** class AppState, with the two fields of the step navigation beside
    the fields of the pipeline: the list of steps on display and the
    index of the step in view. The interval of the automatic play and
    the elements of the page are not part of the state modelled. *)
Record t := mk {
  state : AppState.t;
  executionSteps : list ExecutionStep.t;
  currentStep : Z }.

(** resetExecutionState *)
Definition resetExecutionState (s : t) : t :=
  mk (AppState.mk (AppState.code (state s)) [] None ∅ [] ∅ "" []) [] 0.

(** goToStep: the index is taken when it is the index of a step. *)
Definition goToStep (stepIndex : Z) (s : t) : bool * t :=
  if (0 <=? stepIndex) && (stepIndex <? Z.of_nat (length (executionSteps s)))
  then (true, mk (state s) (executionSteps s) stepIndex)
  else (false, s).

Definition goToFirstStep (s : t) : bool * t := goToStep 0 s.

Definition goToPreviousStep (s : t) : bool * t :=
  goToStep (currentStep s - 1) s.

Definition goToNextStep (s : t) : bool * t :=
  goToStep (currentStep s + 1) s.

Definition goToLastStep (s : t) : bool * t :=
  goToStep (Z.of_nat (length (executionSteps s)) - 1) s.

End Session.

Module TypeC.

(** The value of a variable: a number, here an integer, or a value of
    another type. *)
Inductive Value :=
| Number (n : Z)
| Other.

(** class TypeC *)
Record t := mk { type : string; value : Value }.

(** getSizeof *)
Definition getSizeof (c : t) : Z :=
  if String.eqb (type c) "int" then 4
  else if String.eqb (type c) "char" then 1
  else if String.eqb (type c) "float" then 4
  else if String.eqb (type c) "double" then 8
  else if String.eqb (type c) "pointer" then 8
  else 0.

(** Number.prototype.toString(2) on an integer: the binary digits of its
    magnitude, after a minus sign when it is negative. *)
Fixpoint binaryDigits (p : positive) (lower : string) : string :=
  match p with
  | xH => String "1" lower
  | xO p' => binaryDigits p' (String "0" lower)
  | xI p' => binaryDigits p' (String "1" lower)
  end.

Definition toString2 (n : Z) : string :=
  match n with
  | Z0 => "0"
  | Zpos p => binaryDigits p ""
  | Zneg p => String "-" (binaryDigits p "")
  end.

(** String.prototype.padStart with a filler of one character. *)
Fixpoint filler (n : nat) (c : ascii) (s : string) : string :=
  match n with
  | O => s
  | S n' => String c (filler n' c s)
  end.

Definition padStart (targetLength : nat) (c : ascii) (s : string) : string :=
  filler (targetLength - String.length s) c s.

(** getBinaryRepresentation: null when the value is no number. *)
Definition getBinaryRepresentation (c : t) : option string :=
  match value c with
  | Number n => Some (padStart 32 "0" (toString2 n))
  | Other => None
  end.

End TypeC.

Module TokenBase.

(** The object convertBase returns. *)
Record Conversion (Num : Type) := mkConversion {
  decimal : Num;
  hexadecimal : string;
  binary : string }.
Arguments mkConversion {Num} decimal hexadecimal binary.

Section ConvertBase.

(** The primitives convertBase calls: parseInt, Number.prototype.toString
    with a radix, and String.prototype.toUpperCase. What they compute
    plays no part in the choice convertBase makes. *)
Context {Num : Type}.
Variable parseInt : string → Z → Num.
Variable numberToString : Num → Z → string.
Variable toUpperCase : string → string.

(** Token.convertBase: null, unless the text of the token starts with one
    of the two prefixes. *)
Definition convertBase (token : Token.t) : option (Conversion Num) :=
  let value := Token.value token in
  if Js.startsWith value "0x" then
    Some (mkConversion (parseInt value 16) (toUpperCase value)
            (numberToString (parseInt value 16) 2))
  else if Js.startsWith value "0b" then
    Some (mkConversion (parseInt value 2)
            (toUpperCase (numberToString (parseInt value 2) 16)) value)
  else None.

End ConvertBase.

End TokenBase.

(** ** visualization.js: the two groups of memory addresses *)

Module Visualizer.

(** Array.prototype.sort with the comparator [parseInt(a) - parseInt(b)]
    on keys that are integers; the sort is stable. *)
Fixpoint insertAddress (a : Z) (sorted : list Z) : list Z :=
  match sorted with
  | [] => [a]
  | b :: rest => if a - b <=? 0 then a :: sorted else b :: insertAddress a rest
  end.

Definition sortAddresses (addresses : list Z) : list Z :=
  foldr insertAddress [] addresses.

(** Object.keys(this.appState.memory): the addresses that hold a cell.
    The order in which they are listed plays no part in what follows,
    since they are sorted. *)
Definition keys (memory : gmap Z MemCell.t) : list Z :=
  (map_to_list memory).*1.

(** filterStackAddresses *)
Definition filterStackAddresses (a : AppState.t) : list Z :=
  sortAddresses (List.filter (λ address, address <? 0x8000)
                   (keys (AppState.memory a))).

(** filterHeapAddresses *)
Definition filterHeapAddresses (a : AppState.t) : list Z :=
  sortAddresses (List.filter (λ address, 0x8000 <=? address)
                   (keys (AppState.memory a))).

End Visualizer.

(** ** event-handlers.js: running the pipeline *)

Module EventHandlers.

(** How executeCode ends: the steps are on display, the catch block
    shows the message of an error, or the parser is still running when
    the fuel of the model is used up. *)
Inductive Outcome :=
| Displayed (s : Session.t)
| ShowsError (message : string) (s : Session.t)
| Running.

(** executeCode, on the text of the editor. The calls that draw the
    state on the page (updateControls, the Visualizer, showError) are
    not modelled: the outcome is the state they are given. [now] is the
    time an error of the generator would be logged at. *)
Definition executeCode (fuel : nat) (now : Z) (codeInput : string)
    (s : Session.t) : Outcome :=
  (* appState.updateState({ code: appState.UIElements.codeInput.value }) *)
  let a := Session.state s in
  let s :=
    Session.mk
      (AppState.mk codeInput (AppState.tokens a) (AppState.ast a)
         (AppState.memory a) (AppState.stack a) (AppState.heap a)
         (AppState.consoleOutput a) (AppState.errors a))
      (Session.executionSteps s) (Session.currentStep s) in
  let s := Session.resetExecutionState s in
  let a := Session.state s in
  match Lexer.tokenize (AppState.code a) with
  | None => Running
  | Some tokens =>
      (* appState.updateState({ tokens }) *)
      let a :=
        AppState.mk (AppState.code a) tokens (AppState.ast a)
          (AppState.memory a) (AppState.stack a) (AppState.heap a)
          (AppState.consoleOutput a) (AppState.errors a) in
      match Parser.parse (AppState.tokens a) fuel with
      | Parser.Throw message =>
          ShowsError message
            (Session.mk a (Session.executionSteps s) (Session.currentStep s))
      | Parser.OutOfFuel => Running
      | Parser.Ok ast =>
          (* appState.updateState({ ast }) *)
          let a :=
            AppState.mk (AppState.code a) (AppState.tokens a) (Some ast)
              (AppState.memory a) (AppState.stack a) (AppState.heap a)
              (AppState.consoleOutput a) (AppState.errors a) in
          let '(executionSteps, a) :=
            Interpreter.generateExecutionSteps now a in
          (* appState.updateState({ executionSteps }) *)
          let s := Session.mk a executionSteps (Session.currentStep s) in
          (* goToFirstStep(appState) *)
          Displayed (Session.goToFirstStep s).2
      end
  end.

End EventHandlers.

(** * Properties of the pipeline *)

(** ** Facts about the string primitives *)

Lemma append_cons (c : ascii) (s t : string) :
  String c s +:+ t = String c (s +:+ t).
Proof. reflexivity. Qed.

Lemma append_empty (t : string) : "" +:+ t = t.
Proof. reflexivity. Qed.

Lemma startsWith_append (needle post : string) :
  Js.startsWith (needle +:+ post) needle = true.
Proof.
  unfold Js.startsWith.
  induction needle as [|c needle IH]; simpl.
  - by destruct post.
  - destruct (ascii_dec c c) as [_|Hc]; [exact IH | by destruct Hc].
Qed.

Lemma includes_startsWith (s needle : string) :
  Js.startsWith s needle = true → Js.includes s needle = true.
Proof. destruct s; simpl; by intros ->. Qed.

Lemma includes_append (pre needle post : string) :
  Js.includes (pre +:+ needle +:+ post) needle = true.
Proof.
  induction pre as [|c pre IH].
  - rewrite append_empty. apply includes_startsWith, startsWith_append.
  - rewrite append_cons. simpl. rewrite IH. apply orb_true_r.
Qed.

Lemma toLowerCase_append (s t : string) :
  Js.toLowerCase (s +:+ t) = Js.toLowerCase s +:+ Js.toLowerCase t.
Proof.
  induction s as [|c s IH]; [done|].
  rewrite append_cons. simpl. by rewrite IH, append_cons.
Qed.

(** A text that contains a lower-case needle still contains it after
    toLowerCase. *)
Lemma includes_toLowerCase (code pre needle post : string) :
  code = pre +:+ needle +:+ post →
  Js.toLowerCase needle = needle →
  Js.includes (Js.toLowerCase code) needle = true.
Proof.
  intros -> Hneedle.
  rewrite !toLowerCase_append, Hneedle.
  apply includes_append.
Qed.

(** ** The classifier *)

(** C3. A source text that contains both [malloc(] and [struct ] is
    classified as dynamic_allocation, never as structures: the test for
    malloc and free comes first in the chain of determineCodeType. *)
Theorem determineCodeType_malloc_before_struct (a : AppState.t) :
  (∃ pre post, AppState.code a = pre +:+ "malloc(" +:+ post) →
  (∃ pre post, AppState.code a = pre +:+ "struct " +:+ post) →
  Interpreter.determineCodeType a = "dynamic_allocation"
  ∧ Interpreter.determineCodeType a ≠ "structures".
Proof.
  intros (pre & post & Hmalloc) _.
  assert (Interpreter.determineCodeType a = "dynamic_allocation") as ->.
  { unfold Interpreter.determineCodeType.
    by rewrite (includes_toLowerCase _ _ _ _ Hmalloc eq_refl). }
  done.
Qed.

Lemma determineCodeType_malloc_before_struct_witness :
  let a := AppState.mk "struct node *p = malloc(sizeof(struct node));"
             [] None ∅ [] ∅ "" [] in
  Interpreter.determineCodeType a = "dynamic_allocation"
  ∧ Interpreter.determineCodeType a ≠ "structures".
Proof.
  apply determineCodeType_malloc_before_struct.
  - by exists "struct node *p = ", "sizeof(struct node));".
  - by exists "", "node *p = malloc(sizeof(struct node));".
Defined.

(** ** Reasoning about the commands of the trace generator *)

Import Interpreter.
Local Open Scope cmd_scope.

(** The steps a generator pushes when it is run on an empty state. *)
Definition emptyApp : AppState.t := AppState.mk "" [] None ∅ [] ∅ "" [].
Definition scriptOf (c : Cmd) : list ExecutionStep.t :=
  match c (mkSim [] emptyApp) with
  | Normal σ => steps σ
  | Throws _ σ => steps σ
  end.

(** What the generators never write: the source text, the tokens, the
    tree and the error log. *)
Definition sameSource (a a' : AppState.t) : Prop :=
  AppState.code a' = AppState.code a ∧ AppState.tokens a' = AppState.tokens a
  ∧ AppState.ast a' = AppState.ast a ∧ AppState.errors a' = AppState.errors a.

(** [wp c Q σ]: from [σ] the command [c] ends normally, in a state that
    satisfies [Q]. *)
Definition wp (c : Cmd) (Q : Sim → Prop) (σ : Sim) : Prop :=
  ∃ σ', c σ = Normal σ' ∧ Q σ'.

Section Rules.
Context (Q : Sim → Prop) (l : list ExecutionStep.t).
Context (code : string) (toks : list Token.t) (ast : option ASTNode.t)
  (mem : gmap Z MemCell.t) (stk : list StackFrame.t) (hp : gmap Z HeapBlock.t)
  (out : string) (errs : list ErrorEntry.t).
Local Notation "'st' m s h o" := (mkSim l (AppState.mk code toks ast m s h o errs)) (only parsing, at level 10, m, s, h, o at level 9).

Lemma wp_andThen c1 c2 σ : wp c1 (wp c2 Q) σ → wp (c1 ;; c2) Q σ.
Proof. intros (σ1 & H1 & σ2 & H2 & HQ). exists σ2. unfold andThen. by rewrite H1. Qed.

Lemma wp_skip σ : Q σ → wp skip Q σ.
Proof. intros HQ. by eexists. Qed.

Lemma wp_push s a : Q (mkSim (l ++ [s]) a) → wp (push s) Q (mkSim l a).
Proof. intros HQ. by eexists. Qed.

Lemma wp_withState k a : wp (k a) Q (mkSim l a) → wp (withState k) Q (mkSim l a).
Proof. done. Qed.

Lemma wp_update_memory f :
  Q (st (f mem) stk hp out) → wp (update (AppState.set_memory f)) Q (st mem stk hp out).
Proof. intros HQ. by eexists. Qed.

Lemma wp_update_heap f :
  Q (st mem stk (f hp) out) → wp (update (AppState.set_heap f)) Q (st mem stk hp out).
Proof. intros HQ. by eexists. Qed.

Lemma wp_writeMemory a c :
  Q (st (<[a := c]> mem) stk hp out) → wp (writeMemory a c) Q (st mem stk hp out).
Proof. intros HQ. by eexists. Qed.

Lemma wp_onFrame i f :
  Q (st mem (alter f i stk) hp out) → wp (onFrame i f) Q (st mem stk hp out).
Proof. intros HQ. by eexists. Qed.

Lemma wp_print t :
  Q (st mem stk hp (out +:+ t)) → wp (print t) Q (st mem stk hp out).
Proof. intros HQ. by eexists. Qed.

Lemma wp_pushFrame fr k :
  wp (k (length stk)) Q (st mem (stk ++ [fr]) hp out) →
  wp (pushFrame fr k) Q (st mem stk hp out).
Proof. done. Qed.

Lemma wp_setMemoryValue a v c :
  mem !! a = Some c →
  Q (st (<[a := MemCell.mk v (MemCell.name c) (MemCell.type c)]> mem) stk hp out) →
  wp (setMemoryValue a v) Q (st mem stk hp out).
Proof. intros Hc HQ. unfold wp, setMemoryValue; simpl. rewrite Hc. by eexists. Qed.

Lemma wp_setHeapContent a c b :
  hp !! a = Some b →
  Q (st mem stk (<[a := HeapBlock.mk (HeapBlock.address b) (HeapBlock.size b) c (HeapBlock.freed b)]> hp) out) →
  wp (setHeapContent a c) Q (st mem stk hp out).
Proof. intros Hc HQ. unfold wp, setHeapContent; simpl. rewrite Hc. by eexists. Qed.

Lemma wp_setHeapFreed a b :
  hp !! a = Some b →
  Q (st mem stk (<[a := HeapBlock.mk (HeapBlock.address b) (HeapBlock.size b) (HeapBlock.content b) true]> hp) out) →
  wp (setHeapFreed a) Q (st mem stk hp out).
Proof. intros Hc HQ. unfold wp, setHeapFreed; simpl. rewrite Hc. by eexists. Qed.

Lemma wp_forEach_nil {A} (body : A → Cmd) σ : Q σ → wp (forEach [] body) Q σ.
Proof. apply wp_skip. Qed.

Lemma wp_forEach_cons {A} x xs (body : A → Cmd) σ :
  wp (body x) (wp (forEach xs body) Q) σ → wp (forEach (x :: xs) body) Q σ.
Proof. apply wp_andThen. Qed.

Lemma wp_done l0 a0 script a :
  l = l0 ++ script → sameSource a0 a →
  (λ σ', steps σ' = l0 ++ script ∧ sameSource a0 (app σ')) (mkSim l a).
Proof. done. Qed.
End Rules.

Lemma seqZ_0_5 : seqZ 0 5 = [0; 1; 2; 3; 4].
Proof. reflexivity. Qed.

Ltac solve_lookup :=
  repeat (first [ rewrite lookup_insert_eq | rewrite lookup_insert_ne by (vm_compute; congruence) ]); reflexivity.
Ltac wp_step :=
  lazymatch goal with
  | |- wp (andThen _ _) _ _ => apply wp_andThen
  | |- wp (push _) _ _ => apply wp_push
  | |- wp skip _ _ => apply wp_skip
  | |- wp (forEach (_ :: _) _) _ _ => apply wp_forEach_cons; cbv beta zeta
  | |- wp (forEach [] _) _ _ => apply wp_forEach_nil
  | |- wp (forEach (seqZ 0 5) _) _ _ => rewrite seqZ_0_5
  | |- wp (setMemoryValue _ _) _ _ => eapply wp_setMemoryValue; [ solve_lookup | ]
  | |- wp (setHeapContent _ _) _ _ => eapply wp_setHeapContent; [ solve_lookup | ]
  | |- wp (setHeapFreed _) _ _ => eapply wp_setHeapFreed; [ solve_lookup | ]
  | |- wp (writeMemory _ _) _ _ => apply wp_writeMemory
  | |- wp (onFrame _ _) _ _ => apply wp_onFrame
  | |- wp (print _) _ _ => apply wp_print
  | |- wp (pushFrame _ _) _ _ => apply wp_pushFrame; cbv beta zeta
  | |- wp (withState _) _ _ => apply wp_withState; cbv beta zeta
  | |- wp (update (AppState.set_memory _)) _ _ => apply wp_update_memory
  | |- wp (update (AppState.set_heap _)) _ _ => apply wp_update_heap
  end.

Ltac run_script :=
  intros [l [code toks ast mem stk hp out errs]];
  cbv zeta;
  repeat wp_step;
  apply wp_done; [ rewrite <- !app_assoc; f_equal; vm_compute; reflexivity | done ].

Definition emits (c : Cmd) (script : list ExecutionStep.t) : Prop :=
  ∀ σ, wp c (λ σ', steps σ' = steps σ ++ script ∧ sameSource (app σ) (app σ')) σ.


(** The three generators the class defines never throw, whatever the
    state they start from, and push a fixed script. *)
Lemma emits_basic :
  emits generateStepsForVariablesAndPointers
    (scriptOf generateStepsForVariablesAndPointers).
Proof. unfold emits, generateStepsForVariablesAndPointers at 1. run_script. Qed.

Lemma emits_arrays :
  emits generateStepsForArraysAndPointers
    (scriptOf generateStepsForArraysAndPointers).
Proof. unfold emits, generateStepsForArraysAndPointers at 1. run_script. Qed.

Lemma emits_dynamic :
  emits generateStepsForDynamicAllocation
    (scriptOf generateStepsForDynamicAllocation).
Proof. unfold emits, generateStepsForDynamicAllocation at 1. run_script. Qed.

(** The generic generator ends normally too; what it pushes depends on
    the tree. *)
Lemma forEach_pushes {A} (xs : list A) (f : A → ExecutionStep.t) (t : A → string)
    (Q : Sim → Prop) l code toks ast mem stk hp out errs :
  (∀ out', Q (mkSim (l ++ (f <$> xs))
                (AppState.mk code toks ast mem stk hp out' errs))) →
  wp (forEach xs (λ x, push (f x) ;; print (t x))) Q
     (mkSim l (AppState.mk code toks ast mem stk hp out errs)).
Proof.
  revert l out. induction xs as [|x xs IH]; intros l out HQ.
  - apply wp_forEach_nil. rewrite app_nil_r in HQ. apply HQ.
  - apply wp_forEach_cons, wp_andThen, wp_push, wp_print, IH.
    intros out'. rewrite <- app_assoc. apply HQ.
Qed.

Lemma fallback_completes σ :
  wp generateStepsBasedOnAST
     (λ σ', (∃ script, steps σ' = steps σ ++ script)
            ∧ sameSource (app σ) (app σ')) σ.
Proof.
  destruct σ as [l [code toks ast mem stk hp out errs]].
  unfold generateStepsBasedOnAST. apply wp_withState. cbv beta zeta.
  match goal with |- wp (match ?m with _ => _ end) _ _ => destruct m end.
  - apply wp_pushFrame, wp_andThen, wp_push. cbv zeta.
    apply wp_andThen, forEach_pushes. intros out'.
    apply wp_withState, wp_push. simpl. split; [|done].
    rewrite <- !app_assoc. by eexists.
  - apply wp_push. simpl. split; [by eexists | done].
Qed.

(** ** The wrapper of the generated list (C1, C2) *)

(** The generators the switch calls and the class does not define. *)
Definition undefinedGenerators : list string :=
  ["structures"; "recursion"; "file_io"; "switch_case"; "preprocessor";
   "bitwise"].

Definition startsWithInitialization (trace : list ExecutionStep.t) : Prop :=
  ∃ first rest,
    trace = first :: rest ∧ ExecutionStep.type first = "initialization".

Definition endsWithFinalization (lastLine : Z) (trace : list ExecutionStep.t)
    : Prop :=
  ∃ front final,
    trace = front ++ [final]
    ∧ ExecutionStep.type final = "finalization"
    ∧ ExecutionStep.line final = lastLine.

(** The value of findLastLine: the greatest line of a token, or 1 when
    there is no token. *)
Definition greatestTokenLine (a : AppState.t) (lastLine : Z) : Prop :=
  match AppState.tokens a with
  | [] => lastLine = 1
  | _ :: _ =>
      (∀ t, t ∈ AppState.tokens a → Token.line t ≤ lastLine)
      ∧ (∃ t, t ∈ AppState.tokens a ∧ Token.line t = lastLine)
  end.

Lemma fold_left_max_bound (lines : list Z) (l : Z) :
  l ≤ fold_left Z.max lines l
  ∧ (∀ x, x ∈ lines → x ≤ fold_left Z.max lines l)
  ∧ (fold_left Z.max lines l = l ∨ fold_left Z.max lines l ∈ lines).
Proof.
  revert l. induction lines as [|x lines IH]; intros l; simpl.
  - split; [lia|]. split; [|by left]. intros x Hx. by apply elem_of_nil in Hx.
  - destruct (IH (Z.max l x)) as (H1 & H2 & H3).
    split; [lia|]. split.
    + intros y [->|Hy]%elem_of_cons; [lia | by apply H2].
    + destruct H3 as [H3|H3].
      * destruct (Z.max_spec l x) as [[_ Hm]|[_ Hm]]; rewrite H3, Hm.
        -- right. constructor.
        -- by left.
      * right. by constructor.
Qed.

Lemma findLastLine_greatest (a : AppState.t) :
  greatestTokenLine a (findLastLine a).
Proof.
  unfold greatestTokenLine, findLastLine.
  destruct (AppState.tokens a) as [|t ts] eqn:Htokens; [done|].
  rewrite fmap_cons.
  destruct (fold_left_max_bound (Token.line <$> ts) (Token.line t))
    as (H1 & H2 & H3).
  split.
  - intros t' [->|Ht']%elem_of_cons; [done|].
    apply H2. by apply list_elem_of_fmap_2.
  - destruct H3 as [H3|H3].
    + exists t. split; [constructor | done].
    + apply list_elem_of_fmap in H3 as (t' & Heq & Ht').
      exists t'. split; [by constructor | done].
Qed.

(** The switch on the three categories the class implements and on the
    generic branch. *)
Lemma generateStepsFor_completes (codeType : string) (σ : Sim) :
  codeType ∉ undefinedGenerators →
  wp (generateStepsFor codeType)
     (λ σ', (∃ script, steps σ' = steps σ ++ script)
            ∧ sameSource (app σ) (app σ')) σ.
Proof.
  intros Hdefined. unfold generateStepsFor.
  assert (∀ script σ',
    steps σ' = steps σ ++ script ∧ sameSource (app σ) (app σ') →
    (∃ script, steps σ' = steps σ ++ script) ∧ sameSource (app σ) (app σ'))
    as Hweaken by (intros ?? [??]; eauto).
  destruct (String.eqb_spec codeType "basic") as [_|_].
  { destruct (emits_basic σ) as (σ' & ? & ?). exists σ'. eauto. }
  destruct (String.eqb_spec codeType "arrays") as [_|_].
  { destruct (emits_arrays σ) as (σ' & ? & ?). exists σ'. eauto. }
  destruct (String.eqb_spec codeType "dynamic_allocation") as [_|_].
  { destruct (emits_dynamic σ) as (σ' & ? & ?). exists σ'. eauto. }
  repeat
    match goal with
    | |- context [String.eqb codeType ?s] =>
        destruct (String.eqb_spec codeType s) as [->|_];
        [ exfalso; apply Hdefined; unfold undefinedGenerators;
          rewrite !elem_of_cons; tauto | ]
    end.
  apply fallback_completes.
Qed.

(** The statements that follow the classification, when the generator
    does not throw. *)
Lemma stepsOfType_completes (codeType : string) (a : AppState.t) :
  codeType ∉ undefinedGenerators →
  ∃ script a',
    stepsOfType codeType (mkSim [] a)
    = Normal (mkSim (initialization :: script
                     ++ [finalization (findLastLine a)]) a')
    ∧ sameSource a a'.
Proof.
  intros Hdefined.
  destruct (generateStepsFor_completes codeType (mkSim [initialization] a)
              Hdefined) as ([l a'] & Hrun & (script & Hsteps) & Hsame).
  simpl in Hsteps, Hsame. subst l.
  exists script, a'. split; [|done].
  unfold stepsOfType, andThen, push at 1. simpl.
  rewrite Hrun. unfold withState, push. simpl.
  destruct Hsame as (_ & Htokens & _).
  unfold findLastLine. by rewrite Htokens.
Qed.

(** A call of one of the six missing generators throws, with the
    initialization step pushed and nothing else changed. *)
Lemma stepsOfType_throws (codeType : string) (a : AppState.t) :
  codeType ∈ undefinedGenerators →
  ∃ method,
    stepsOfType codeType (mkSim [] a)
    = Throws (TypeError ("this." +:+ method +:+ " is not a function"))
        (mkSim [initialization] a).
Proof.
  unfold undefinedGenerators. rewrite !elem_of_cons, elem_of_nil.
  intros [->|[->|[->|[->|[->|[->|[]]]]]]]; eexists; reflexivity.
Qed.

Lemma undefinedGenerators_dec (codeType : string) :
  codeType ∈ undefinedGenerators ∨ codeType ∉ undefinedGenerators.
Proof. destruct (decide (codeType ∈ undefinedGenerators)); auto. Qed.

(** The state of the counterexamples: a program that declares a
    structure, with the tokens of its first line. *)
Definition structProgram : AppState.t :=
  AppState.mk "struct point p;"
    [Token.mk "keyword" "struct" 1 1; Token.mk "identifier" "point" 1 8;
     Token.mk "identifier" "p" 1 14; Token.mk "punctuation" ";" 1 15]
    None ∅ [] ∅ "" [].

(** C1, as stated, fails: on the program [struct point p;] the
    classification is structures, the call of the generator throws, and
    the list returned is the initialization step alone, which is no
    finalization step. *)
Lemma generateExecutionSteps_wrapped_counterexample :
  determineCodeType structProgram = "structures"
  ∧ (generateExecutionSteps 0 structProgram).1 = [initialization]
  ∧ ¬ endsWithFinalization (findLastLine structProgram)
        (generateExecutionSteps 0 structProgram).1.
Proof.
  split; [reflexivity|]. split; [reflexivity|].
  intros (front & final & Heq & Htype & _).
  change (generateExecutionSteps 0 structProgram).1
    with ([] ++ [initialization]) in Heq.
  apply app_inj_tail in Heq as [_ <-]. discriminate Htype.
Qed.

(** C1, amended. For every state and every classification whose
    generator the class defines (basic, arrays, dynamic_allocation) and
    for the generic branch, the try block ends normally and the list
    starts with an initialization step and ends with a finalization step
    whose line is the value of findLastLine: the greatest line of a
    token, or 1 when there is no token; that list is what
    generateExecutionSteps returns when the classification is the one of
    the state. When the try block throws (the error path), the list
    returned is the one built so far: it starts with the initialization
    step and holds no finalization step. *)
Theorem generateExecutionSteps_wrapped (now : Z) (a : AppState.t)
    (codeType : string) :
  codeType ∉ undefinedGenerators →
  (∃ σ,
     stepsOfType codeType (mkSim [] a) = Normal σ
     ∧ startsWithInitialization (steps σ)
     ∧ endsWithFinalization (findLastLine a) (steps σ)
     ∧ greatestTokenLine a (findLastLine a)
     ∧ (determineCodeType a = codeType →
        generateExecutionSteps now a = (steps σ, app σ)))
  ∧ (∀ error σ,
       tryBlock (mkSim [] a) = Throws error σ →
       (generateExecutionSteps now a).1 = steps σ
       ∧ startsWithInitialization (steps σ)
       ∧ Forall (λ s, ExecutionStep.type s ≠ "finalization") (steps σ)).
Proof.
  intros Hdefined. split.
  - destruct (stepsOfType_completes codeType a Hdefined)
      as (script & a' & Hrun & Hsame).
    eexists. split; [exact Hrun|]. simpl.
    split; [by eexists _, _|].
    split; [by exists (initialization :: script), (finalization (findLastLine a))|].
    split; [apply findLastLine_greatest|].
    intros Htype. unfold generateExecutionSteps, tryBlock, withState.
    simpl. by rewrite Htype, Hrun.
  - intros error σ Hthrow.
    unfold generateExecutionSteps. rewrite Hthrow. simpl.
    split; [done|].
    unfold tryBlock, withState in Hthrow. simpl in Hthrow.
    destruct (undefinedGenerators_dec (determineCodeType a)) as [Hin|Hnotin].
    + destruct (stepsOfType_throws _ a Hin) as (method & Hrun).
      rewrite Hrun in Hthrow. injection Hthrow as _ <-. simpl.
      split; [by eexists _, _|].
      constructor; [discriminate | constructor].
    + destruct (stepsOfType_completes _ a Hnotin) as (? & ? & Hrun & _).
      by rewrite Hrun in Hthrow.
Qed.

Lemma generateExecutionSteps_wrapped_witness :
  let a := AppState.mk "int x = 10;"
             [Token.mk "keyword" "int" 1 1; Token.mk "punctuation" ";" 3 1]
             None ∅ [] ∅ "" [] in
("basic" ∉ undefinedGenerators)
  ∧ (∃ σ,
       stepsOfType "basic" (mkSim [] a) = Normal σ
       ∧ endsWithFinalization 3 (steps σ)).
Proof.
  intros a.
  assert ("basic" ∉ undefinedGenerators) as Hdefined.
  { unfold undefinedGenerators. rewrite !elem_of_cons, elem_of_nil.
    intros [|[|[|[|[|[|[]]]]]]]; discriminate. }
  split; [exact Hdefined|].
  destruct (generateExecutionSteps_wrapped 0 a "basic" Hdefined)
    as [(σ & Hrun & _ & Hend & _) _].
  exists σ. split; [exact Hrun | exact Hend].
Defined.

(** C2, as stated, fails: on the program [struct point p;] the try block
    throws and the catch block adds one entry to the error log, but no
    step of kind error is in the list returned, which holds the
    initialization step alone. *)
Lemma generateExecutionSteps_catches_counterexample :
  tryBlock (mkSim [] structProgram)
  = Throws (TypeError "this.generateStepsForStructures is not a function")
      (mkSim [initialization] structProgram)
  ∧ AppState.errors (generateExecutionSteps 0 structProgram).2
    = [ErrorEntry.mk "this.generateStepsForStructures is not a function"
         "error" 0]
  ∧ Forall (λ s, ExecutionStep.type s ≠ "error")
      (generateExecutionSteps 0 structProgram).1.
Proof.
  split; [reflexivity|]. split; [reflexivity|].
  change (generateExecutionSteps 0 structProgram).1 with [initialization].
  constructor; [discriminate | constructor].
Qed.

(** C2, amended. generateExecutionSteps is a function of the state: the
    completion of the try block never leaves it. When the try block
    throws, the list returned is the list of the steps pushed before the
    failure, to which no step of kind error is added, and exactly one
    entry, with the message of the error, is appended to the error log;
    when the try block ends normally the error log is unchanged. *)
Theorem generateExecutionSteps_catches (now : Z) (a : AppState.t) :
  match tryBlock (mkSim [] a) with
  | Normal σ =>
      generateExecutionSteps now a = (steps σ, app σ)
      ∧ AppState.errors (generateExecutionSteps now a).2 = AppState.errors a
  | Throws error σ =>
      generateExecutionSteps now a
      = (steps σ, AppState.addError now (message error) (app σ))
      ∧ AppState.errors (generateExecutionSteps now a).2
        = AppState.errors a ++ [ErrorEntry.mk (message error) "error" now]
      ∧ Forall (λ s, ExecutionStep.type s ≠ "error")
          (generateExecutionSteps now a).1
  end.
Proof.
  unfold generateExecutionSteps.
  assert (tryBlock (mkSim [] a)
          = stepsOfType (determineCodeType a) (mkSim [] a)) as Htry
    by reflexivity.
  destruct (undefinedGenerators_dec (determineCodeType a)) as [Hin|Hnotin].
  - destruct (stepsOfType_throws _ a Hin) as (method & Hrun).
    rewrite Htry, Hrun. simpl. split; [done|]. split; [done|].
    constructor; [discriminate | constructor].
  - destruct (stepsOfType_completes _ a Hnotin)
      as (script & a' & Hrun & _ & _ & _ & Herrors).
    rewrite Htry, Hrun. simpl. by split.
Qed.

(** ** The address partition and the heap blocks (C6, C7) *)

(** The classifier returns one of nine names. *)
Lemma determineCodeType_range (a : AppState.t) :
  determineCodeType a ∈
    ["dynamic_allocation"; "structures"; "file_io"; "switch_case";
     "preprocessor"; "bitwise"; "recursion"; "arrays"; "basic"].
Proof.
  unfold determineCodeType.
  repeat match goal with
         | |- context [if ?b then _ else _] => destruct b
         end;
    rewrite !elem_of_cons; tauto.
Qed.

(** The lists generateExecutionSteps can return. *)
Lemma generateExecutionSteps_cases (now : Z) (a : AppState.t) :
  (generateExecutionSteps now a).1 = [initialization]
  ∨ ∃ script,
      script ∈ [scriptOf generateStepsForDynamicAllocation;
                scriptOf generateStepsForArraysAndPointers;
                scriptOf generateStepsForVariablesAndPointers]
      ∧ (generateExecutionSteps now a).1
        = initialization :: script ++ [finalization (findLastLine a)].
Proof.
  assert (∀ codeType script,
    determineCodeType a = codeType →
    emits (generateStepsFor codeType) script →
    (generateExecutionSteps now a).1
    = initialization :: script ++ [finalization (findLastLine a)]) as Hemits.
  { intros codeType script Htype Hemits.
    destruct (Hemits (mkSim [initialization] a))
      as ([l a'] & Hrun & Hsteps & _ & Htokens & _).
    simpl in Hsteps, Htokens. subst l.
    unfold generateExecutionSteps, tryBlock, withState. simpl.
    rewrite Htype. unfold stepsOfType, andThen, push at 1. simpl.
    rewrite Hrun. unfold withState, push. simpl.
    unfold findLastLine. by rewrite Htokens. }
  assert (determineCodeType a ∈ undefinedGenerators →
    (generateExecutionSteps now a).1 = [initialization]) as Hthrows.
  { intros Hin. destruct (stepsOfType_throws _ a Hin) as (method & Hrun).
    unfold generateExecutionSteps, tryBlock, withState. simpl.
    by rewrite Hrun. }
  pose proof (determineCodeType_range a) as Hrange.
  rewrite !elem_of_cons, elem_of_nil in Hrange.
  destruct Hrange as [H|[H|[H|[H|[H|[H|[H|[H|[H|[]]]]]]]]]].
  - right. eexists. split; [|apply (Hemits _ _ H emits_dynamic)].
    rewrite !elem_of_cons; tauto.
  - left. apply Hthrows. rewrite H. unfold undefinedGenerators.
    rewrite !elem_of_cons; tauto.
  - left. apply Hthrows. rewrite H. unfold undefinedGenerators.
    rewrite !elem_of_cons; tauto.
  - left. apply Hthrows. rewrite H. unfold undefinedGenerators.
    rewrite !elem_of_cons; tauto.
  - left. apply Hthrows. rewrite H. unfold undefinedGenerators.
    rewrite !elem_of_cons; tauto.
  - left. apply Hthrows. rewrite H. unfold undefinedGenerators.
    rewrite !elem_of_cons; tauto.
  - left. apply Hthrows. rewrite H. unfold undefinedGenerators.
    rewrite !elem_of_cons; tauto.
  - right. eexists. split; [|apply (Hemits _ _ H emits_arrays)].
    rewrite !elem_of_cons; tauto.
  - right. eexists. split; [|apply (Hemits _ _ H emits_basic)].
    rewrite !elem_of_cons; tauto.
Qed.

(** The variables of the stack frames a trace records: the payloads of
    the add and update entries of its stack sub-maps. *)
Definition stackVariablesOf (c : StackChange) : list StackVar.t :=
  match c with
  | SAdd v | SUpdate v => [v]
  | SRemove => []
  end.

Definition stackVariables (trace : list ExecutionStep.t) : list StackVar.t :=
  s ← trace;
  entry ← map_to_list (Changes.stack (ExecutionStep.changes s));
  stackVariablesOf entry.2.

(** The heap blocks a trace records: the entries of its heap sub-maps. *)
Definition heapBlocks (trace : list ExecutionStep.t) : list HeapDelta.t :=
  s ← trace;
  (map_to_list (Changes.heap (ExecutionStep.changes s))).*2.

(** An address lies in a block when it is one of the [size] addresses
    from the address of the block on. *)
Definition inBlock (address : Z) (block : HeapDelta.t) : bool :=
  (HeapDelta.address block <=? address)
  && (address <? HeapDelta.address block + HeapDelta.size block).

Definition inHeapBlock (blocks : list HeapDelta.t) (address : Z) : bool :=
  existsb (inBlock address) blocks.

(** The partition of the addresses in one step of a trace. The keys of
    the heap sub-map are at or above the heap base, and each is the
    address of its block. The address of a variable added to or updated
    in a stack frame is below the base. A memory cell is a cell of the
    stack when it bears the name of such a variable, or when its address
    lies in no heap block of the trace (which is the case of the elements
    of an array of the stack): the key of every cell of the stack is
    below the base, and the key of every cell in a heap block is at or
    above it. *)
Definition heapKeysAtOrAboveBase (s : ExecutionStep.t) : Prop :=
  map_Forall
    (λ address block, heapBase ≤ address ∧ HeapDelta.address block = address)
    (Changes.heap (ExecutionStep.changes s)).

Definition stackAddressesBelowBase (s : ExecutionStep.t) : Prop :=
  map_Forall
    (λ _ c, Forall (λ v, StackVar.address v < heapBase) (stackVariablesOf c))
    (Changes.stack (ExecutionStep.changes s)).

Definition stackCell (names : list string) (blocks : list HeapDelta.t)
    (address : Z) (cell : MemCell.t) : Prop :=
  MemCell.name cell ∈ names ∨ inHeapBlock blocks address = false.

Definition stackCellsBelowBase (names : list string)
    (blocks : list HeapDelta.t) (s : ExecutionStep.t) : Prop :=
  map_Forall
    (λ address cell, stackCell names blocks address cell → address < heapBase)
    (Changes.memory (ExecutionStep.changes s)).

Definition heapCellsAtOrAboveBase (blocks : list HeapDelta.t)
    (s : ExecutionStep.t) : Prop :=
  map_Forall
    (λ address _, inHeapBlock blocks address = true → heapBase ≤ address)
    (Changes.memory (ExecutionStep.changes s)).

Definition addressesPartitioned (trace : list ExecutionStep.t) : Prop :=
  Forall
    (λ s,
       heapKeysAtOrAboveBase s
       ∧ stackAddressesBelowBase s
       ∧ stackCellsBelowBase (StackVar.name <$> stackVariables trace)
           (heapBlocks trace) s
       ∧ heapCellsAtOrAboveBase (heapBlocks trace) s)
    trace.

#[local] Instance addressesPartitioned_dec (trace : list ExecutionStep.t) :
  Decision (addressesPartitioned trace).
Proof.
  unfold addressesPartitioned, heapKeysAtOrAboveBase, stackAddressesBelowBase,
    stackCellsBelowBase, heapCellsAtOrAboveBase, stackCell.
  apply _.
Defined.

(** The partition is violated by a trace that puts an element of an
    array of the stack at the heap base. *)
Lemma addressesPartitioned_misplaced :
  ¬ addressesPartitioned
      [step "declaration" 5 "Declaration of array numeros"
         (Changes.mk {[ heapBase := MemCell.mk 10 "numeros[0]" "int" ]}
            {[ "main" := SAdd (StackVar.mk "numeros" 0x1000 0x1000 "int[5]") ]}
            ∅ None)].
Proof.
  apply (bool_decide_unpack _). by vm_compute.
Qed.

(** C6. In every list generateExecutionSteps returns, the keys of the
    heap sub-maps are at or above the heap base 0x8000, and the
    addresses of the stack variables are strictly below it: in the stack
    sub-maps, and in the memory sub-maps the key of every cell that bears
    the name of a stack variable and of every cell outside the heap
    blocks, the elements of the array numeros among them. The cells of
    the memory sub-maps inside a heap block are at or above the base. *)
Theorem generateExecutionSteps_addresses_partitioned (now : Z)
    (a : AppState.t) :
  heapBase = 0x8000
  ∧ addressesPartitioned (generateExecutionSteps now a).1.
Proof.
  split; [reflexivity|].
  destruct (generateExecutionSteps_cases now a) as [->|(script & Hin & ->)].
  - apply (bool_decide_unpack _). by vm_compute.
  - generalize (findLastLine a). intros lastLine.
    rewrite !elem_of_cons, elem_of_nil in Hin.
    destruct Hin as [->|[->|[->|[]]]];
      apply (bool_decide_unpack _); by vm_compute.
Qed.

(** A step does not mark a heap address as not freed. *)
Definition keepsFreed (address : Z) (s : ExecutionStep.t) : Prop :=
  ∀ h,
    Changes.heap (ExecutionStep.changes s) !! address = Some h →
    HeapDelta.freed h ≠ false.

#[local] Instance keepsFreed_dec (address : Z) (s : ExecutionStep.t) :
  Decision (keepsFreed address s).
Proof.
  unfold keepsFreed.
  destruct (Changes.heap (ExecutionStep.changes s) !! address) as [h|].
  - destruct (HeapDelta.freed h) eqn:Hfreed.
    + left. intros h' [= <-]. by rewrite Hfreed.
    + right. intros Hkeeps. by apply (Hkeeps h).
  - left. intros h' [=].
Defined.

(** No step un-frees an address that an earlier step of the list marks
    as freed. *)
Fixpoint neverUnfreed (trace : list ExecutionStep.t) : Prop :=
  match trace with
  | [] => True
  | s :: later =>
      map_Forall
        (λ address h,
           HeapDelta.freed h = true → Forall (keepsFreed address) later)
        (Changes.heap (ExecutionStep.changes s))
      ∧ neverUnfreed later
  end.

#[local] Instance neverUnfreed_dec (trace : list ExecutionStep.t) :
  Decision (neverUnfreed trace).
Proof. induction trace; simpl; apply _. Defined.

Lemma neverUnfreed_later (front later : list ExecutionStep.t)
    (s : ExecutionStep.t) (address : Z) (h : HeapDelta.t) :
  neverUnfreed (front ++ s :: later) →
  Changes.heap (ExecutionStep.changes s) !! address = Some h →
  HeapDelta.freed h = true →
  Forall (keepsFreed address) later.
Proof.
  induction front as [|s0 front IH]; simpl.
  - intros [Hs _] Hlookup Hfreed. by apply (Hs address h).
  - intros [_ Hlater]. by apply IH.
Qed.

Lemma generateExecutionSteps_neverUnfreed (now : Z) (a : AppState.t) :
  neverUnfreed (generateExecutionSteps now a).1.
Proof.
  destruct (generateExecutionSteps_cases now a) as [->|(script & Hin & ->)].
  - apply (bool_decide_unpack _). by vm_compute.
  - generalize (findLastLine a). intros lastLine.
    rewrite !elem_of_cons, elem_of_nil in Hin.
    destruct Hin as [->|[->|[->|[]]]];
      apply (bool_decide_unpack _); by vm_compute.
Qed.

(** C7. In a list generateExecutionSteps returns, once the heap sub-map
    of a step marks an address as freed, the heap sub-map of no later
    step holds that address with freed: false. *)
Theorem generateExecutionSteps_freed_stays_freed (now : Z) (a : AppState.t)
    (front later : list ExecutionStep.t) (s : ExecutionStep.t)
    (address : Z) (h : HeapDelta.t) :
  (generateExecutionSteps now a).1 = front ++ s :: later →
  Changes.heap (ExecutionStep.changes s) !! address = Some h →
  HeapDelta.freed h = true →
  Forall (keepsFreed address) later.
Proof.
  intros Htrace Hlookup Hfreed.
  apply (neverUnfreed_later front later s address h); [|done..].
  rewrite <- Htrace. apply generateExecutionSteps_neverUnfreed.
Qed.

(** The state of a program that allocates and frees a block. *)
Definition mallocProgram : AppState.t :=
  AppState.mk "int *ptr = malloc(5 * sizeof(int)); free(ptr);"
    [Token.mk "keyword" "int" 1 1; Token.mk "punctuation" ";" 1 46]
    None ∅ [] ∅ "" [].

Lemma generateExecutionSteps_freed_stays_freed_witness :
  let trace := (generateExecutionSteps 0 mallocProgram).1 in
  Forall (keepsFreed 0x8000) (drop 16 trace).
Proof.
  intros trace.
  apply (generateExecutionSteps_freed_stays_freed 0 mallocProgram
           (take 15 trace) (drop 16 trace)
           (step "call" 25 "Free function call to release allocated memory"
              (Changes.mk ∅ ∅ {[ 0x8000 := HeapDelta.mk 0x8000 20 true ]} None))
           0x8000 (HeapDelta.mk 0x8000 20 true)).
  - vm_compute. reflexivity.
  - reflexivity.
  - reflexivity.
Defined.

(** ** The parser (C10, C5, C4) *)

(** C10. On the empty token list parse throws the error No tokens to
    parse: it returns no tree, although parseProgram itself, run on no
    token, would return the bare program node. *)
Theorem parse_no_tokens (fuel : nat) :
  Parser.parse [] fuel = Parser.Throw "No tokens to parse"
  ∧ (∀ root, Parser.parse [] fuel ≠ Parser.Ok root)
  ∧ Parser.parseProgram [] (S fuel) 0%nat
    = Parser.Ok (ASTNode.new "program" None, 0%nat).
Proof.
  split; [reflexivity|]. split; [|reflexivity].
  intros root. discriminate.
Qed.

Import Parser.

(** The tokens of the expressions of C5. *)
Definition identifierToken (name : string) (line column : Z) : Token.t :=
  Token.mk "identifier" name line column.

Definition operatorToken (operator : string) (line column : Z) : Token.t :=
  Token.mk "operator" operator line column.

Definition identifierNode (name : string) : ASTNode.t :=
  ASTNode.new "identifier" (Some name).

(** What may follow an expression for its parse to stop there: nothing,
    or a token that is no operator and opens neither a call nor an
    index. *)
Definition endsExpression (rest : list Token.t) : Prop :=
  match rest with
  | [] => True
  | t :: _ =>
      Token.type t ≠ "operator" ∧ Token.value t ≠ "(" ∧ Token.value t ≠ "["
  end.

(** The tokens of [a op1 b op2 c], at any positions. *)
Definition chain (a op1 b op2 c : string) (positions : list (Z * Z))
    (rest : list Token.t) : list Token.t :=
  let at_ (i : nat) := default (0, 0) (positions !! i) in
  [identifierToken a (at_ 0%nat).1 (at_ 0%nat).2;
   operatorToken op1 (at_ 1%nat).1 (at_ 1%nat).2;
   identifierToken b (at_ 2%nat).1 (at_ 2%nat).2;
   operatorToken op2 (at_ 3%nat).1 (at_ 3%nat).2;
   identifierToken c (at_ 4%nat).1 (at_ 4%nat).2] ++ rest.

#[local] Arguments getCurrentToken : simpl never.
#[local] Arguments checkType : simpl never.
#[local] Arguments checkValue : simpl never.
#[local] Arguments consume : simpl never.
#[local] Arguments tryConsume : simpl never.
#[local] Arguments includes : simpl never.

Lemma eqb_false (s t : string) : s ≠ t → String.eqb s t = false.
Proof. by intros ?%String.eqb_neq. Qed.

(** The operators of the four levels of binary operators that
    associate to the left, as the loops of the parser test them. *)
Definition multiplicativeOperators : list string := ["*"; "/"; "%"].
Definition additiveOperators : list string := ["+"; "-"].
Definition relationalOperators : list string :=
  ["=="; "!="; "<"; ">"; "<="; ">="].
Definition logicalOperators : list string := ["&&"; "||"].
Definition unaryOperators : list string :=
  ["+"; "-"; "!"; "~"; "++"; "--"; "*"; "&"].

Section Chains.

Context (tokens : list Token.t).

(** The token under the cursor is an identifier, not followed by the
    opening of a call or of an index. *)
Definition identifierAt (p : nat) (name : string) : Prop :=
  (∃ line column, tokens !! p = Some (identifierToken name line column))
  ∧ match tokens !! S p with
    | Some t => Token.value t ≠ "(" ∧ Token.value t ≠ "["
    | None => True
    end.

(** The token under the cursor is the given operator. *)
Definition operatorAt (p : nat) (operator : string) : Prop :=
  ∃ line column, tokens !! p = Some (operatorToken operator line column).

(** The token under the cursor, if any, is not an operator of a list. *)
Definition noOperatorOf (operators : list string) (p : nat) : Prop :=
  match tokens !! p with
  | Some t =>
      Token.type t ≠ "operator" ∨ includes operators (Token.value t) = false
  | None => True
  end.

(** From some amount of fuel on, a method returns a given result. *)
Definition yields (method : nat → M ASTNode.t) (enough p : nat)
    (result : ASTNode.t * nat) : Prop :=
  ∀ fuel, (enough ≤ fuel)%nat → method fuel p = Ok result.

Lemma yields_at method enough p result fuel :
  yields method enough p result → (enough ≤ fuel)%nat →
  method fuel p = Ok result.
Proof. intros Hyields Hfuel. by apply Hyields. Qed.

Lemma checkType_at p t type :
  tokens !! p = Some t →
  checkType tokens type p = String.eqb (Token.type t) type.
Proof. intros H. unfold checkType, getCurrentToken. by rewrite H. Qed.

Lemma consume_type p t type :
  tokens !! p = Some t → Token.type t = type →
  consume tokens type None p = Ok (t, S p).
Proof.
  intros H <-. unfold consume, getCurrentToken. rewrite H.
  by rewrite String.eqb_refl.
Qed.

Lemma checkValue_not p value :
  match tokens !! p with
  | Some t => Token.value t ≠ value
  | None => True
  end →
  checkValue tokens value p = false.
Proof.
  unfold checkValue, getCurrentToken.
  destruct (tokens !! p); [apply eqb_false | done].
Qed.

Lemma noOperatorOf_test operators p :
  noOperatorOf operators p →
  match getCurrentToken tokens p with
  | Some token =>
      String.eqb (Token.type token) "operator"
      && includes operators (Token.value token) = false
  | None => True
  end.
Proof.
  unfold noOperatorOf, getCurrentToken. destruct (tokens !! p) as [t|]; [|done].
  intros [H|H].
  - by rewrite (eqb_false _ _ H).
  - rewrite H. apply andb_false_r.
Qed.

Lemma identifierAt_noOperatorOf operators p name :
  identifierAt p name → noOperatorOf operators p.
Proof.
  intros [(line & column & Htoken) _]. unfold noOperatorOf. rewrite Htoken.
  by left.
Qed.

(** *** An operand that is an identifier *)

Lemma primary_identifier (p : nat) (name : string) :
  identifierAt p name →
  yields (parsePrimaryFactor tokens) 1 p (identifierNode name, S p).
Proof.
  intros [(line & column & Htoken) Hnext] [|fuel] Hfuel; [lia|]. simpl.
  unfold bind, test.
  rewrite !(checkType_at _ _ _ Htoken). simpl.
  rewrite (consume_type p _ "identifier" Htoken eq_refl).
  rewrite !checkValue_not; [done|..]; destruct (tokens !! S p); tauto.
Qed.

Lemma unary_identifier (p : nat) (name : string) :
  identifierAt p name →
  yields (parseUnaryExpression tokens) 2 p (identifierNode name, S p).
Proof.
  intros Hid [|fuel] Hfuel; [lia|].
  pose proof (identifierAt_noOperatorOf unaryOperators _ _ Hid)
    as H%noOperatorOf_test.
  simpl. destruct (getCurrentToken tokens p).
  - unfold unaryOperators in H. rewrite H.
    apply primary_identifier; [done | lia].
  - apply primary_identifier; [done | lia].
Qed.

(** *** The loops over the operators of a level *)

Ltac loop_stops H :=
  apply noOperatorOf_test in H; simpl;
  let t := fresh "t" in
  match goal with
  | |- context [getCurrentToken ?toks ?p] =>
      destruct (getCurrentToken toks p) as [t|]; [|done]
  end;
  unfold includes in H; simpl in H;
  destruct (String.eqb (Token.type t) "operator"); [|done]; simpl in *;
  repeat
    match goal with
    | |- context [String.eqb (Token.value t) ?s] =>
        destruct (String.eqb (Token.value t) s); simpl in *
    end;
  done.

Ltac loop_steps Htoken Hin :=
  simpl; unfold getCurrentToken; rewrite Htoken; simpl;
  unfold multiplicativeOperators, additiveOperators, logicalOperators in Hin;
  rewrite !elem_of_cons, elem_of_nil in Hin;
  repeat destruct Hin as [->|Hin]; try done; simpl;
  unfold bind at 1;
  by rewrite (consume_type _ _ "operator" Htoken eq_refl).

Lemma multiplicative_stops (fuel p : nat) (left : ASTNode.t) :
  noOperatorOf multiplicativeOperators p →
  parseMultiplicativeRest tokens (S fuel) left p = Ok (left, p).
Proof. intros H. loop_stops H. Qed.

Lemma additive_stops (fuel p : nat) (left : ASTNode.t) :
  noOperatorOf additiveOperators p →
  parseAdditiveRest tokens (S fuel) left p = Ok (left, p).
Proof. intros H. loop_stops H. Qed.

Lemma relational_stops (fuel p : nat) (left : ASTNode.t) :
  noOperatorOf relationalOperators p →
  parseRelationalRest tokens (S fuel) left p = Ok (left, p).
Proof.
  intros H%noOperatorOf_test. simpl.
  destruct (getCurrentToken tokens p) as [t|]; [|done].
  unfold relationalOperators in H. by rewrite H.
Qed.

Lemma logical_stops (fuel p : nat) (left : ASTNode.t) :
  noOperatorOf logicalOperators p →
  parseLogicalRest tokens (S fuel) left p = Ok (left, p).
Proof. intros H. loop_stops H. Qed.

Lemma multiplicative_steps (fuel p : nat) (left : ASTNode.t) (o : string)
    (line column : Z) :
  tokens !! p = Some (operatorToken o line column) →
  o ∈ multiplicativeOperators →
  parseMultiplicativeRest tokens (S fuel) left p
  = (do right <- parseUnaryExpression tokens fuel;
     parseMultiplicativeRest tokens fuel
       (binary "multiplicative_expression" o left right)) (S p).
Proof. intros Htoken Hin. loop_steps Htoken Hin. Qed.

Lemma additive_steps (fuel p : nat) (left : ASTNode.t) (o : string)
    (line column : Z) :
  tokens !! p = Some (operatorToken o line column) →
  o ∈ additiveOperators →
  parseAdditiveRest tokens (S fuel) left p
  = (do right <- parseMultiplicativeExpression tokens fuel;
     parseAdditiveRest tokens fuel
       (binary "additive_expression" o left right)) (S p).
Proof. intros Htoken Hin. loop_steps Htoken Hin. Qed.

Lemma relational_steps (fuel p : nat) (left : ASTNode.t) (o : string)
    (line column : Z) :
  tokens !! p = Some (operatorToken o line column) →
  o ∈ relationalOperators →
  parseRelationalRest tokens (S fuel) left p
  = (do right <- parseAdditiveExpression tokens fuel;
     parseRelationalRest tokens fuel
       (binary "relational_expression" o left right)) (S p).
Proof.
  intros Htoken Hin. simpl. unfold getCurrentToken. rewrite Htoken. simpl.
  unfold relationalOperators in Hin.
  rewrite !elem_of_cons, elem_of_nil in Hin.
  repeat destruct Hin as [->|Hin]; try done;
    unfold bind at 1;
    by rewrite (consume_type _ _ "operator" Htoken eq_refl).
Qed.

Lemma logical_steps (fuel p : nat) (left : ASTNode.t) (o : string)
    (line column : Z) :
  tokens !! p = Some (operatorToken o line column) →
  o ∈ logicalOperators →
  parseLogicalRest tokens (S fuel) left p
  = (do right <- parseRelationalExpression tokens fuel;
     parseLogicalRest tokens fuel
       (binary "logical_expression" o left right)) (S p).
Proof. intros Htoken Hin. loop_steps Htoken Hin. Qed.


(** *** A level of left-associative operators *)

Section Level.

Context (operand expression : nat → M ASTNode.t)
  (loop : nat → ASTNode.t → M ASTNode.t)
  (kind : string) (operators : list string).
Context
  (expression_0 : ∀ p, expression 0%nat p = OutOfFuel)
  (expression_S : ∀ fuel p,
     expression (S fuel) p = (do left <- operand fuel; loop fuel left) p)
  (loop_stops : ∀ fuel p left,
     noOperatorOf operators p → loop (S fuel) left p = Ok (left, p))
  (loop_steps : ∀ fuel p left o line column,
     tokens !! p = Some (operatorToken o line column) →
     o ∈ operators →
     loop (S fuel) left p
     = (do right <- operand fuel; loop fuel (binary kind o left right)) (S p)).

(** An operand that no operator of the level follows is an expression
    of the level. *)
Lemma level_operand (enough p q : nat) (n : ASTNode.t) :
  yields operand enough p (n, q) →
  noOperatorOf operators q →
  yields expression (S (S enough)) p (n, q).
Proof.
  intros Hoperand Hstop fuel Hfuel.
  destruct fuel as [|[|fuel]]; [lia..|].
  rewrite expression_S. unfold bind. rewrite Hoperand by lia.
  by apply loop_stops.
Qed.

(** Two operators of the level in a row group to the left. *)
Lemma level_chain (enough p p1 p2 p3 : nat) (a b c : ASTNode.t)
    (o1 o2 : string) :
  yields operand enough p (a, p1) →
  operatorAt p1 o1 → o1 ∈ operators →
  yields operand enough (S p1) (b, p2) →
  operatorAt p2 o2 → o2 ∈ operators →
  yields operand enough (S p2) (c, p3) →
  noOperatorOf operators p3 →
  yields expression (S (S (S (S enough)))) p
    (binary kind o2 (binary kind o1 a b) c, p3).
Proof.
  intros Ha (l1 & c1 & Ho1) Hin1 Hb (l2 & c2 & Ho2) Hin2 Hc Hstop fuel Hfuel.
  destruct fuel as [|[|[|[|fuel]]]]; [lia..|].
  rewrite expression_S. unfold bind at 1. rewrite Ha by lia.
  rewrite (loop_steps _ _ _ _ _ _ Ho1 Hin1). unfold bind at 1.
  rewrite Hb by lia.
  rewrite (loop_steps _ _ _ _ _ _ Ho2 Hin2). unfold bind at 1.
  rewrite Hc by lia.
  by apply loop_stops.
Qed.

End Level.

(** *** Assignment *)

Lemma assignment_operand (enough p q : nat) (n : ASTNode.t) :
  yields (parseLogicalExpression tokens) enough p (n, q) →
  noOperatorOf assignment q →
  yields (parseAssignment tokens) (S enough) p (n, q).
Proof.
  intros Hoperand Hstop%noOperatorOf_test fuel Hfuel.
  destruct fuel as [|fuel]; [lia|].
  simpl. unfold bind. rewrite Hoperand by lia.
  destruct (getCurrentToken tokens q); [|done]. by rewrite Hstop.
Qed.

Lemma assignment_steps (fuel p q : nat) (left : ASTNode.t) (o : string)
    (line column : Z) :
  parseLogicalExpression tokens fuel p = Ok (left, q) →
  tokens !! q = Some (operatorToken o line column) →
  o ∈ assignment →
  parseAssignment tokens (S fuel) p
  = (do right <- parseAssignment tokens fuel;
     ret (binary "assignment_expression" o left right)) (S q).
Proof.
  intros Hleft Htoken Hin. simpl. unfold bind at 1. rewrite Hleft.
  unfold getCurrentToken. rewrite Htoken. simpl.
  unfold assignment in Hin. rewrite !elem_of_cons, elem_of_nil in Hin.
  repeat destruct Hin as [->|Hin]; try done;
    unfold bind at 1;
    by rewrite (consume_type _ _ "operator" Htoken eq_refl).
Qed.

(** Two assignment operators in a row group to the right. *)
Lemma assignment_chain (enough p p1 p2 p3 : nat) (a b c : ASTNode.t)
    (o1 o2 : string) :
  yields (parseLogicalExpression tokens) enough p (a, p1) →
  operatorAt p1 o1 → o1 ∈ assignment →
  yields (parseLogicalExpression tokens) enough (S p1) (b, p2) →
  operatorAt p2 o2 → o2 ∈ assignment →
  yields (parseLogicalExpression tokens) enough (S p2) (c, p3) →
  noOperatorOf assignment p3 →
  yields (parseAssignment tokens) (S (S (S (S enough)))) p
    (binary "assignment_expression" o1 a
       (binary "assignment_expression" o2 b c), p3).
Proof.
  intros Ha (l1 & c1 & Ho1) Hin1 Hb (l2 & c2 & Ho2) Hin2 Hc Hstop fuel Hfuel.
  destruct fuel as [|[|[|fuel]]]; [lia..|].
  rewrite (assignment_steps _ _ _ _ _ _ _ (Ha (S (S fuel)) ltac:(lia)) Ho1 Hin1).
  unfold bind at 1.
  rewrite (assignment_steps _ _ _ _ _ _ _ (Hb (S fuel) ltac:(lia)) Ho2 Hin2).
  unfold bind at 1.
  rewrite (assignment_operand _ _ _ _ Hc Hstop) by lia.
  reflexivity.
Qed.

Lemma expression_of_assignment (enough p : nat) (result : ASTNode.t * nat) :
  yields (parseAssignment tokens) enough p result →
  yields (parseExpression tokens) (S enough) p result.
Proof.
  intros Hassignment fuel Hfuel. destruct fuel as [|fuel]; [lia|].
  simpl. apply Hassignment. lia.
Qed.

(** *** The levels of the grammar, from the operands up *)

Definition multiplicative_operand :=
  level_operand (parseUnaryExpression tokens)
    (parseMultiplicativeExpression tokens) (parseMultiplicativeRest tokens)
    multiplicativeOperators (λ _ _, eq_refl) multiplicative_stops.

Definition additive_operand :=
  level_operand (parseMultiplicativeExpression tokens)
    (parseAdditiveExpression tokens) (parseAdditiveRest tokens)
    additiveOperators (λ _ _, eq_refl) additive_stops.

Definition relational_operand :=
  level_operand (parseAdditiveExpression tokens)
    (parseRelationalExpression tokens) (parseRelationalRest tokens)
    relationalOperators (λ _ _, eq_refl) relational_stops.

Definition logical_operand :=
  level_operand (parseRelationalExpression tokens)
    (parseLogicalExpression tokens) (parseLogicalRest tokens)
    logicalOperators (λ _ _, eq_refl) logical_stops.

Definition multiplicative_chain :=
  level_chain (parseUnaryExpression tokens)
    (parseMultiplicativeExpression tokens) (parseMultiplicativeRest tokens)
    "multiplicative_expression" multiplicativeOperators
    (λ _ _, eq_refl) multiplicative_stops multiplicative_steps.

Definition additive_chain :=
  level_chain (parseMultiplicativeExpression tokens)
    (parseAdditiveExpression tokens) (parseAdditiveRest tokens)
    "additive_expression" additiveOperators
    (λ _ _, eq_refl) additive_stops additive_steps.

Definition relational_chain :=
  level_chain (parseAdditiveExpression tokens)
    (parseRelationalExpression tokens) (parseRelationalRest tokens)
    "relational_expression" relationalOperators
    (λ _ _, eq_refl) relational_stops relational_steps.

Definition logical_chain :=
  level_chain (parseRelationalExpression tokens)
    (parseLogicalExpression tokens) (parseLogicalRest tokens)
    "logical_expression" logicalOperators
    (λ _ _, eq_refl) logical_stops logical_steps.

(** An identifier is an operand of every level, when the token after it
    is no operator of the level or of a tighter one. *)
Lemma multiplicative_identifier (p : nat) (name : string) :
  identifierAt p name →
  noOperatorOf multiplicativeOperators (S p) →
  yields (parseMultiplicativeExpression tokens) 4 p (identifierNode name, S p).
Proof.
  intros Hid Hm. apply multiplicative_operand; [|done].
  by apply unary_identifier.
Qed.

Lemma additive_identifier (p : nat) (name : string) :
  identifierAt p name →
  noOperatorOf multiplicativeOperators (S p) →
  noOperatorOf additiveOperators (S p) →
  yields (parseAdditiveExpression tokens) 6 p (identifierNode name, S p).
Proof.
  intros Hid Hm Ha. apply additive_operand; [|done].
  by apply multiplicative_identifier.
Qed.

Lemma relational_identifier (p : nat) (name : string) :
  identifierAt p name →
  noOperatorOf multiplicativeOperators (S p) →
  noOperatorOf additiveOperators (S p) →
  noOperatorOf relationalOperators (S p) →
  yields (parseRelationalExpression tokens) 8 p (identifierNode name, S p).
Proof.
  intros Hid Hm Ha Hr. apply relational_operand; [|done].
  by apply additive_identifier.
Qed.

Lemma logical_identifier (p : nat) (name : string) :
  identifierAt p name →
  noOperatorOf multiplicativeOperators (S p) →
  noOperatorOf additiveOperators (S p) →
  noOperatorOf relationalOperators (S p) →
  noOperatorOf logicalOperators (S p) →
  yields (parseLogicalExpression tokens) 10 p (identifierNode name, S p).
Proof.
  intros Hid Hm Ha Hr Hl. apply logical_operand; [|done].
  by apply relational_identifier.
Qed.

(** An expression of a level that no operator of a looser level follows
    is a whole expression. *)
Lemma expression_of_logical (enough p q : nat) (n : ASTNode.t) :
  yields (parseLogicalExpression tokens) enough p (n, q) →
  noOperatorOf assignment q →
  yields (parseExpression tokens) (S (S enough)) p (n, q).
Proof.
  intros H Hs. apply expression_of_assignment. by apply assignment_operand.
Qed.

Lemma expression_of_relational (enough p q : nat) (n : ASTNode.t) :
  yields (parseRelationalExpression tokens) enough p (n, q) →
  noOperatorOf logicalOperators q →
  noOperatorOf assignment q →
  yields (parseExpression tokens) (S (S (S (S enough)))) p (n, q).
Proof.
  intros H Hl Hs. apply expression_of_logical; [|done].
  by apply logical_operand.
Qed.

Lemma expression_of_additive (enough p q : nat) (n : ASTNode.t) :
  yields (parseAdditiveExpression tokens) enough p (n, q) →
  noOperatorOf relationalOperators q →
  noOperatorOf logicalOperators q →
  noOperatorOf assignment q →
  yields (parseExpression tokens) (S (S (S (S (S (S enough)))))) p (n, q).
Proof.
  intros H Hr Hl Hs. apply expression_of_relational; [|done..].
  by apply relational_operand.
Qed.

Lemma expression_of_multiplicative (enough p q : nat) (n : ASTNode.t) :
  yields (parseMultiplicativeExpression tokens) enough p (n, q) →
  noOperatorOf additiveOperators q →
  noOperatorOf relationalOperators q →
  noOperatorOf logicalOperators q →
  noOperatorOf assignment q →
  yields (parseExpression tokens) (S (S (S (S (S (S (S (S enough))))))))
    p (n, q).
Proof.
  intros H Ha Hr Hl Hs. apply expression_of_additive; [|done..].
  by apply additive_operand.
Qed.

End Chains.

(** The levels of binary operators that the parser handles with a loop:
    the kind of their nodes and their operators. *)
Definition leftAssociativeLevels : list (string * list string) :=
  [("multiplicative_expression", multiplicativeOperators);
   ("additive_expression", additiveOperators);
   ("relational_expression", relationalOperators);
   ("logical_expression", logicalOperators)].

Ltac token_fact :=
  unfold identifierAt, operatorAt, noOperatorOf, chain, endsExpression in *;
  simpl in *;
  first
    [ done
    | by eauto
    | by (right; reflexivity)
    | by (left; tauto)
    | by (split; [eauto | tauto])
    | by (split; [eauto | split; discriminate]) ].

(** A fact about the token after an operand, by cases on the operator
    it is. *)
Ltac by_operator Hin :=
  let H := fresh "H" in
  pose proof Hin as H;
  unfold Parser.assignment, multiplicativeOperators, additiveOperators,
    relationalOperators, logicalOperators in H;
  rewrite !elem_of_cons, elem_of_nil in H;
  repeat destruct H as [->|H]; try done; token_fact.



(** ** The shape of the syntax tree *)

(** A node and all the nodes below it. *)
Fixpoint nodes (n : ASTNode.t) : list ASTNode.t :=
  match n with
  | ASTNode.mk _ _ children _ _ _ => n :: flat_map nodes children
  end.

(** The children of the nodes of the three control statements: a for
    statement has four, a while statement two, an if statement two or
    three. *)
Definition controlArity (n : ASTNode.t) : Prop :=
  (ASTNode.type n = "for_statement" →
   ∃ initialization condition increment body,
     ASTNode.children n = [initialization; condition; increment; body])
  ∧ (ASTNode.type n = "while_statement" →
     ∃ condition body, ASTNode.children n = [condition; body])
  ∧ (ASTNode.type n = "if_statement" →
     ∃ condition ifBlock,
       ASTNode.children n = [condition; ifBlock]
       ∨ ∃ elseBlock, ASTNode.children n = [condition; ifBlock; elseBlock]).

(** Every control statement of a tree has the children of its kind. *)
Definition wellFormed (n : ASTNode.t) : Prop := Forall controlArity (nodes n).

(** A kind that is not the kind of a control statement. *)
Definition plain (kind : string) : Prop :=
  kind ≠ "for_statement" ∧ kind ≠ "while_statement" ∧ kind ≠ "if_statement".

Lemma nodes_unfold (n : ASTNode.t) :
  nodes n = n :: flat_map nodes (ASTNode.children n).
Proof. by destruct n. Qed.

Lemma wellFormed_intro (n : ASTNode.t) :
  controlArity n → Forall wellFormed (ASTNode.children n) → wellFormed n.
Proof.
  intros Hn Hchildren. unfold wellFormed. rewrite nodes_unfold.
  constructor; [done|]. by apply Forall_flat_map.
Qed.

Lemma wellFormed_children (n : ASTNode.t) :
  wellFormed n → Forall wellFormed (ASTNode.children n).
Proof.
  unfold wellFormed. rewrite nodes_unfold. intros H.
  apply Forall_cons in H as [_ H]. by apply Forall_flat_map in H.
Qed.

Lemma plain_arity (n : ASTNode.t) : plain (ASTNode.type n) → controlArity n.
Proof. intros (Hfor & Hwhile & Hif). by repeat split. Qed.

Lemma wellFormed_new (kind : string) (value : option string) :
  plain kind → wellFormed (ASTNode.new kind value).
Proof. intros Hkind. by apply wellFormed_intro; [apply plain_arity|]. Qed.

Lemma wellFormed_mk kind value returnType parameters isPointer :
  plain kind →
  wellFormed (ASTNode.mk kind value [] returnType parameters isPointer).
Proof. intros Hkind. by apply wellFormed_intro; [apply plain_arity|]. Qed.

Lemma wellFormed_addChild (n child : ASTNode.t) :
  wellFormed n → wellFormed child → plain (ASTNode.type n) →
  wellFormed (ASTNode.addChild n child).
Proof.
  intros Hn Hchild Hkind. apply wellFormed_intro.
  - by apply plain_arity.
  - simpl. apply Forall_app. split; [by apply wellFormed_children|].
    by constructor.
Qed.

Lemma wellFormed_binary (kind operator : string) (left right : ASTNode.t) :
  plain kind → wellFormed left → wellFormed right →
  wellFormed (binary kind operator left right).
Proof.
  intros Hkind Hleft Hright. unfold binary.
  apply wellFormed_addChild; [|done..].
  apply wellFormed_addChild; [|done..].
  by apply wellFormed_new.
Qed.

Lemma wellFormed_for (initialization condition increment body : ASTNode.t) :
  wellFormed initialization → wellFormed condition →
  wellFormed increment → wellFormed body →
  wellFormed
    (ASTNode.addChild
       (ASTNode.addChild
          (ASTNode.addChild
             (ASTNode.addChild (ASTNode.new "for_statement" None)
                initialization) condition) increment) body).
Proof.
  intros Hi Hc Hu Hb. apply wellFormed_intro.
  - repeat split; [|done..]. intros _. by eexists _, _, _, _.
  - simpl. by repeat constructor.
Qed.

Lemma wellFormed_while (condition body : ASTNode.t) :
  wellFormed condition → wellFormed body →
  wellFormed
    (ASTNode.addChild
       (ASTNode.addChild (ASTNode.new "while_statement" None) condition) body).
Proof.
  intros Hc Hb. apply wellFormed_intro.
  - repeat split; [done| |done]. intros _. by eexists _, _.
  - simpl. by repeat constructor.
Qed.

Lemma wellFormed_if (condition ifBlock : ASTNode.t) :
  wellFormed condition → wellFormed ifBlock →
  wellFormed
    (ASTNode.addChild
       (ASTNode.addChild (ASTNode.new "if_statement" None) condition) ifBlock).
Proof.
  intros Hc Hb. apply wellFormed_intro.
  - repeat split; [done..|]. intros _. eexists _, _. by left.
  - simpl. by repeat constructor.
Qed.

Lemma wellFormed_if_else (condition ifBlock elseBlock : ASTNode.t) :
  wellFormed condition → wellFormed ifBlock → wellFormed elseBlock →
  wellFormed
    (ASTNode.addChild
       (ASTNode.addChild
          (ASTNode.addChild (ASTNode.new "if_statement" None) condition)
          ifBlock) elseBlock).
Proof.
  intros Hc Hb He. apply wellFormed_intro.
  - repeat split; [done..|]. intros _. eexists _, _. right. by eexists.
  - simpl. by repeat constructor.
Qed.

(** What a method returns is well formed. *)
Definition returnsWellFormed (method : M ASTNode.t) : Prop :=
  ∀ p n p', method p = Ok (n, p') → wellFormed n.

(** A method that wraps a well-formed node returns a well-formed node. *)
Definition wrapsWellFormed (method : ASTNode.t → M ASTNode.t) : Prop :=
  ∀ left, wellFormed left → returnsWellFormed (method left).

(** A method that adds children to a node that is no control statement,
    or wraps it, keeps it well formed. *)
Definition keepsWellFormed (method : ASTNode.t → M ASTNode.t) : Prop :=
  ∀ node p n p',
    wellFormed node → plain (ASTNode.type node) →
    method node p = Ok (n, p') → wellFormed n.

Lemma bind_Ok {A B} (m : M A) (k : A → M B) (p : nat) (r : B * nat) :
  bind m k p = Ok r → ∃ a p1, m p = Ok (a, p1) ∧ k a p1 = Ok r.
Proof.
  unfold bind. destruct (m p) as [[a p1]| |]; [|done..]. by eexists _, _.
Qed.

Lemma consume_Ok tokens type value p t p' :
  consume tokens type value p = Ok (t, p') →
  tokens !! p = Some t ∧ Token.type t = type ∧ p' = S p.
Proof.
  unfold consume, getCurrentToken. destruct (tokens !! p) as [t'|]; [|done].
  destruct (String.eqb_spec (Token.type t') type) as [Htype|]; [|done].
  simpl. destruct (match value with Some _ => _ | None => _ end); [done|].
  by intros [= -> <-].
Qed.

#[local] Arguments parseExpressionStatement : simpl never.
#[local] Arguments parseReturnStatement : simpl never.
#[local] Arguments parseVariableDeclaration : simpl never.
#[local] Arguments parseForClause : simpl never.
#[local] Arguments parseFunctionDefinition : simpl never.
#[local] Arguments parseTypeDeclaration : simpl never.
#[local] Arguments parsePreprocessorDirective : simpl never.
#[local] Arguments ASTNode.addChild : simpl never.
#[local] Arguments ASTNode.new : simpl never.
#[local] Arguments binary : simpl never.

(** Taking a successful run of a method apart, one statement at a
    time. *)
Ltac parse_inversion H :=
  simpl in H;
  match type of H with
  | bind _ _ _ = Ok _ =>
      let a := fresh "a" in
      let q := fresh "q" in
      let Hm := fresh "Hm" in
      apply bind_Ok in H as (a & q & Hm & H);
      parse_inversion Hm; parse_inversion H
  | ret _ _ = Ok _ => unfold ret in H
  | Throw _ = Ok _ => discriminate H
  | OutOfFuel = Ok _ => discriminate H
  | throw _ _ = Ok _ => discriminate H
  | outOfFuel _ = Ok _ => discriminate H
  | unexpectedToken _ _ = Ok _ => unfold unexpectedToken in H; parse_inversion H
  | context [match ?x with _ => _ end] =>
      let E := fresh "E" in destruct x eqn:E; parse_inversion H
  | _ => idtac
  end.

(** The values the pure statements of a method returned. *)
Ltac parse_values :=
  repeat
    match goal with
    | H : Ok (_, _) = Ok (_, _) |- _ => injection H as <- <-
    end.

Create HintDb wf discriminated.
#[local] Hint Resolve wellFormed_binary wellFormed_addChild wellFormed_new
  wellFormed_for wellFormed_while wellFormed_if wellFormed_if_else
  wellFormed_mk : wf.
#[local] Hint Extern 1 (plain _) =>
  first [ assumption
        | solve [unfold plain; repeat split; discriminate]
        | solve [unfold ASTNode.addChild, ASTNode.new; simpl;
                 first [ assumption
                       | unfold plain; repeat split; discriminate ]] ] : wf.

(** The nodes the methods called so far returned are well formed. *)
Ltac wf_forward :=
  repeat
    match goal with
    | IH : returnsWellFormed ?m, H : ?m _ = Ok (?a, _) |- _ =>
        lazymatch goal with
        | _ : wellFormed a |- _ => fail
        | _ => pose proof (IH _ _ _ H)
        end
    | IH : wrapsWellFormed ?m, H : ?m ?l _ = Ok (?a, _) |- _ =>
        lazymatch goal with
        | _ : wellFormed a |- _ => fail
        | _ =>
            assert (wellFormed a)
              by (apply (IH l ltac:(auto 6 with wf) _ _ _ H))
        end
    | IH : keepsWellFormed ?m, H : ?m ?l _ = Ok (?a, _) |- _ =>
        lazymatch goal with
        | _ : wellFormed a |- _ => fail
        | _ =>
            assert (wellFormed a)
              by (apply (IH l _ _ _ ltac:(auto 6 with wf)
                           ltac:(auto 6 with wf) H))
        end
    end.

Ltac wf_solve := parse_values; wf_forward; auto 8 with wf.

Ltac method_case :=
  intros;
  match goal with
  | H : _ = Ok (?n, _) |- wellFormed ?n => parse_inversion H; wf_solve
  end.

Section WellFormed.

Context (tokens : list Token.t).

Lemma expressions_wellFormed (fuel : nat) :
  returnsWellFormed (parseExpression tokens fuel)
  ∧ returnsWellFormed (parseAssignment tokens fuel)
  ∧ returnsWellFormed (parseLogicalExpression tokens fuel)
  ∧ wrapsWellFormed (parseLogicalRest tokens fuel)
  ∧ returnsWellFormed (parseRelationalExpression tokens fuel)
  ∧ wrapsWellFormed (parseRelationalRest tokens fuel)
  ∧ returnsWellFormed (parseAdditiveExpression tokens fuel)
  ∧ wrapsWellFormed (parseAdditiveRest tokens fuel)
  ∧ returnsWellFormed (parseMultiplicativeExpression tokens fuel)
  ∧ wrapsWellFormed (parseMultiplicativeRest tokens fuel)
  ∧ returnsWellFormed (parseUnaryExpression tokens fuel)
  ∧ returnsWellFormed (parsePrimaryFactor tokens fuel)
  ∧ keepsWellFormed (parseArguments tokens fuel).
Proof.
  induction fuel as [|fuel IH].
  { repeat split; repeat intro; discriminate. }
  destruct IH as (IHe & IHa & IHl & IHlr & IHr & IHrr & IHad & IHadr & IHm
                  & IHmr & IHu & IHp & IHar).
  repeat split; unfold wrapsWellFormed, keepsWellFormed, returnsWellFormed.
  all: method_case.
Qed.

Lemma expression_wellFormed (fuel : nat) :
  returnsWellFormed (parseExpression tokens fuel).
Proof. apply expressions_wellFormed. Qed.

Lemma expressionStatement_wellFormed (fuel : nat) :
  returnsWellFormed (parseExpressionStatement tokens fuel).
Proof.
  pose proof (expression_wellFormed fuel).
  unfold parseExpressionStatement. intros p n p'. method_case.
Qed.

Lemma returnStatement_wellFormed (fuel : nat) :
  returnsWellFormed (parseReturnStatement tokens fuel).
Proof.
  pose proof (expression_wellFormed fuel).
  unfold parseReturnStatement. intros p n p'. method_case.
Qed.

Lemma forClause_wellFormed (fuel : nat) (terminator : string) :
  returnsWellFormed (parseForClause tokens fuel terminator).
Proof.
  pose proof (expression_wellFormed fuel).
  unfold parseForClause. intros p n p'. method_case.
Qed.

Lemma preprocessorDirective_wellFormed :
  returnsWellFormed (parsePreprocessorDirective tokens).
Proof. unfold parsePreprocessorDirective. intros p n p'. method_case. Qed.

Lemma variables_wellFormed (fuel : nat) (firstVar : bool) :
  keepsWellFormed (parseVariables tokens fuel firstVar).
Proof.
  revert firstVar. induction fuel as [|fuel IH]; intros firstVar.
  { repeat intro; discriminate. }
  pose proof (expression_wellFormed fuel).
  pose proof (IH false) as IHfalse. clear IH.
  intros declarationNode p n p' Hnode Htype. method_case.
Qed.

Lemma variableDeclaration_wellFormed (fuel : nat) (type : string) :
  plain type →
  returnsWellFormed (parseVariableDeclaration tokens fuel type).
Proof.
  intros Htype. pose proof (variables_wellFormed fuel true).
  unfold parseVariableDeclaration. intros p n p'. method_case.
Qed.

(** The tokens of kind keyword bear a keyword of the tokenizer. *)
Definition keywordTokens : Prop :=
  Forall (λ t, Token.type t = "keyword" → Token.value t ∈ Lexer.keywords)
    tokens.

Context (Hkeywords : keywordTokens).

Lemma keyword_plain (p : nat) (t : Token.t) :
  tokens !! p = Some t → Token.type t = "keyword" → plain (Token.value t).
Proof.
  intros Hlookup Htype.
  unfold keywordTokens in Hkeywords. rewrite Forall_lookup in Hkeywords.
  pose proof (Hkeywords p t Hlookup Htype) as Hin.
  unfold Lexer.keywords in Hin. rewrite !elem_of_cons, elem_of_nil in Hin.
  repeat destruct Hin as [->|Hin]; try done.
Qed.

Lemma statements_wellFormed (fuel : nat) :
  returnsWellFormed (parseCompoundStatement tokens fuel)
  ∧ keepsWellFormed (parseStatements tokens fuel)
  ∧ returnsWellFormed (parseControlFlowStatement tokens fuel)
  ∧ returnsWellFormed (parseBlockOrStatement tokens fuel)
  ∧ returnsWellFormed (parseIfStatement tokens fuel)
  ∧ returnsWellFormed (parseForStatement tokens fuel)
  ∧ returnsWellFormed (parseWhileStatement tokens fuel).
Proof.
  induction fuel as [|fuel IH].
  { repeat split; repeat intro; discriminate. }
  destruct IH as (IHc & IHs & IHf & IHb & IHi & IHfor & IHw).
  pose proof (expression_wellFormed fuel).
  pose proof (expressionStatement_wellFormed fuel).
  pose proof (returnStatement_wellFormed fuel).
  pose proof (forClause_wellFormed fuel ";").
  pose proof (forClause_wellFormed fuel ")").
  repeat split; unfold keepsWellFormed, returnsWellFormed.
  all: intros;
    match goal with
    | H : _ = Ok (?n, _) |- wellFormed ?n => parse_inversion H
    end.
  all: try match goal with
    | Hv : parseVariableDeclaration tokens ?f (Token.value ?t) _ = Ok _,
      Ht : getCurrentToken tokens ?p = Some ?t,
      Hk : String.eqb (Token.type ?t) "keyword" = true |- _ =>
        apply String.eqb_eq in Hk;
        pose proof (variableDeclaration_wellFormed f (Token.value t)
                      (keyword_plain p t Ht Hk) _ _ _ Hv)
    end.
  all: wf_solve.
Qed.

Lemma compoundStatement_wellFormed (fuel : nat) :
  returnsWellFormed (parseCompoundStatement tokens fuel).
Proof. apply statements_wellFormed. Qed.

Lemma functionDefinition_wellFormed (fuel : nat) (returnType : string) :
  returnsWellFormed (parseFunctionDefinition tokens fuel returnType).
Proof.
  pose proof (compoundStatement_wellFormed fuel).
  unfold parseFunctionDefinition. intros p n p'. method_case.
Qed.

Lemma typeDeclaration_wellFormed (fuel : nat) :
  returnsWellFormed (parseTypeDeclaration tokens fuel).
Proof.
  unfold parseTypeDeclaration. intros p n p' Hp.
  apply bind_Ok in Hp as (typeToken & q & Hconsume & Hp).
  apply consume_Ok in Hconsume as (Hlookup & Htype & _).
  destruct (lookAhead (drop q tokens) 0).
  - by apply functionDefinition_wellFormed in Hp.
  - apply variableDeclaration_wellFormed in Hp; [done|].
    by apply (keyword_plain p).
Qed.

Lemma programLoop_wellFormed (fuel : nat) :
  keepsWellFormed (parseProgramLoop tokens fuel).
Proof.
  induction fuel as [|fuel IH]; [repeat intro; discriminate|].
  pose proof (typeDeclaration_wellFormed fuel).
  pose proof preprocessorDirective_wellFormed.
  unfold keepsWellFormed. intros root p n p' Hroot Htype. method_case.
Qed.

Lemma program_wellFormed (fuel : nat) :
  returnsWellFormed (parseProgram tokens fuel).
Proof.
  intros p n p' Hp. unfold parseProgram in Hp.
  apply programLoop_wellFormed in Hp; [done| |done].
  by apply wellFormed_new.
Qed.

End WellFormed.

(** A program with the three control statements, and its tokens. *)
Definition controlProgram : string :=
  "int main() { for (;;) { } while (x) { } if (x) y; else z; if (x) y; }".

Definition controlTokens : list Token.t :=
  default [] (Lexer.tokenize controlProgram).

(** X1. When the keyword tokens bear keywords of the tokenizer, every
    for_statement node of a tree that parse returns has exactly four
    children, every while_statement node two, and every if_statement
    node two or three. *)
Theorem parse_control_arity (tokens : list Token.t) (fuel : nat)
    (root : ASTNode.t) :
  keywordTokens tokens →
  parse tokens fuel = Ok root →
  Forall controlArity (nodes root).
Proof.
  intros Hkeywords Hparse. unfold parse in Hparse.
  destruct (length tokens =? 0)%nat; [done|].
  destruct (parseProgram tokens fuel 0%nat) as [[root' p']| |] eqn:Hprogram;
    [|done..].
  injection Hparse as ->.
  by apply (program_wellFormed tokens Hkeywords fuel 0%nat root p').
Qed.

Lemma parse_control_arity_witness :
  keywordTokens controlTokens
  ∧ ∃ root,
      parse controlTokens 40 = Ok root
      ∧ length (filter (λ n, ASTNode.type n = "if_statement") (nodes root)) = 2%nat
      ∧ Forall controlArity (nodes root).
Proof.
  assert (keywordTokens controlTokens) as Hkeywords.
  { apply (bool_decide_unpack _). by vm_compute. }
  split; [done|].
  destruct (parse controlTokens 40) as [root| |] eqn:Hparse;
    [|by vm_compute in Hparse..].
  exists root. split; [done|]. split.
  - vm_compute in Hparse. by injection Hparse as <-.
  - by apply (parse_control_arity controlTokens 40).
Defined.

(** The token at a position has a kind and a text. *)
Definition tokenAt (tokens : list Token.t) (p : nat) (kind text : string)
    : Prop :=
  ∃ t, tokens !! p = Some t ∧ Token.type t = kind ∧ Token.value t = text.

Lemma tokenAt_consume tokens p kind text :
  tokenAt tokens p kind text →
  ∃ t, consume tokens kind (Some text) p = Ok (t, S p).
Proof.
  intros (t & Hlookup & <- & <-). exists t.
  unfold consume, getCurrentToken. rewrite Hlookup.
  by rewrite !String.eqb_refl.
Qed.

Lemma tokenAt_checkValue tokens p kind text :
  tokenAt tokens p kind text → checkValue tokens text p = true.
Proof.
  intros (t & Hlookup & _ & <-).
  unfold checkValue, getCurrentToken. rewrite Hlookup.
  apply String.eqb_refl.
Qed.

Lemma bind_consume {B} tokens p kind text (k : Token.t → M B) :
  tokenAt tokens p kind text →
  ∃ t, bind (consume tokens kind (Some text)) k p = k t (S p).
Proof.
  intros [t Hconsume]%tokenAt_consume. exists t.
  unfold bind. by rewrite Hconsume.
Qed.

(** X2. In [for (;;) body] the three omitted clauses become nodes of
    kind empty: the for_statement node has the children
    [empty; empty; empty; body]. *)
Theorem parseForStatement_omitted_clauses (tokens : list Token.t)
    (fuel p p' : nat) (body : ASTNode.t) :
  tokenAt tokens p "keyword" "for" →
  tokenAt tokens (p + 1)%nat "punctuation" "(" →
  tokenAt tokens (p + 2)%nat "punctuation" ";" →
  tokenAt tokens (p + 3)%nat "punctuation" ";" →
  tokenAt tokens (p + 4)%nat "punctuation" ")" →
  parseBlockOrStatement tokens fuel (p + 5)%nat = Ok (body, p') →
  ∃ forNode,
    parseForStatement tokens (S fuel) p = Ok (forNode, p')
    ∧ ASTNode.type forNode = "for_statement"
    ∧ ASTNode.children forNode =
        [ASTNode.new "empty" None; ASTNode.new "empty" None;
         ASTNode.new "empty" None; body].
Proof.
  intros Hfor Hopen Hfirst Hsecond Hclose Hbody.
  replace (p + 1)%nat with (S p) in * by lia.
  replace (p + 2)%nat with (S (S p)) in * by lia.
  replace (p + 3)%nat with (S (S (S p))) in * by lia.
  replace (p + 4)%nat with (S (S (S (S p)))) in * by lia.
  replace (p + 5)%nat with (S (S (S (S (S p))))) in * by lia.
  exists (ASTNode.addChild
            (ASTNode.addChild
               (ASTNode.addChild
                  (ASTNode.addChild (ASTNode.new "for_statement" None)
                     (ASTNode.new "empty" None)) (ASTNode.new "empty" None))
               (ASTNode.new "empty" None)) body).
  split; [|split; reflexivity].
  cbn [parseForStatement].
  destruct (bind_consume tokens p "keyword" "for"
              (λ _, do_ consume tokens "punctuation" (Some "(");
                    do initialization <- parseForClause tokens fuel ";";
                    do_ consume tokens "punctuation" (Some ";");
                    do condition <- parseForClause tokens fuel ";";
                    do_ consume tokens "punctuation" (Some ";");
                    do increment <- parseForClause tokens fuel ")";
                    do_ consume tokens "punctuation" (Some ")");
                    do body <- parseBlockOrStatement tokens fuel;
                    ret (ASTNode.addChild
                           (ASTNode.addChild
                              (ASTNode.addChild
                                 (ASTNode.addChild
                                    (ASTNode.new "for_statement" None)
                                    initialization) condition) increment)
                           body)) Hfor) as [t ->].
  apply tokenAt_consume in Hopen as [t1 Hopen].
  pose proof (tokenAt_checkValue _ _ _ _ Hfirst) as Hfirst'.
  apply tokenAt_consume in Hfirst as [t2 Hfirst].
  pose proof (tokenAt_checkValue _ _ _ _ Hsecond) as Hsecond'.
  apply tokenAt_consume in Hsecond as [t3 Hsecond].
  pose proof (tokenAt_checkValue _ _ _ _ Hclose) as Hclose'.
  apply tokenAt_consume in Hclose as [t4 Hclose].
  unfold parseForClause, test, ret, bind.
  rewrite Hopen. simpl. rewrite Hfirst'. simpl. rewrite Hfirst. simpl.
  rewrite Hsecond'. simpl. rewrite Hsecond. simpl. rewrite Hclose'. simpl.
  rewrite Hclose. simpl. by rewrite Hbody.
Qed.

Definition foreverTokens : list Token.t :=
  [Token.mk "keyword" "for" 1 1; Token.mk "punctuation" "(" 1 5;
   Token.mk "punctuation" ";" 1 6; Token.mk "punctuation" ";" 1 7;
   Token.mk "punctuation" ")" 1 8; Token.mk "identifier" "x" 1 10;
   Token.mk "punctuation" ";" 1 11].

Lemma parseForStatement_omitted_clauses_witness :
  ∃ forNode,
    parseForStatement foreverTokens 13 0%nat = Ok (forNode, 7%nat)
    ∧ ASTNode.type forNode = "for_statement"
    ∧ ASTNode.children forNode =
        [ASTNode.new "empty" None; ASTNode.new "empty" None;
         ASTNode.new "empty" None; ASTNode.new "identifier" (Some "x")].
Proof.
  apply (parseForStatement_omitted_clauses foreverTokens 12 0%nat 7%nat
           (ASTNode.new "identifier" (Some "x")));
    by (eexists; repeat split).
Defined.

(** The keywords that start a statement parseControlFlowStatement
    parses. *)
Definition parsedControlKeywords : list string :=
  ["if"; "for"; "while"; "return"].

(** X3. A statement of a block that starts with a keyword other than
    if, for, while and return makes the parser throw: do and switch are
    not supported, and a declaration is parsed without its type keyword
    being consumed, so the semicolon expected at its end is never
    found. *)
Theorem parseStatements_keyword_throws (tokens : list Token.t)
    (fuel p : nat) (blockNode : ASTNode.t) (t : Token.t) :
  tokens !! p = Some t →
  Token.type t = "keyword" →
  Token.value t ∈ Lexer.keywords →
  Token.value t ∉ parsedControlKeywords →
  parseStatements tokens (S (S fuel)) blockNode p =
    Throw (if bool_decide (Token.value t ∈ ["do"; "switch"])
           then "Unsupported control flow structure: " +:+ Token.value t
           else "Expected token of type punctuation with value ';', but found "
                +:+ describe t).
Proof.
  intros Hlookup Htype Hkeyword Hcontrol.
  destruct t as [type value line column]. simpl in *. subst type.
  assert (getCurrentToken tokens p = Some (Token.mk "keyword" value line column))
    as Hcurrent by done.
  unfold Lexer.keywords in Hkeyword. unfold parsedControlKeywords in Hcontrol.
  rewrite !elem_of_cons, elem_of_nil in Hkeyword.
  rewrite !not_elem_of_cons in Hcontrol.
  destruct Hcontrol as (Hif & Hfor & Hwhile & Hreturn & _).
  repeat destruct Hkeyword as [->|Hkeyword]; try done.
  all: cbn [parseStatements parseControlFlowStatement parseVariables];
    unfold parseVariableDeclaration; cbn [parseVariables];
    unfold bind, test, ret, consume, checkValue, checkType, includes;
    repeat (progress (cbn -[describe append]; rewrite ?Hcurrent));
    reflexivity.
Qed.

Definition declarationTokens : list Token.t :=
  [Token.mk "keyword" "int" 1 1; Token.mk "identifier" "x" 1 5;
   Token.mk "punctuation" ";" 1 6].

Lemma parseStatements_keyword_throws_witness :
  parseStatements declarationTokens 5 (ASTNode.new "compound_statement" None)
    0%nat
  = Throw "Expected token of type punctuation with value ';', but found keyword 'int' at line 1".
Proof.
  apply (parseStatements_keyword_throws declarationTokens 3 0%nat
           (ASTNode.new "compound_statement" None)
           (Token.mk "keyword" "int" 1 1)).
  - reflexivity.
  - reflexivity.
  - apply (bool_decide_unpack _). by vm_compute.
  - apply (bool_decide_unpack _). by vm_compute.
Defined.

(** X4. The loop over the parameters of a function definition never
    ends when the current token is neither a keyword nor the closing
    parenthesis: an iteration then consumes nothing, so no number of
    iterations is enough. *)
Theorem parseParameters_diverges (tokens : list Token.t) (p : nat)
    (parameters : list (string * string)) (fuel : nat) :
  checkType tokens "keyword" p = false →
  checkValue tokens ")" p = false →
  parseParameters tokens fuel parameters p = OutOfFuel.
Proof.
  intros Hkeyword Hclosing. induction fuel as [|fuel IH]; [done|].
  cbn [parseParameters]. unfold bind, test, ret.
  by rewrite Hkeyword, Hclosing.
Qed.

Definition pointerParameterTokens : list Token.t :=
  [Token.mk "keyword" "char" 1 1; Token.mk "operator" "*" 1 6;
   Token.mk "identifier" "s" 1 7; Token.mk "punctuation" ")" 1 8].

Lemma parseParameters_diverges_witness :
  parseParameters pointerParameterTokens 1000 [("char", "")] 1%nat = OutOfFuel.
Proof.
  by apply (parseParameters_diverges pointerParameterTokens 1%nat
              [("char", "")] 1000).
Defined.

(** X5. A first token that is neither a preprocessor directive nor a
    keyword makes parse throw the error of the global scope, which names
    the kind, the text and the line of the token. *)
Theorem parse_global_scope_error (tokens : list Token.t) (fuel : nat)
    (t : Token.t) :
  tokens !! 0%nat = Some t →
  Token.type t ≠ "preprocessor" →
  Token.type t ≠ "keyword" →
  parse tokens (S fuel) =
    Throw ("Unexpected token in global scope: " +:+ Token.type t +:+ " '"
           +:+ Token.value t +:+ "' at line " +:+ Js.toString (Token.line t)).
Proof.
  intros Hlookup Hdirective%String.eqb_neq Hkeyword%String.eqb_neq.
  destruct tokens as [|t' tokens]; [done|]. injection Hlookup as ->.
  unfold parse, parseProgram. cbn [length Nat.eqb parseProgramLoop].
  unfold checkType, getCurrentToken. simpl.
  by rewrite Hdirective, Hkeyword.
Qed.

Lemma parse_global_scope_error_witness :
  parse [Token.mk "identifier" "x" 3 1; Token.mk "punctuation" ";" 3 2] 1
  = Throw "Unexpected token in global scope: identifier 'x' at line 3".
Proof.
  by apply (parse_global_scope_error
              [Token.mk "identifier" "x" 3 1; Token.mk "punctuation" ";" 3 2]
              0 (Token.mk "identifier" "x" 3 1)).
Defined.

Section Declarations.

Context (tokens : list Token.t).

(** The loop over the declared variables adds children of kind variable
    to the declaration node, at least one, and changes nothing else. *)
Lemma parseVariables_adds (fuel : nat) (firstVar : bool)
    (declarationNode : ASTNode.t) (p : nat) (n : ASTNode.t) (p' : nat) :
  parseVariables tokens fuel firstVar declarationNode p = Ok (n, p') →
  ASTNode.type n = ASTNode.type declarationNode
  ∧ ∃ variables,
      variables ≠ []
      ∧ ASTNode.children n = ASTNode.children declarationNode ++ variables
      ∧ Forall (λ c, ASTNode.type c = "variable") variables.
Proof.
  revert firstVar declarationNode p.
  induction fuel as [|fuel IH]; intros firstVar declarationNode p Hp; [done|].
  parse_inversion Hp; parse_values.
  all: try match goal with
    | H : parseVariables _ _ _ _ _ = Ok _ |- _ =>
        apply IH in H as (-> & variables & _ & -> & Hvariables);
        split; [done|];
        eexists (_ :: variables); split; [done|];
        split; [unfold ASTNode.addChild; simpl; by rewrite <- app_assoc|];
        by constructor
    end.
  all: split; [done|]; eexists [_]; split; [done|]; split; [done|];
    by repeat constructor.
Qed.

Lemma parseVariableDeclaration_declares (fuel : nat) (type : string)
    (p : nat) (n : ASTNode.t) (p' : nat) :
  parseVariableDeclaration tokens fuel type p = Ok (n, p') →
  ASTNode.type n = type
  ∧ ASTNode.children n ≠ []
  ∧ Forall (λ c, ASTNode.type c = "variable") (ASTNode.children n).
Proof.
  unfold parseVariableDeclaration. intros Hp.
  parse_inversion Hp. parse_values.
  match goal with
  | H : parseVariables _ _ _ _ _ = Ok _ |- _ =>
      apply parseVariables_adds in H as (-> & variables & Hsome & -> & Hkind)
  end.
  by repeat split.
Qed.

(** X6. The node of a variable declaration has the type keyword of the
    declaration as its kind: the kind variable_declaration it is created
    with is overwritten. Its children are the declared variables, at
    least one, each of kind variable. *)
Theorem parseVariableDeclaration_kind (fuel : nat) (type : string)
    (p : nat) (n : ASTNode.t) (p' : nat) :
  parseVariableDeclaration tokens fuel type p = Ok (n, p') →
  ASTNode.type n = type
  ∧ ASTNode.children n ≠ []
  ∧ Forall (λ c, ASTNode.type c = "variable") (ASTNode.children n).
Proof. apply parseVariableDeclaration_declares. Qed.

End Declarations.

Lemma parseVariableDeclaration_kind_witness :
  ASTNode.type (ASTNode.addChild (ASTNode.new "int" None)
                  (ASTNode.new "variable" (Some "x"))) = "int"
  ∧ ASTNode.children (ASTNode.addChild (ASTNode.new "int" None)
                        (ASTNode.new "variable" (Some "x"))) ≠ []
  ∧ Forall (λ c, ASTNode.type c = "variable")
      (ASTNode.children (ASTNode.addChild (ASTNode.new "int" None)
                           (ASTNode.new "variable" (Some "x")))).
Proof.
  by apply (parseVariableDeclaration_kind declarationTokens 3 "int" 1%nat
              (ASTNode.addChild (ASTNode.new "int" None)
                 (ASTNode.new "variable" (Some "x"))) 3%nat).
Defined.

Section Program.

Context (tokens : list Token.t).

(** What the global scope holds: a directive, a function definition, or
    a declaration, whose kind is the text of a keyword token. *)
Definition globalNode (c : ASTNode.t) : Prop :=
  ASTNode.type c = "preprocessor_directive"
  ∨ ASTNode.type c = "function_definition"
  ∨ ∃ t, t ∈ tokens ∧ Token.type t = "keyword"
         ∧ ASTNode.type c = Token.value t.

Lemma parseTypeDeclaration_global (fuel p : nat) (n : ASTNode.t) (p' : nat) :
  parseTypeDeclaration tokens fuel p = Ok (n, p') → globalNode n.
Proof.
  unfold parseTypeDeclaration. intros Hp.
  apply bind_Ok in Hp as (typeToken & q & Hconsume & Hp).
  apply consume_Ok in Hconsume as (Hlookup & Htype & _).
  destruct (lookAhead (drop q tokens) 0).
  - right. left. unfold parseFunctionDefinition in Hp.
    parse_inversion Hp; by parse_values.
  - right. right. exists typeToken.
    apply parseVariableDeclaration_declares in Hp as (-> & _).
    by apply list_elem_of_lookup_2 in Hlookup.
Qed.

Lemma parseProgramLoop_adds (fuel : nat) (root : ASTNode.t) (p : nat)
    (n : ASTNode.t) (p' : nat) :
  parseProgramLoop tokens fuel root p = Ok (n, p') →
  ASTNode.type n = ASTNode.type root
  ∧ ASTNode.value n = ASTNode.value root
  ∧ ∃ declarations,
      ASTNode.children n = ASTNode.children root ++ declarations
      ∧ Forall globalNode declarations.
Proof.
  revert root p. induction fuel as [|fuel IH]; intros root p Hp; [done|].
  parse_inversion Hp; parse_values.
  - unfold parsePreprocessorDirective in *.
    match goal with
    | H : bind _ _ _ = Ok _ |- _ => parse_inversion H; parse_values
    end.
    apply IH in Hp as (-> & -> & declarations & -> & Hglobal).
    split; [done|]. split; [done|]. eexists (_ :: declarations).
    split; [unfold ASTNode.addChild; simpl; by rewrite <- app_assoc|].
    constructor; [by left|done].
  - match goal with
    | H : parseTypeDeclaration _ _ _ = Ok _ |- _ =>
        apply parseTypeDeclaration_global in H
    end.
    apply IH in Hp as (-> & -> & declarations & -> & Hglobal).
    split; [done|]. split; [done|]. eexists (_ :: declarations).
    split; [unfold ASTNode.addChild; simpl; by rewrite <- app_assoc|].
    by constructor.
  - split; [done|]. split; [done|]. exists []. by rewrite app_nil_r.
Qed.

(** X7. The root of the tree parse returns is of kind program and has
    no value; each of its children is a preprocessor directive, a
    function definition, or a declaration whose kind is the text of a
    keyword token. *)
Theorem parse_program_root (fuel : nat) (root : ASTNode.t) :
  parse tokens fuel = Ok root →
  ASTNode.type root = "program"
  ∧ ASTNode.value root = None
  ∧ Forall globalNode (ASTNode.children root).
Proof.
  unfold parse, parseProgram. intros Hparse.
  destruct (length tokens =? 0)%nat; [done|].
  destruct (parseProgramLoop tokens fuel _ 0%nat) as [[root' p']| |] eqn:Hloop;
    [|done..].
  injection Hparse as ->.
  by apply parseProgramLoop_adds in Hloop
    as (-> & -> & declarations & -> & Hglobal).
Qed.

End Program.

Lemma parse_program_root_witness :
  ∃ root,
    parse declarationTokens 5 = Ok root
    ∧ ASTNode.type root = "program"
    ∧ ASTNode.value root = None
    ∧ Forall (globalNode declarationTokens) (ASTNode.children root).
Proof.
  destruct (parse declarationTokens 5) as [root| |] eqn:Hparse;
    [|by vm_compute in Hparse..].
  exists root. split; [done|].
  by apply (parse_program_root declarationTokens 5).
Defined.

(** ** The cursor of the parser *)

Section Cursor.

Context (tokens : list Token.t).

(** A method moves the cursor forwards only, and not past the end of the
    tokens. *)
Definition advances {A} (method : M A) : Prop :=
  ∀ p a p',
    method p = Ok (a, p') →
    (p ≤ p')%nat ∧ ((p ≤ length tokens)%nat → (p' ≤ length tokens)%nat).

Definition advancesWith {A B} (method : B → M A) : Prop :=
  ∀ b, advances (method b).

Lemma consume_advances type value : advances (consume tokens type value).
Proof.
  intros p t p' (Hlookup%lookup_lt_Some & _ & ->)%consume_Ok. lia.
Qed.

Lemma tryConsume_advances type value : advances (tryConsume tokens type value).
Proof.
  intros p t p'. unfold tryConsume, getCurrentToken.
  destruct (tokens !! p) as [token|] eqn:Hlookup.
  - apply lookup_lt_Some in Hlookup.
    destruct (_ && _); intros [= _ <-]; unfold advance; lia.
  - intros [= _ <-]. lia.
Qed.

Lemma test_advances f : advances (test f).
Proof. intros p b p' [= _ <-]. lia. Qed.

Lemma Ok_advances {A} (x a : A) (q q' : nat) :
  Ok (x, q) = Ok (a, q') →
  (q ≤ q')%nat ∧ ((q ≤ length tokens)%nat → (q' ≤ length tokens)%nat).
Proof. intros [= _ <-]. lia. Qed.

(** What each statement of a method did to the cursor. *)
Ltac cursor_forward :=
  repeat
    match goal with
    | H : consume tokens _ _ _ = Ok _ |- _ => apply consume_advances in H
    | H : tryConsume tokens _ _ _ = Ok _ |- _ => apply tryConsume_advances in H
    | H : test _ _ = Ok _ |- _ => apply test_advances in H
    | H : Ok (_, _) = Ok (_, _) |- _ => apply Ok_advances in H
    | IH : advances ?m, H : ?m _ = Ok _ |- _ => apply IH in H
    | IH : advancesWith ?m, H : ?m _ _ = Ok _ |- _ => apply IH in H
    end.

Ltac cursor_case :=
  intros;
  match goal with
  | H : _ = Ok (_, _) |- _ => parse_inversion H; cursor_forward; lia
  end.

Lemma expressions_advance (fuel : nat) :
  advances (parseExpression tokens fuel)
  ∧ advances (parseAssignment tokens fuel)
  ∧ advances (parseLogicalExpression tokens fuel)
  ∧ advancesWith (parseLogicalRest tokens fuel)
  ∧ advances (parseRelationalExpression tokens fuel)
  ∧ advancesWith (parseRelationalRest tokens fuel)
  ∧ advances (parseAdditiveExpression tokens fuel)
  ∧ advancesWith (parseAdditiveRest tokens fuel)
  ∧ advances (parseMultiplicativeExpression tokens fuel)
  ∧ advancesWith (parseMultiplicativeRest tokens fuel)
  ∧ advances (parseUnaryExpression tokens fuel)
  ∧ advances (parsePrimaryFactor tokens fuel)
  ∧ advancesWith (parseArguments tokens fuel).
Proof.
  induction fuel as [|fuel IH].
  { repeat split; repeat intro; discriminate. }
  destruct IH as (IHe & IHa & IHl & IHlr & IHr & IHrr & IHad & IHadr & IHm
                  & IHmr & IHu & IHp & IHar).
  repeat split; unfold advancesWith, advances.
  all: cursor_case.
Qed.

Lemma expression_advances (fuel : nat) :
  advances (parseExpression tokens fuel).
Proof. apply expressions_advance. Qed.

Lemma expressionStatement_advances (fuel : nat) :
  advances (parseExpressionStatement tokens fuel).
Proof.
  pose proof (expression_advances fuel).
  unfold parseExpressionStatement. intros p n p'. cursor_case.
Qed.

Lemma returnStatement_advances (fuel : nat) :
  advances (parseReturnStatement tokens fuel).
Proof.
  pose proof (expression_advances fuel).
  unfold parseReturnStatement. intros p n p'. cursor_case.
Qed.

Lemma forClause_advances (fuel : nat) :
  advancesWith (parseForClause tokens fuel).
Proof.
  pose proof (expression_advances fuel).
  unfold parseForClause. intros terminator p n p'. cursor_case.
Qed.

Lemma preprocessorDirective_advances :
  advances (parsePreprocessorDirective tokens).
Proof. unfold parsePreprocessorDirective. intros p n p'. cursor_case. Qed.

Lemma variables_advance (fuel : nat) (firstVar : bool) :
  advancesWith (parseVariables tokens fuel firstVar).
Proof.
  revert firstVar. induction fuel as [|fuel IH]; intros firstVar.
  { repeat intro; discriminate. }
  pose proof (expression_advances fuel).
  pose proof (IH false) as IHfalse. clear IH.
  intros declarationNode p n p'. cursor_case.
Qed.

Lemma variableDeclaration_advances (fuel : nat) :
  advancesWith (parseVariableDeclaration tokens fuel).
Proof.
  pose proof (variables_advance fuel true).
  unfold parseVariableDeclaration. intros type p n p'. cursor_case.
Qed.

Lemma statements_advance (fuel : nat) :
  advances (parseCompoundStatement tokens fuel)
  ∧ advancesWith (parseStatements tokens fuel)
  ∧ advances (parseControlFlowStatement tokens fuel)
  ∧ advances (parseBlockOrStatement tokens fuel)
  ∧ advances (parseIfStatement tokens fuel)
  ∧ advances (parseForStatement tokens fuel)
  ∧ advances (parseWhileStatement tokens fuel).
Proof.
  induction fuel as [|fuel IH].
  { repeat split; repeat intro; discriminate. }
  destruct IH as (IHc & IHs & IHf & IHb & IHi & IHfor & IHw).
  pose proof (expression_advances fuel).
  pose proof (expressionStatement_advances fuel).
  pose proof (returnStatement_advances fuel).
  pose proof (forClause_advances fuel).
  pose proof (variableDeclaration_advances fuel).
  repeat split; unfold advancesWith, advances.
  all: cursor_case.
Qed.

Lemma compoundStatement_advances (fuel : nat) :
  advances (parseCompoundStatement tokens fuel).
Proof. apply statements_advance. Qed.

Lemma parameters_advance (fuel : nat) :
  advancesWith (parseParameters tokens fuel).
Proof.
  induction fuel as [|fuel IH]; [repeat intro; discriminate|].
  intros parameters p n p'. cursor_case.
Qed.

Lemma functionDefinition_advances (fuel : nat) :
  advancesWith (parseFunctionDefinition tokens fuel).
Proof.
  pose proof (compoundStatement_advances fuel).
  pose proof (parameters_advance fuel).
  unfold parseFunctionDefinition. intros returnType p n p'. cursor_case.
Qed.

Lemma typeDeclaration_advances (fuel : nat) :
  advances (parseTypeDeclaration tokens fuel).
Proof.
  pose proof (functionDefinition_advances fuel).
  pose proof (variableDeclaration_advances fuel).
  unfold parseTypeDeclaration. intros p n p'. cursor_case.
Qed.

Lemma programLoop_advances (fuel : nat) :
  advancesWith (parseProgramLoop tokens fuel).
Proof.
  induction fuel as [|fuel IH]; [repeat intro; discriminate|].
  pose proof (typeDeclaration_advances fuel).
  pose proof preprocessorDirective_advances.
  intros root p n p'. cursor_case.
Qed.

(** The loop of parseProgram ends at the end of the tokens only. *)
Lemma programLoop_ends (fuel : nat) (root : ASTNode.t) (p : nat)
    (n : ASTNode.t) (p' : nat) :
  parseProgramLoop tokens fuel root p = Ok (n, p') →
  (length tokens ≤ p')%nat.
Proof.
  revert root p. induction fuel as [|fuel IH]; intros root p Hp; [done|].
  parse_inversion Hp; try by eapply IH.
  injection Hp as _ <-. by apply lookup_ge_None.
Qed.

(** X8. A parse that returns has consumed every token: parseProgram
    leaves the cursor at the end of the token array. No parsing method
    moves the cursor backwards, and none moves a cursor that is not past
    the end of the tokens past the end: this holds of consume and
    tryConsume and of every method from parseProgram down to
    parsePrimaryFactor. *)
Theorem parseProgram_consumes_all (fuel : nat) :
  (∀ root p',
     parseProgram tokens fuel 0%nat = Ok (root, p') → p' = length tokens)
  ∧ (∀ type value, advances (consume tokens type value))
  ∧ (∀ type value, advances (tryConsume tokens type value))
  ∧ advances (parseProgram tokens fuel)
  ∧ advances (parsePreprocessorDirective tokens)
  ∧ advances (parseTypeDeclaration tokens fuel)
  ∧ advancesWith (parseFunctionDefinition tokens fuel)
  ∧ advances (parseCompoundStatement tokens fuel)
  ∧ advancesWith (parseVariableDeclaration tokens fuel)
  ∧ advances (parseControlFlowStatement tokens fuel)
  ∧ advances (parseIfStatement tokens fuel)
  ∧ advances (parseForStatement tokens fuel)
  ∧ advances (parseWhileStatement tokens fuel)
  ∧ advances (parseReturnStatement tokens fuel)
  ∧ advances (parseExpressionStatement tokens fuel)
  ∧ advances (parseExpression tokens fuel)
  ∧ advances (parseAssignment tokens fuel)
  ∧ advances (parseLogicalExpression tokens fuel)
  ∧ advances (parseRelationalExpression tokens fuel)
  ∧ advances (parseAdditiveExpression tokens fuel)
  ∧ advances (parseMultiplicativeExpression tokens fuel)
  ∧ advances (parseUnaryExpression tokens fuel)
  ∧ advances (parsePrimaryFactor tokens fuel).
Proof.
  split.
  { unfold parseProgram. intros root p' Hp.
    pose proof (programLoop_ends _ _ _ _ _ Hp).
    apply programLoop_advances in Hp. lia. }
  split; [apply consume_advances|]. split; [apply tryConsume_advances|].
  split; [apply programLoop_advances|].
  split; [apply preprocessorDirective_advances|].
  split; [apply typeDeclaration_advances|].
  split; [apply functionDefinition_advances|].
  split; [apply statements_advance|].
  split; [apply variableDeclaration_advances|].
  split; [apply statements_advance|]. split; [apply statements_advance|].
  split; [apply statements_advance|]. split; [apply statements_advance|].
  split; [apply returnStatement_advances|].
  split; [apply expressionStatement_advances|].
  destruct (expressions_advance fuel)
    as (He & Ha & Hl & _ & Hr & _ & Had & _ & Hm & _ & Hu & Hp & _).
  done.
Qed.

End Cursor.

Lemma parseProgram_consumes_all_witness :
  ∃ root, parseProgram declarationTokens 5 0%nat = Ok (root, 3%nat).
Proof.
  destruct (parseProgram declarationTokens 5 0%nat) as [[root p']| |]
    eqn:Hprogram; [|by vm_compute in Hprogram..].
  exists root.
  destruct (parseProgram_consumes_all declarationTokens 5) as [Hends _].
  by rewrite (Hends root p' Hprogram).
Defined.

From Stdlib Require Import Sorted.

(** ** The tokenizer *)

Section Strings.

Lemma length_drop (n : nat) (s : string) :
  String.length (Js.drop n s) = (String.length s - n)%nat.
Proof.
  revert s. induction n as [|n IH]; intros [|c s]; simpl; by try lia.
Qed.

Lemma length_take (n : nat) (s : string) :
  String.length (Js.take n s) = Nat.min n (String.length s).
Proof.
  revert s. induction n as [|n IH]; intros [|c s]; simpl; try done.
  by rewrite IH.
Qed.

Lemma length_takeWhile (f : ascii → bool) (s : string) :
  (String.length (Js.takeWhile f s) ≤ String.length s)%nat.
Proof.
  induction s as [|c s IH]; simpl; [done|].
  destruct (f c); simpl; lia.
Qed.

Lemma startsWith_length (s prefix : string) :
  Js.startsWith s prefix = true →
  (String.length prefix ≤ String.length s)%nat.
Proof.
  unfold Js.startsWith. revert s.
  induction prefix as [|c prefix IH]; intros [|d s]; simpl; try done; try lia.
  destruct (ascii_dec c d); [|done]. intros H%IH. lia.
Qed.

Lemma drop_drop (n m : nat) (s : string) :
  Js.drop n (Js.drop m s) = Js.drop (m + n) s.
Proof.
  revert s. induction m as [|m IH]; intros s; simpl; [done|].
  destruct s as [|c s]; [by destruct n|]. apply IH.
Qed.

Lemma drop_beyond (n : nat) (s : string) :
  (String.length s ≤ n)%nat → Js.drop n s = "".
Proof.
  revert s. induction n as [|n IH]; intros [|c s]; simpl; try done; try lia.
  intros H. apply IH. lia.
Qed.

End Strings.

Module LexerFacts.
Import Lexer.

#[local] Arguments Js.drop : simpl never.
#[local] Arguments Js.take : simpl never.
#[local] Arguments Js.startsWith : simpl never.

Lemma run_length (f : ascii → bool) (s : string) :
  (run f s ≤ String.length s)%nat.
Proof. apply length_takeWhile. Qed.

Lemma findCommentEnd_length (s : string) (n : nat) :
  findCommentEnd s = Some n → (n + 2 ≤ String.length s)%nat.
Proof.
  revert n. induction s as [|c s IH]; intros n.
  - by cbn.
  - cbn [findCommentEnd].
    destruct (Js.startsWith (String c s) "*/") eqn:Hstarts.
    + intros [= <-]. by apply startsWith_length in Hstarts.
    + destruct (findCommentEnd s) as [k|]; [|done].
      intros [= <-]. specialize (IH k eq_refl). simpl. lia.
Qed.

Lemma matchComment_length (s : string) (n : nat) :
  matchComment s = Some n → (1 ≤ n ≤ String.length s)%nat.
Proof.
  unfold matchComment.
  destruct (Js.startsWith s "//") eqn:Hline.
  - intros [= <-]. apply startsWith_length in Hline.
    pose proof (run_length (λ c, negb (Ascii.eqb c Js.newline)) (Js.drop 2 s)).
    rewrite length_drop in *. simpl in Hline. lia.
  - destruct (Js.startsWith s "/*") eqn:Hblock; [|done].
    destruct (findCommentEnd (Js.drop 2 s)) as [k|] eqn:Hend; [|done].
    intros [= <-]. apply findCommentEnd_length in Hend.
    rewrite length_drop in Hend. lia.
Qed.

Lemma matchDecimal_length (s : string) (n : nat) :
  matchDecimal s = Some n → (1 ≤ n ≤ String.length s)%nat.
Proof.
  unfold matchDecimal.
  destruct (_ && _) eqn:Hpoint; [|done].
  apply andb_prop in Hpoint as [Hdigits%Nat.ltb_lt Hpoint%startsWith_length].
  destruct (0 <? _)%nat; [|done]. intros [= <-].
  pose proof (run_length Js.isDigit (Js.drop (run Js.isDigit s + 1) s)).
  rewrite length_drop in *. simpl in Hpoint. lia.
Qed.

Lemma matchInteger_length (s : string) (n : nat) :
  matchInteger s = Some n → (1 ≤ n ≤ String.length s)%nat.
Proof.
  unfold matchInteger. destruct (0 <? _)%nat eqn:Hdigits; [|done].
  apply Nat.ltb_lt in Hdigits. intros [= <-].
  pose proof (run_length Js.isDigit s). lia.
Qed.

Lemma matchHex_length (s : string) (n : nat) :
  matchHex s = Some n → (1 ≤ n ≤ String.length s)%nat.
Proof.
  unfold matchHex. destruct (Js.startsWith s "0x") eqn:Hprefix; [|done].
  destruct (0 <? _)%nat; [|done]. intros [= <-].
  apply startsWith_length in Hprefix.
  pose proof (run_length Js.isHexDigit (Js.drop 2 s)).
  rewrite length_drop in *. simpl in Hprefix. lia.
Qed.

Lemma matchNumber_length (s : string) (n : nat) :
  matchNumber s = Some n → (1 ≤ n ≤ String.length s)%nat.
Proof.
  unfold matchNumber, orElse.
  destruct (matchDecimal s) eqn:Hdecimal.
  { intros [= <-]. by apply matchDecimal_length. }
  destruct (matchInteger s) eqn:Hinteger.
  { intros [= <-]. by apply matchInteger_length. }
  apply matchHex_length.
Qed.

Lemma quotedBody_bounded (q : ascii) (k : nat) (s : string) (n : nat) :
  (String.length s ≤ k)%nat →
  quotedBody q s = Some n → (1 ≤ n ≤ String.length s)%nat.
Proof.
  revert s n. induction k as [|k IH]; intros [|c s] n Hk; try done.
  { simpl in Hk. lia. }
  cbn [quotedBody]. simpl in Hk.
  destruct (Ascii.eqb c q). { intros [= <-]. simpl. lia. }
  destruct (Ascii.eqb c Js.backslash).
  - destruct s as [|d s]; [done|].
    destruct (Js.isLineTerminator d); [done|].
    destruct (quotedBody q s) as [m|] eqn:Hrest; [|done].
    intros [= <-]. apply IH in Hrest; simpl in *; lia.
  - destruct (quotedBody q s) as [m|] eqn:Hrest; [|done].
    intros [= <-]. apply IH in Hrest; simpl; lia.
Qed.

Lemma quotedBody_length (q : ascii) (s : string) (n : nat) :
  quotedBody q s = Some n → (1 ≤ n ≤ String.length s)%nat.
Proof. by apply (quotedBody_bounded q (String.length s)). Qed.

Lemma matchQuoted_length (s : string) (n : nat) :
  matchQuoted s = Some n → (1 ≤ n ≤ String.length s)%nat.
Proof.
  unfold matchQuoted. destruct s as [|c s]; [done|].
  destruct (_ || _); [|done].
  destruct (quotedBody c s) as [k|] eqn:Hbody; [|done].
  intros [= <-]. apply quotedBody_length in Hbody. simpl. lia.
Qed.

Lemma startsWith_shorter (s prefix more : string) :
  Js.startsWith s (prefix +:+ more) = true → Js.startsWith s prefix = true.
Proof.
  unfold Js.startsWith. revert s.
  induction prefix as [|c prefix IH]; intros [|d s]; simpl; try done.
  destruct (ascii_dec c d); [|done]. apply IH.
Qed.

(** An operator is one or two characters long: the two operators of
    three characters come after their first two characters in the
    pattern. *)
Lemma matchOperator_length (s : string) (n : nat) :
  matchOperator s = Some n → (1 ≤ n ≤ 2 ∧ n ≤ String.length s)%nat.
Proof.
  unfold matchOperator, longOperators. cbn [find].
  repeat
    match goal with
    | |- context [if Js.startsWith s ?o then _ else _] =>
        let H := fresh "H" in
        destruct (Js.startsWith s o) eqn:H;
        [ intros [= <-];
          first
            [ pose proof (startsWith_length _ _ H); simpl in *; lia
            | exfalso;
              match goal with
              | Hf : Js.startsWith s ?p = false |- _ =>
                  rewrite (startsWith_shorter s p "=") in Hf;
                  [discriminate Hf | exact H]
              end ]
        | ]
    end.
  destruct s as [|c s]; [done|].
  destruct (inString c operatorChars); [|done].
  intros [= <-]. simpl. lia.
Qed.

Lemma matchWord_length (s : string) (n : nat) :
  matchWord s = Some n → (1 ≤ n ≤ String.length s)%nat.
Proof.
  unfold matchWord. destruct (0 <? _)%nat eqn:Hword; [|done].
  apply Nat.ltb_lt in Hword. intros [= <-].
  pose proof (run_length Js.isWordChar s). lia.
Qed.

Lemma matchHere_length (s : string) (g : Group) (n : nat) :
  matchHere s = Some (g, n) → (1 ≤ n ≤ String.length s)%nat.
Proof.
  unfold matchHere, orElse.
  destruct (matchComment s) as [k|] eqn:Hcomment; simpl.
  { intros [= _ <-]. by apply matchComment_length. }
  destruct (matchNumber s) as [k|] eqn:Hnumber; simpl.
  { intros [= _ <-]. by apply matchNumber_length. }
  destruct (matchQuoted s) as [k|] eqn:Hquoted; simpl.
  { intros [= _ <-]. by apply matchQuoted_length. }
  destruct (matchOperator s) as [k|] eqn:Hoperator; simpl.
  { intros [= _ <-]. apply matchOperator_length in Hoperator. lia. }
  destruct (matchWord s) as [k|] eqn:Hword; simpl; [|done].
  intros [= _ <-]. by apply matchWord_length.
Qed.

(** What a search finds: a non-empty match that lies in the text
    searched. *)
Lemma search_bounds (s : string) (i : nat) (m : Match) :
  search s i = Some m →
  (i ≤ index m)%nat
  ∧ (1 ≤ String.length (matched m))%nat
  ∧ (index m + String.length (matched m) ≤ i + String.length s)%nat.
Proof.
  revert i. induction s as [|c s IH]; intros i; cbn [search].
  - destruct (matchHere "") as [[g n]|] eqn:Hhere; [|done].
    apply matchHere_length in Hhere. simpl in Hhere. lia.
  - destruct (matchHere (String c s)) as [[g n]|] eqn:Hhere.
    + intros [= <-]. apply matchHere_length in Hhere.
      cbn [index matched]. rewrite length_take. lia.
    + intros H%IH. simpl. lia.
Qed.

Lemma exec_bounds (code : string) (lastIndex : nat) (m : Match) :
  exec code lastIndex = Some m →
  (lastIndex ≤ index m)%nat
  ∧ (1 ≤ String.length (matched m))%nat
  ∧ (index m + String.length (matched m) ≤ String.length code)%nat.
Proof.
  unfold exec. intros H.
  destruct (decide (lastIndex ≤ String.length code)%nat) as [Hle|Hgt].
  - apply search_bounds in H. rewrite length_drop in H. lia.
  - rewrite drop_beyond in H by lia.
    apply search_bounds in H. simpl in H. lia.
Qed.

(** The loop over the matches ends: a match is at least one character
    long, so the loop runs at most once per character of the text. *)
Lemma matchLoop_ends (fuel : nat) (code : string) (newlinePositions : list nat)
    (directivePositions : list Span) (lastIndex : nat) (tokens : list Token.t) :
  (String.length code - lastIndex < fuel)%nat →
  ∃ tokens',
    matchLoop fuel code newlinePositions directivePositions lastIndex tokens
    = Some tokens'.
Proof.
  revert lastIndex tokens.
  induction fuel as [|fuel IH]; intros lastIndex tokens Hfuel; [lia|].
  cbn [matchLoop].
  destruct (exec code lastIndex) as [m|] eqn:Hexec; [|by eexists].
  apply exec_bounds in Hexec.
  destruct (isWithinDirective _ _); [apply IH; lia|].
  destruct (group m); try (apply IH; lia).
  all: destruct (getLineColumnFromPos _ _) as [line column];
    destruct (Js.truthy _); apply IH; lia.
Qed.

(** The result of the loop does not depend on the fuel, once there is
    enough of it. *)
Lemma matchLoop_fuel (fuel fuel' : nat) (code : string)
    (newlinePositions : list nat) (directivePositions : list Span)
    (lastIndex : nat) (tokens tokens' : list Token.t) :
  (fuel ≤ fuel')%nat →
  matchLoop fuel code newlinePositions directivePositions lastIndex tokens
  = Some tokens' →
  matchLoop fuel' code newlinePositions directivePositions lastIndex tokens
  = Some tokens'.
Proof.
  revert fuel' lastIndex tokens.
  induction fuel as [|fuel IH]; intros fuel' lastIndex tokens Hfuel; [done|].
  destruct fuel' as [|fuel']; [lia|]. cbn [matchLoop].
  destruct (exec code lastIndex) as [m|]; [|done].
  destruct (isWithinDirective _ _); [apply IH; lia|].
  destruct (group m); try (apply IH; lia).
  all: destruct (getLineColumnFromPos _ _) as [line column];
    destruct (Js.truthy _); apply IH; lia.
Qed.

End LexerFacts.

(** X9. The tokenizer rejects no text: the loop over the matches ends
    for every text, after at most one iteration per character, and
    tokenize returns a list of tokens; more iterations allowed do not
    change it. *)
Theorem tokenize_returns (code : string) :
  ∃ tokens,
    Lexer.tokenize code = Some tokens
    ∧ ∀ fuel, (String.length code < fuel)%nat →
              Lexer.tokenizeWith fuel code = Some tokens.
Proof.
  unfold Lexer.tokenize, Lexer.tokenizeWith.
  destruct (LexerFacts.matchLoop_ends (S (String.length code)) code
              (Lexer.newlinesFrom code 0)
              ((λ d, Lexer.mkSpan (Lexer.start d)
                       (Lexer.start d + String.length (Lexer.text d)))
                 <$> Lexer.collectDirectives code (Js.splitLines code) 0)
              0
              (Lexer.collectDirectives code (Js.splitLines code) 0
                 ≫= Lexer.directiveTokens (Lexer.newlinesFrom code 0)))
    as [tokens Hloop]; [lia|].
  exists (Lexer.sortTokens tokens). rewrite Hloop. split; [done|].
  intros fuel Hfuel.
  by rewrite (LexerFacts.matchLoop_fuel (S (String.length code)) fuel _ _ _ _ _
                tokens ltac:(lia) Hloop).
Qed.

Module LexerTokens.
Import Lexer.

#[local] Arguments Js.drop : simpl never.
#[local] Arguments Js.take : simpl never.
#[local] Arguments Js.startsWith : simpl never.

(** What a search finds is a match of the pattern at its index. *)
Lemma search_match (s : string) (i : nat) (m : Match) :
  search s i = Some m →
  ∃ k n,
    index m = (i + k)%nat
    ∧ matchHere (Js.drop k s) = Some (group m, n)
    ∧ matched m = Js.take n (Js.drop k s).
Proof.
  revert i. induction s as [|c s IH]; intros i; cbn [search].
  - destruct (matchHere "") as [[g n]|] eqn:Hhere; [|done].
    intros [= <-]. exists 0%nat, n. by rewrite Nat.add_0_r.
  - destruct (matchHere (String c s)) as [[g n]|] eqn:Hhere.
    + intros [= <-]. exists 0%nat, n. by rewrite Nat.add_0_r.
    + intros (k & n & Hindex & Hmatch & Hmatched)%IH.
      exists (S k), n. split; [lia|done].
Qed.

Lemma exec_match (code : string) (lastIndex : nat) (m : Match) :
  exec code lastIndex = Some m →
  ∃ n,
    (lastIndex ≤ index m)%nat
    ∧ matchHere (Js.drop (index m) code) = Some (group m, n)
    ∧ matched m = Js.take n (Js.drop (index m) code).
Proof.
  unfold exec. intros (k & n & -> & Hmatch & Hmatched)%search_match.
  rewrite drop_drop in Hmatch, Hmatched. exists n. split; [lia|done].
Qed.

(** A property of the tokens made of the matches holds for all the
    tokens of the loop. *)
Lemma matchLoop_Forall (P : Token.t → Prop) (fuel : nat) (code : string)
    (newlinePositions : list nat) (directivePositions : list Span)
    (lastIndex : nat) (tokens tokens' : list Token.t) :
  (∀ lastIndex m,
     exec code lastIndex = Some m →
     isWithinDirective (index m) directivePositions = false →
     group m ≠ Comment →
     classify (group m) (matched m) ≠ "" →
     P (Token.mk (classify (group m) (matched m)) (matched m)
          (getLineColumnFromPos (index m) newlinePositions).1
          (getLineColumnFromPos (index m) newlinePositions).2)) →
  Forall P tokens →
  matchLoop fuel code newlinePositions directivePositions lastIndex tokens
  = Some tokens' →
  Forall P tokens'.
Proof.
  intros Hmatch. revert lastIndex tokens tokens'.
  induction fuel as [|fuel IH]; intros lastIndex tokens tokens' Htokens;
    [done|].
  cbn [matchLoop].
  destruct (exec code lastIndex) as [m|] eqn:Hexec; [|by intros [= <-]].
  destruct (isWithinDirective _ _) eqn:Hdirective; [by apply IH|].
  specialize (Hmatch lastIndex m Hexec Hdirective).
  destruct (getLineColumnFromPos _ _) as [line column].
  assert (∀ tokens'',
            (if Js.truthy (Some (classify (group m) (matched m)))
             then matchLoop fuel code newlinePositions directivePositions
                    (index m + String.length (matched m))
                    (tokens ++ [Token.mk (classify (group m) (matched m))
                                  (matched m) line column])
             else matchLoop fuel code newlinePositions directivePositions
                    (index m + String.length (matched m)) tokens)
            = Some tokens'' →
            group m ≠ Comment → Forall P tokens'') as Hstep.
  { intros tokens'' Hloop Hgroup. unfold Js.truthy in Hloop.
    destruct (String.eqb_spec (classify (group m) (matched m)) "") as [|Hkind];
      simpl in Hloop; [by eapply IH|].
    eapply IH; [|done]. apply Forall_app. split; [done|].
    constructor; [|done]. by apply Hmatch. }
  destruct (group m) eqn:Hgroup; [by apply IH|..];
    intros Hloop; by apply Hstep.
Qed.

(** The final sort permutes the tokens. *)
Lemma insertToken_Permutation (a : Token.t) (sorted : list Token.t) :
  insertToken a sorted ≡ₚ a :: sorted.
Proof.
  induction sorted as [|b rest IH]; simpl; [done|].
  destruct (_ <=? _); [done|]. rewrite IH. apply Permutation_swap.
Qed.

Lemma sortTokens_Permutation (tokens : list Token.t) :
  sortTokens tokens ≡ₚ tokens.
Proof.
  induction tokens as [|a tokens IH]; simpl; [done|].
  by rewrite insertToken_Permutation, IH.
Qed.

(** A property of the tokens of the directives and of the tokens made of
    the matches holds for all the tokens of the tokenizer. *)
Lemma tokenize_Forall (P : Token.t → Prop) (code : string)
    (tokens : list Token.t) :
  (∀ newlinePositions directive,
     Forall P (directiveTokens newlinePositions directive)) →
  (∀ lastIndex m line column,
     exec code lastIndex = Some m →
     group m ≠ Comment →
     classify (group m) (matched m) ≠ "" →
     P (Token.mk (classify (group m) (matched m)) (matched m) line column)) →
  tokenize code = Some tokens →
  Forall P tokens.
Proof.
  intros Hdirective Hmatch. unfold tokenize, tokenizeWith.
  destruct (matchLoop _ _ _ _ _ _) as [tokens'|] eqn:Hloop; [|done].
  intros [= <-]. rewrite sortTokens_Permutation.
  eapply matchLoop_Forall; [|
    |exact Hloop].
  - intros lastIndex m Hexec _. by apply (Hmatch lastIndex).
  - apply Forall_bind, Forall_forall. intros directive _. apply Hdirective.
Qed.

End LexerTokens.

(** The kinds of token. *)
Definition tokenKinds : list string :=
  ["keyword"; "identifier"; "function"; "operator"; "punctuation"; "literal";
   "preprocessor"].

(** A token bears one of the seven kinds; a keyword token bears a
    keyword, and a function token the name of a function of the standard
    library. *)
Definition classified (t : Token.t) : Prop :=
  Token.type t ∈ tokenKinds
  ∧ (Token.type t = "keyword" → Token.value t ∈ Lexer.keywords)
  ∧ (Token.type t = "function" → Token.value t ∈ Lexer.stdFunctions).

Lemma includes_elem_of (l : list string) (s : string) :
  Lexer.includes l s = true → s ∈ l.
Proof.
  unfold Lexer.includes. intros (x & Hin & Heq%String.eqb_eq)%existsb_exists.
  subst x. by apply list_elem_of_In.
Qed.

Lemma classify_classified (g : Lexer.Group) (value : string) (line column : Z) :
  Lexer.classify g value ≠ "" →
  classified (Token.mk (Lexer.classify g value) value line column).
Proof.
  unfold classified, tokenKinds. cbn [Token.type Token.value].
  destruct g; cbn [Lexer.classify]; intros Hkind.
  - done.
  - split; [set_solver|done].
  - split; [set_solver|done].
  - destruct (_ || _); [split; [set_solver|done]|].
    destruct (Lexer.isTokenOfType value "punctuation"); [|done].
    split; [set_solver|done].
  - destruct (Lexer.isTokenOfType value "keyword") eqn:Hkeyword.
    { split; [set_solver|]. split; [|done].
      intros _. by apply includes_elem_of. }
    destruct (Lexer.isTokenOfType value "stdFunction") eqn:Hfunction.
    { split; [set_solver|]. split; [done|].
      intros _. by apply includes_elem_of. }
    split; [set_solver|done].
Qed.

(** The kinds of the tokens of a directive. *)
Definition directiveKinds : list string :=
  ["preprocessor"; "punctuation"; "identifier"; "literal"].

Lemma directiveTokens_kinds (newlinePositions : list nat)
    (directive : Lexer.Directive) :
  Forall (λ t, Token.type t ∈ directiveKinds)
    (Lexer.directiveTokens newlinePositions directive).
Proof.
  unfold Lexer.directiveTokens, directiveKinds.
  destruct (Lexer.getLineColumnFromPos _ _) as [line column].
  apply Forall_app. split.
  { constructor; [simpl; set_solver|constructor]. }
  repeat
    match goal with
    | |- Forall _ (if ?b then _ else _) => destruct b
    | |- Forall _ (match ?l with _ => _ end) => destruct l
    | |- Forall _ [] => constructor
    | |- Forall _ (_ :: _) => constructor; [simpl; set_solver|]
    end.
Qed.

Lemma directiveTokens_classified (newlinePositions : list nat)
    (directive : Lexer.Directive) :
  Forall classified (Lexer.directiveTokens newlinePositions directive).
Proof.
  eapply Forall_impl; [apply directiveTokens_kinds|].
  intros [kind value line column]. unfold directiveKinds, classified. simpl.
  rewrite !elem_of_cons, elem_of_nil.
  intros [->|[->|[->|[->|[]]]]]; (split; [unfold tokenKinds; set_solver|done]).
Qed.

(** X10. Every token of the tokenizer bears one of the seven kinds; the
    text of a keyword token is one of the keywords and the text of a
    function token one of the names of the standard library. *)
Theorem tokenize_classified (code : string) (tokens : list Token.t) :
  Lexer.tokenize code = Some tokens → Forall classified tokens.
Proof.
  apply LexerTokens.tokenize_Forall.
  - apply directiveTokens_classified.
  - intros _ m line column _ _. apply classify_classified.
Qed.

Lemma tokenize_classified_witness :
  Forall classified
    [Token.mk "keyword" "int" 1 1; Token.mk "identifier" "x" 1 5;
     Token.mk "punctuation" ";" 1 6].
Proof. by apply (tokenize_classified "int x;"). Defined.

(** The keyword tokens of the tokenizer are what the parser takes them
    for. *)
Lemma tokenize_keywordTokens (code : string) (tokens : list Token.t) :
  Lexer.tokenize code = Some tokens → keywordTokens tokens.
Proof.
  unfold keywordTokens. apply LexerTokens.tokenize_Forall.
  - intros newlinePositions directive.
    eapply Forall_impl; [apply directiveTokens_classified|].
    by intros t (_ & Hkeyword & _).
  - intros _ m line column _ _ Hkind.
    by apply (classify_classified _ _ line column) in Hkind
      as (_ & Hkeyword & _).
Qed.

Lemma matchHere_operator (s : string) (n : nat) :
  Lexer.matchHere s = Some (Lexer.Operator, n) →
  Lexer.matchOperator s = Some n.
Proof.
  unfold Lexer.matchHere, Lexer.orElse.
  destruct (Lexer.matchComment s); [done|].
  destruct (Lexer.matchNumber s); [done|].
  destruct (Lexer.matchQuoted s); [done|]. simpl.
  destruct (Lexer.matchOperator s); simpl; [by intros [= <-]|].
  by destruct (Lexer.matchWord s).
Qed.

Lemma classify_operator (g : Lexer.Group) (value : string) :
  Lexer.classify g value = "operator" → g = Lexer.Operator.
Proof.
  destruct g; cbn [Lexer.classify]; try done.
  by repeat destruct (Lexer.isTokenOfType _ _).
Qed.

(** X11. An operator token is one or two characters long: the
    assignment operators of three characters, which the pattern lists
    after the shift operators they start with, are never tokens. *)
Theorem tokenize_operator_length (code : string) (tokens : list Token.t) :
  Lexer.tokenize code = Some tokens →
  Forall (λ t, Token.type t = "operator" →
               (1 ≤ String.length (Token.value t) ≤ 2)%nat) tokens.
Proof.
  apply LexerTokens.tokenize_Forall.
  - intros newlinePositions directive.
    eapply Forall_impl; [apply directiveTokens_kinds|].
    intros t Hkind Hoperator. simpl in Hkind. rewrite Hoperator in Hkind.
    unfold directiveKinds in Hkind.
    rewrite !elem_of_cons, elem_of_nil in Hkind.
    by destruct Hkind as [?|[?|[?|[?|[]]]]].
  - intros lastIndex m line column Hexec _ _. cbn [Token.type Token.value].
    intros Hgroup%classify_operator.
    apply LexerTokens.exec_match in Hexec as (n & _ & Hmatch & ->).
    rewrite Hgroup in Hmatch. apply matchHere_operator in Hmatch.
    pose proof (LexerFacts.matchOperator_length _ _ Hmatch).
    rewrite length_take. lia.
Qed.

Lemma tokenize_operator_length_witness :
  Forall (λ t, Token.type t = "operator" →
               (1 ≤ String.length (Token.value t) ≤ 2)%nat)
    [Token.mk "identifier" "a" 1 1; Token.mk "operator" "<<" 1 3;
     Token.mk "operator" "=" 1 5; Token.mk "literal" "1" 1 7;
     Token.mk "punctuation" ";" 1 8].
Proof. by apply (tokenize_operator_length "a <<= 1;"). Defined.


(** The order of the positions in the text: by line, then by column. *)
Definition positionLe (a b : Token.t) : Prop :=
  Token.line a < Token.line b
  ∨ (Token.line a = Token.line b ∧ Token.column a ≤ Token.column b).

Lemma compareTokens_le (a b : Token.t) :
  Lexer.compareTokens a b ≤ 0 ↔ positionLe a b.
Proof.
  unfold Lexer.compareTokens, positionLe.
  destruct (Z.eqb_spec (Token.line a) (Token.line b)); simpl; lia.
Qed.

Lemma positionLe_trans (a b c : Token.t) :
  positionLe a b → positionLe b c → positionLe a c.
Proof. unfold positionLe. lia. Qed.

Lemma positionLe_total (a b : Token.t) : positionLe a b ∨ positionLe b a.
Proof. unfold positionLe. lia. Qed.

Lemma insertToken_sorted (a : Token.t) (sorted : list Token.t) :
  StronglySorted positionLe sorted →
  StronglySorted positionLe (Lexer.insertToken a sorted).
Proof.
  induction sorted as [|b rest IH]; intros Hsorted; simpl.
  { by repeat constructor. }
  destruct (Z.leb_spec (Lexer.compareTokens a b) 0) as [Hle|Hgt].
  - apply compareTokens_le in Hle. constructor; [done|].
    constructor; [done|]. apply StronglySorted_inv in Hsorted as [_ Hrest].
    eapply Forall_impl; [done|]. intros c. by apply positionLe_trans.
  - apply StronglySorted_inv in Hsorted as [Hsorted Hrest].
    constructor; [by apply IH|].
    rewrite LexerTokens.insertToken_Permutation. constructor; [|done].
    destruct (positionLe_total a b) as [Hab|Hba]; [|done].
    apply compareTokens_le in Hab. lia.
Qed.

Lemma sortTokens_sorted (tokens : list Token.t) :
  StronglySorted positionLe (Lexer.sortTokens tokens).
Proof.
  induction tokens as [|a tokens IH]; simpl; [constructor|].
  by apply insertToken_sorted.
Qed.

(** X12. The tokens of the tokenizer are in the order of the text: a
    token is on an earlier line than the tokens after it, or on the same
    line at a column that is not greater. *)
Theorem tokenize_sorted (code : string) (tokens : list Token.t) :
  Lexer.tokenize code = Some tokens → StronglySorted positionLe tokens.
Proof.
  unfold Lexer.tokenize, Lexer.tokenizeWith.
  destruct (Lexer.matchLoop _ _ _ _ _ _) as [tokens'|]; [|done].
  intros [= <-]. apply sortTokens_sorted.
Qed.

Lemma tokenize_sorted_witness :
  StronglySorted positionLe
    [Token.mk "keyword" "int" 1 1; Token.mk "identifier" "x" 1 5;
     Token.mk "punctuation" ";" 1 6; Token.mk "preprocessor" "#define" 2 1;
     Token.mk "identifier" "N" 2 9; Token.mk "literal" "3" 2 11].
Proof.
  by apply (tokenize_sorted ("int x;" +:+ String Js.newline "#define N 3")).
Defined.

(** Every character of a string is of a class. *)
Fixpoint allChars (f : ascii → bool) (s : string) : bool :=
  match s with
  | EmptyString => true
  | String c s' => f c && allChars f s'
  end.

(** The characters of which no token is made: they start no match of
    the pattern and no directive. These are the white space, the
    characters [@], [$], the backquote and the backslash, the control
    characters and the characters that are not ASCII. *)
Definition startsNoToken (c : ascii) : bool :=
  negb (Js.isWordChar c
        || Lexer.inString c Lexer.operatorChars
        || Ascii.eqb c (ascii_of_N 34)
        || Ascii.eqb c (ascii_of_N 39)
        || Ascii.eqb c (ascii_of_N 35)).

Module LexerDropped.
Import Lexer.

Lemma allChars_consHead (f : ascii → bool) (c : ascii) (pieces : list string) :
  f c = true → Forall (λ l, allChars f l = true) pieces →
  Forall (λ l, allChars f l = true) (Js.consHead c pieces).
Proof.
  intros Hc Hpieces. destruct Hpieces as [|piece rest Hpiece Hrest]; simpl.
  - constructor; [|done]. simpl. by rewrite Hc.
  - constructor; [|done]. simpl. by rewrite Hc.
Qed.

Lemma allChars_splitLines (f : ascii → bool) (s : string) :
  allChars f s = true → Forall (λ l, allChars f l = true) (Js.splitLines s).
Proof.
  induction s as [|c s IH]; simpl.
  { by repeat constructor. }
  intros [Hc Hs]%andb_prop. destruct (Ascii.eqb c Js.newline).
  - constructor; [done|by apply IH].
  - apply allChars_consHead; [done|by apply IH].
Qed.

Lemma allChars_dropWhile (f g : ascii → bool) (s : string) :
  allChars f s = true → allChars f (Js.dropWhile g s) = true.
Proof.
  induction s as [|c s IH]; simpl; [done|].
  intros H. destruct (g c); [|done].
  apply andb_prop in H as [_ H]. by apply IH.
Qed.

Lemma allChars_trimEnd (f : ascii → bool) (s : string) :
  allChars f s = true → allChars f (Js.trimEnd s) = true.
Proof.
  induction s as [|c s IH]; simpl; [done|].
  intros [Hc Hs]%andb_prop. destruct (_ && _); [done|].
  simpl. by rewrite Hc, IH.
Qed.

Lemma allChars_trim (f : ascii → bool) (s : string) :
  allChars f s = true → allChars f (Js.trim s) = true.
Proof. intros H. by apply allChars_trimEnd, allChars_dropWhile. Qed.

Lemma startsWith_first (c d : ascii) (s prefix : string) :
  Js.startsWith (String c s) (String d prefix) = true → c = d.
Proof.
  unfold Js.startsWith. simpl. by destruct (ascii_dec d c).
Qed.

Lemma allChars_no_directive (s : string) :
  allChars startsNoToken s = true → Js.startsWith s "#" = false.
Proof.
  destruct s as [|c s]; [done|]. simpl. intros [Hc _]%andb_prop.
  destruct (Js.startsWith (String c s) "#") eqn:Hstarts; [|done].
  apply startsWith_first in Hstarts as ->. by vm_compute in Hc.
Qed.

Lemma collectDirectives_none (code : string) (lines : list string) (i : nat) :
  Forall (λ l, allChars startsNoToken l = true) lines →
  collectDirectives code lines i = [].
Proof.
  intros Hlines. revert i.
  induction Hlines as [|l lines Hl Hlines IH]; intros i; simpl; [done|].
  by rewrite (allChars_no_directive (Js.trim l)), IH by by apply allChars_trim.
Qed.

Lemma run_first (f : ascii → bool) (c : ascii) (s : string) :
  f c = false → run f (String c s) = 0%nat.
Proof. intros H. unfold run. simpl. by rewrite H. Qed.

(** No alternative of the pattern matches at such a character. *)
Lemma matchHere_none (c : ascii) (s : string) :
  startsNoToken c = true → matchHere (String c s) = None.
Proof.
  unfold startsNoToken. rewrite !negb_true_iff, !orb_false_iff.
  intros ((((Hword & Hoperator) & Hquote) & Hapostrophe) & _).
  assert (∀ d prefix,
            inString d operatorChars = true →
            Js.startsWith (String c s) (String d prefix) = false) as Hfirst.
  { intros d prefix Hd.
    destruct (Js.startsWith _ _) eqn:Hstarts; [|done].
    apply startsWith_first in Hstarts as ->. congruence. }
  assert (Js.isDigit c = false) as Hdigit.
  { unfold Js.isWordChar in Hword. rewrite !orb_false_iff in Hword. tauto. }
  assert (Js.startsWith (String c s) "0x" = false) as Hhex.
  { destruct (Js.startsWith _ _) eqn:Hstarts; [|done].
    apply startsWith_first in Hstarts as ->. by vm_compute in Hdigit. }
  unfold matchHere, matchComment, matchNumber, matchDecimal, matchInteger,
    matchHex, matchQuoted, matchOperator, matchWord, longOperators.
  cbn [find].
  rewrite Hhex. rewrite !Hfirst by done. rewrite !run_first by done.
  by rewrite Hquote, Hapostrophe, Hoperator.
Qed.

Lemma search_none (s : string) (i : nat) :
  allChars startsNoToken s = true → search s i = None.
Proof.
  revert i. induction s as [|c s IH]; intros i; [done|].
  simpl. intros [Hc Hs]%andb_prop.
  rewrite (matchHere_none c s Hc). by apply IH.
Qed.

Lemma allChars_drop (f : ascii → bool) (n : nat) (s : string) :
  allChars f s = true → allChars f (Js.drop n s) = true.
Proof.
  revert s. induction n as [|n IH]; intros [|c s]; simpl; try done.
  intros [_ Hs]%andb_prop. by apply IH.
Qed.

End LexerDropped.

(** X13. A text made only of characters of which no token is made is
    not rejected: the tokenizer drops every character and returns the
    empty list. *)
Theorem tokenize_drops_unrecognized (code : string) :
  allChars startsNoToken code = true →
  Lexer.tokenize code = Some [].
Proof.
  intros Hcode. unfold Lexer.tokenize, Lexer.tokenizeWith.
  rewrite LexerDropped.collectDirectives_none
    by by apply LexerDropped.allChars_splitLines.
  cbn [fmap list_fmap mbind list_bind Lexer.matchLoop].
  unfold Lexer.exec. by rewrite LexerDropped.search_none.
Qed.

Lemma tokenize_drops_unrecognized_witness :
  Lexer.tokenize (" @ $ " +:+ String Js.newline " \ ` ") = Some [].
Proof.
  by apply (tokenize_drops_unrecognized
              (" @ $ " +:+ String Js.newline " \ ` ")).
Defined.

(** The line and the column a reader counts: from [line] and [column],
    over the first [pos] characters of a text, a newline starts a new
    line at column 1 and any other character moves one column to the
    right. *)
Fixpoint lineColumnAt (s : string) (pos : nat) (line column : Z) : Z * Z :=
  match pos, s with
  | S pos', String c s' =>
      if Ascii.eqb c Js.newline then lineColumnAt s' pos' (line + 1) 1
      else lineColumnAt s' pos' line (column + 1)
  | _, _ => (line, column)
  end.

Module LexerLines.
Import Lexer.

(** The loop of getLineColumnFromPos stops after the newlines that are
    before the position. *)
Lemma lineLoop_stops (before rest : list nat) (pos fuel line : nat) :
  Forall (λ x, (x < pos)%nat) before →
  match rest with [] => True | x :: _ => (pos ≤ x)%nat end →
  (line ≤ length before)%nat →
  (length before - line ≤ fuel)%nat →
  lineLoop fuel (before ++ rest) pos line = length before.
Proof.
  intros Hbefore Hrest. revert line.
  induction fuel as [|fuel IH]; intros line Hline Hfuel.
  { simpl. lia. }
  cbn [lineLoop].
  destruct (decide (line = length before)) as [->|Hless].
  - rewrite lookup_app_r, Nat.sub_diag by lia.
    destruct rest as [|x rest]; [done|]. simpl.
    by destruct (Nat.ltb_spec x pos); [lia|].
  - destruct (lookup_lt_is_Some_2 before line) as [x Hx]; [lia|].
    rewrite lookup_app_l, Hx by lia.
    rewrite Forall_lookup in Hbefore. specialize (Hbefore _ _ Hx).
    destruct (Nat.ltb_spec x pos); [|lia]. apply IH; lia.
Qed.

Lemma newlinesFrom_head (s : string) (k : nat) :
  match newlinesFrom s k with [] => True | x :: _ => (k ≤ x)%nat end.
Proof.
  revert k. induction s as [|c s IH]; intros k; simpl; [done|].
  destruct (Ascii.eqb c Js.newline); [done|].
  specialize (IH (S k)). destruct (newlinesFrom s (S k)); [done|lia].
Qed.

(** Where the line of a position starts, given the newlines before
    it. *)
Definition lineStart (before : list nat) : Z :=
  match last before with
  | Some x => Z.of_nat x + 1
  | None => 0
  end.

Lemma getLineColumnFromPos_before (before rest : list nat) (pos : nat) :
  Forall (λ x, (x < pos)%nat) before →
  match rest with [] => True | x :: _ => (pos ≤ x)%nat end →
  getLineColumnFromPos pos (before ++ rest)
  = (Z.of_nat (length before) + 1, Z.of_nat pos - lineStart before + 1).
Proof.
  intros Hbefore Hrest. unfold getLineColumnFromPos.
  rewrite (lineLoop_stops before rest) by (rewrite ?length_app; done || lia).
  f_equal. f_equal. f_equal. unfold lineStart.
  destruct before as [|x before _] using rev_ind; [done|].
  rewrite length_app, last_snoc. simpl.
  replace (length before + 1 =? 0)%nat with false
    by (symmetry; apply Nat.eqb_neq; lia).
  rewrite lookup_app_l by (rewrite length_app; simpl; lia).
  rewrite lookup_app_r by lia.
  by replace (length before + 1 - 1 - length before)%nat with 0%nat by lia.
Qed.

Lemma getLineColumnFromPos_from (s : string) (k i : nat) (before : list nat) :
  (i ≤ String.length s)%nat →
  Forall (λ x, (x < k)%nat) before →
  getLineColumnFromPos (k + i) (before ++ newlinesFrom s k)
  = lineColumnAt s i (Z.of_nat (length before) + 1)
      (Z.of_nat k - lineStart before + 1).
Proof.
  revert k i before.
  induction s as [|c s IH]; intros k i before Hi Hbefore.
  - simpl in Hi. replace i with 0%nat by lia. rewrite Nat.add_0_r.
    by rewrite getLineColumnFromPos_before.
  - destruct i as [|i].
    + rewrite Nat.add_0_r. cbn [lineColumnAt].
      apply getLineColumnFromPos_before; [done|].
      apply newlinesFrom_head.
    + cbn [lineColumnAt newlinesFrom]. simpl in Hi.
      replace (k + S i)%nat with (S k + i)%nat by lia.
      destruct (Ascii.eqb c Js.newline).
      * rewrite cons_middle, (assoc_L _ before [k]).
        rewrite IH; [|lia|].
        -- rewrite length_app. unfold lineStart. rewrite last_snoc. simpl.
           f_equal; lia.
        -- apply Forall_app. split; [|by repeat constructor].
           eapply Forall_impl; [done|]. simpl. lia.
      * rewrite IH; [|lia|].
        -- f_equal. lia.
        -- eapply Forall_impl; [done|]. simpl. lia.
Qed.

Lemma getLineColumnFromPos_walk (code : string) (pos : nat) :
  (pos ≤ String.length code)%nat →
  getLineColumnFromPos pos (newlinesFrom code 0) = lineColumnAt code pos 1 1.
Proof. intros Hpos. by apply (getLineColumnFromPos_from code 0 pos []). Qed.

End LexerLines.

(** X14. The line and the column the tokenizer gives to a position of
    the text are those a reader counts from line 1, column 1: the line
    is one more than the number of newlines before the position, the
    column one more than the number of characters since the last of
    them. *)
Theorem getLineColumnFromPos_counts (code : string) (pos : nat) :
  (pos ≤ String.length code)%nat →
  Lexer.getLineColumnFromPos pos (Lexer.newlinesFrom code 0)
  = lineColumnAt code pos 1 1.
Proof. apply LexerLines.getLineColumnFromPos_walk. Qed.

Lemma getLineColumnFromPos_counts_witness :
  Lexer.getLineColumnFromPos 9
    (Lexer.newlinesFrom ("int x;" +:+ String Js.newline "int y;") 0)
  = (2, 3).
Proof.
  apply (getLineColumnFromPos_counts
           ("int x;" +:+ String Js.newline "int y;") 9).
  simpl. lia.
Defined.

(** The tokens are found in the text one after the other from offset
    [i] on: each is the text of a place that starts after the end of the
    token before it, and bears the line and the column of that place. *)
Fixpoint tokensFrom (code : string) (i : nat) (tokens : list Token.t) : Prop :=
  match tokens with
  | [] => True
  | t :: rest =>
      ∃ j,
        (i ≤ j)%nat
        ∧ (1 ≤ String.length (Token.value t))%nat
        ∧ (j + String.length (Token.value t) ≤ String.length code)%nat
        ∧ Token.value t
          = Js.take (String.length (Token.value t)) (Js.drop j code)
        ∧ (Token.line t, Token.column t) = lineColumnAt code j 1 1
        ∧ tokensFrom code (j + String.length (Token.value t)) rest
  end.

(** No line of the text is a preprocessor directive. *)
Definition directiveFree (code : string) : Prop :=
  Forall (λ l, Js.startsWith (Js.trim l) "#" = false) (Js.splitLines code).

Module LexerPlaces.
Import Lexer.

#[local] Arguments Js.drop : simpl never.
#[local] Arguments Js.take : simpl never.
#[local] Arguments Js.startsWith : simpl never.
#[local] Arguments lineColumnAt : simpl never.

Lemma tokensFrom_earlier (code : string) (i i' : nat) (tokens : list Token.t) :
  (i ≤ i')%nat → tokensFrom code i' tokens → tokensFrom code i tokens.
Proof.
  intros Hi. destruct tokens as [|t rest]; [done|]. simpl.
  intros (j & Hj & H). exists j. split; [lia|done].
Qed.

Lemma take_take_length (n : nat) (s : string) :
  Js.take (String.length (Js.take n s)) s = Js.take n s.
Proof.
  revert s. induction n as [|n IH]; intros [|c s]; try done.
  change (Js.take (S n) (String c s)) with (String c (Js.take n s)).
  cbn [String.length].
  change (Js.take (S ?k) (String c s)) with (String c (Js.take k s)).
  by rewrite IH.
Qed.

(** The tokens the loop adds, when there is no directive. *)
Lemma matchLoop_places (fuel : nat) (code : string) (lastIndex : nat)
    (tokens tokens' : list Token.t) :
  matchLoop fuel code (newlinesFrom code 0) [] lastIndex tokens = Some tokens' →
  ∃ added, tokens' = tokens ++ added ∧ tokensFrom code lastIndex added.
Proof.
  revert lastIndex tokens.
  induction fuel as [|fuel IH]; intros lastIndex tokens; [done|].
  cbn [matchLoop isWithinDirective existsb].
  destruct (exec code lastIndex) as [m|] eqn:Hexec.
  2: { intros [= <-]. exists []. by rewrite app_nil_r. }
  pose proof (LexerFacts.exec_bounds _ _ _ Hexec) as (Hindex & Hsome & Hend).
  apply LexerTokens.exec_match in Hexec as (n & _ & _ & Hmatched).
  assert (∀ tokens0,
            matchLoop fuel code (newlinesFrom code 0) []
              (index m + String.length (matched m)) tokens0 = Some tokens' →
            ∃ added, tokens' = tokens0 ++ added
                     ∧ tokensFrom code lastIndex added) as Hskip.
  { intros tokens0 (added & -> & Hadded)%IH. exists added. split; [done|].
    eapply tokensFrom_earlier; [|done]. lia. }
  destruct (getLineColumnFromPos (index m) (newlinesFrom code 0))
    as [line column] eqn:Hplace.
  rewrite LexerLines.getLineColumnFromPos_walk in Hplace by lia.
  assert (matchLoop fuel code (newlinesFrom code 0) []
            (index m + String.length (matched m))
            (tokens ++ [Token.mk (classify (group m) (matched m)) (matched m)
                          line column]) = Some tokens' →
          ∃ added, tokens' = tokens ++ added
                   ∧ tokensFrom code lastIndex added) as Hadd.
  { intros (added & -> & Hadded)%IH. eexists (_ :: added).
    split; [by rewrite <- app_assoc|].
    exists (index m). cbn [Token.value Token.line Token.column].
    repeat split; try done.
    rewrite Hmatched at 2. rewrite Hmatched at 1.
    by rewrite take_take_length. }
  destruct (group m); [by apply Hskip|..];
    (destruct (Js.truthy _); [apply Hadd|apply Hskip]).
Qed.

(** The places of the text are in the order of their lines and
    columns. *)
Lemma lineColumnAt_after (s : string) (i : nat) (line column : Z) :
  line < (lineColumnAt s i line column).1
  ∨ (line = (lineColumnAt s i line column).1
     ∧ column ≤ (lineColumnAt s i line column).2).
Proof.
  revert i line column. induction s as [|c s IH]; intros [|i] line column;
    try (right; by split).
  change (lineColumnAt (String c s) (S i) line column)
    with (if Ascii.eqb c Js.newline then lineColumnAt s i (line + 1) 1
          else lineColumnAt s i line (column + 1)).
  destruct (Ascii.eqb c Js.newline).
  - specialize (IH i (line + 1) 1). lia.
  - specialize (IH i line (column + 1)). lia.
Qed.

Lemma lineColumnAt_ordered (s : string) (i j : nat) (line column : Z) :
  (i ≤ j)%nat →
  (lineColumnAt s i line column).1 < (lineColumnAt s j line column).1
  ∨ ((lineColumnAt s i line column).1 = (lineColumnAt s j line column).1
     ∧ (lineColumnAt s i line column).2 ≤ (lineColumnAt s j line column).2).
Proof.
  revert i j line column.
  induction s as [|c s IH]; intros i j line column Hij.
  { destruct i, j; right; by split. }
  destruct i as [|i].
  { apply (lineColumnAt_after (String c s) j). }
  destruct j as [|j]; [lia|].
  change (lineColumnAt (String c s) (S ?k) line column)
    with (if Ascii.eqb c Js.newline then lineColumnAt s k (line + 1) 1
          else lineColumnAt s k line (column + 1)).
  destruct (Ascii.eqb c Js.newline); apply IH; lia.
Qed.

Lemma tokensFrom_sorted (code : string) (i : nat) (tokens : list Token.t) :
  tokensFrom code i tokens →
  Forall (λ t, ∃ j, (i ≤ j)%nat
                    ∧ (Token.line t, Token.column t) = lineColumnAt code j 1 1)
    tokens
  ∧ StronglySorted positionLe tokens.
Proof.
  revert i. induction tokens as [|t rest IH]; intros i.
  { split; constructor. }
  cbn [tokensFrom]. intros (j & Hj & Hsome & _ & _ & Hplace & Hrest).
  apply IH in Hrest as [Hplaces Hsorted]. split.
  - constructor; [by exists j|].
    eapply Forall_impl; [done|]. simpl.
    intros t' (j' & Hj' & Hplace'). exists j'. split; [lia|done].
  - constructor; [done|].
    eapply Forall_impl; [done|]. simpl.
    intros t' (j' & Hj' & Hplace'). unfold positionLe.
    pose proof (lineColumnAt_ordered code j j' 1 1 ltac:(lia)) as Hordered.
    rewrite <- Hplace, <- Hplace' in Hordered. done.
Qed.

(** The final sort leaves tokens that are in order where they are. *)
Lemma sortTokens_sorted_id (tokens : list Token.t) :
  StronglySorted positionLe tokens → sortTokens tokens = tokens.
Proof.
  induction 1 as [|a tokens Hsorted IH Ha]; [done|].
  simpl. rewrite IH. destruct tokens as [|b tokens]; [done|]. simpl.
  apply Forall_inv in Ha. apply compareTokens_le in Ha.
  by destruct (Z.leb_spec (compareTokens a b) 0); [|lia].
Qed.

Lemma collectDirectives_free (code : string) (lines : list string) (i : nat) :
  Forall (λ l, Js.startsWith (Js.trim l) "#" = false) lines →
  collectDirectives code lines i = [].
Proof.
  intros Hlines. revert i.
  induction Hlines as [|l lines Hl Hlines IH]; intros i; simpl; [done|].
  by rewrite Hl.
Qed.

End LexerPlaces.

(** X15. The tokens of a text without directives are the texts of
    places of the text that follow one another without overlapping, in
    the order of the list, and each token bears the line and the column
    of its place: the tokens put end to end are the characters of the
    text in their order, less the characters dropped between the
    places. *)
Theorem tokenize_places (code : string) (tokens : list Token.t) :
  directiveFree code →
  Lexer.tokenize code = Some tokens →
  tokensFrom code 0 tokens.
Proof.
  intros Hfree. unfold Lexer.tokenize, Lexer.tokenizeWith.
  rewrite LexerPlaces.collectDirectives_free by done.
  cbn [fmap list_fmap mbind list_bind].
  destruct (Lexer.matchLoop _ _ _ _ _ _) as [tokens'|] eqn:Hloop; [|done].
  intros [= <-].
  apply LexerPlaces.matchLoop_places in Hloop as (added & -> & Hadded).
  rewrite app_nil_l.
  rewrite LexerPlaces.sortTokens_sorted_id; [done|].
  by apply LexerPlaces.tokensFrom_sorted in Hadded as [_ Hsorted].
Qed.

Lemma tokenize_places_witness :
  tokensFrom "a@b" 0
    [Token.mk "identifier" "a" 1 1; Token.mk "identifier" "b" 1 3].
Proof.
  apply (tokenize_places "a@b"); [|reflexivity].
  by repeat constructor.
Defined.

Module LexerNumbers.
Import Lexer.

(** A text that starts with the prefix of a hexadecimal literal is
    matched as the number 0. *)
Lemma matchHere_hex_prefix (s : string) :
  matchHere (String "0" (String "x" s)) = Some (Number, 1%nat).
Proof. reflexivity. Qed.

Lemma startsWith_cons (c d : ascii) (s prefix : string) :
  Js.startsWith (String c s) (String d prefix) = true →
  c = d ∧ Js.startsWith s prefix = true.
Proof.
  unfold Js.startsWith. cbn [String.prefix].
  by destruct (ascii_dec d c) as [->|].
Qed.

Lemma take_hex_prefix (n : nat) (s : string) :
  Js.startsWith (Js.take n s) "0x" = true →
  ∃ s', s = String "0" (String "x" s') ∧ (2 ≤ n)%nat.
Proof.
  intros H.
  destruct n as [|[|n]], s as [|c [|d s]]; cbn [Js.take] in H; try done.
  - by apply startsWith_cons in H as [_ H].
  - by apply startsWith_cons in H as [_ H].
  - by apply startsWith_cons in H as [_ H].
  - apply startsWith_cons in H as [-> H].
    apply startsWith_cons in H as [-> H].
    exists s. split; [done|lia].
Qed.

(** No match of the pattern starts with the prefix of a hexadecimal
    literal. *)
Lemma matchHere_no_hex (s : string) (g : Group) (n : nat) :
  matchHere s = Some (g, n) → Js.startsWith (Js.take n s) "0x" = false.
Proof.
  intros Hmatch.
  destruct (Js.startsWith (Js.take n s) "0x") eqn:Hhex; [|done].
  apply take_hex_prefix in Hhex as (s' & -> & Hn).
  rewrite matchHere_hex_prefix in Hmatch. injection Hmatch as _ <-. lia.
Qed.

End LexerNumbers.

(** X16. In a text without directives no token starts with the prefix
    0x of a hexadecimal literal: the pattern tries the digits before the
    hexadecimal alternative, so the 0 is matched alone and the rest of
    the literal becomes another token. *)
Theorem tokenize_no_hexadecimal (code : string) (tokens : list Token.t) :
  directiveFree code →
  Lexer.tokenize code = Some tokens →
  Forall (λ t, Js.startsWith (Token.value t) "0x" = false) tokens.
Proof.
  intros Hfree. unfold Lexer.tokenize, Lexer.tokenizeWith.
  rewrite LexerPlaces.collectDirectives_free by done.
  cbn [fmap list_fmap mbind list_bind].
  destruct (Lexer.matchLoop _ _ _ _ _ _) as [tokens'|] eqn:Hloop; [|done].
  intros [= <-]. rewrite LexerTokens.sortTokens_Permutation.
  eapply LexerTokens.matchLoop_Forall; [|constructor|exact Hloop].
  intros lastIndex m (n & _ & Hmatch & ->)%LexerTokens.exec_match _ _ _.
  cbn [Token.value]. by eapply LexerNumbers.matchHere_no_hex.
Qed.

Lemma tokenize_no_hexadecimal_witness :
  Forall (λ t, Js.startsWith (Token.value t) "0x" = false)
    [Token.mk "literal" "0" 1 1; Token.mk "identifier" "x1F" 1 2].
Proof.
  apply (tokenize_no_hexadecimal "0x1F"); [|reflexivity].
  by repeat constructor.
Defined.

(** ** What the generators do to the state *)

(** The state a generator leaves when it is run on an empty state. *)
Definition stateOf (c : Cmd) : AppState.t :=
  match c (mkSim [] emptyApp) with
  | Normal σ => app σ
  | Throws _ σ => app σ
  end.

(** A generator does to every state what it does to the empty one, on
    top of what the state holds: it pushes its script, writes its memory
    cells and heap blocks, pushes its frames on the stack and appends its
    text to the console output. It never throws. *)
Definition effect (c : Cmd) : Prop :=
  ∀ l code toks ast mem stk hp out errs,
    c (mkSim l (AppState.mk code toks ast mem stk hp out errs))
    = Normal
        (mkSim (l ++ scriptOf c)
           (AppState.mk code toks ast
              (AppState.memory (stateOf c) ∪ mem)
              (stk ++ AppState.stack (stateOf c))
              (AppState.heap (stateOf c) ∪ hp)
              (out +:+ AppState.consoleOutput (stateOf c))
              errs)).

Lemma insert_over {A} (k : Z) (v : A) (m' written m : gmap Z A) :
  m' = written ∪ m → <[k := v]> m' = <[k := v]> written ∪ m.
Proof. intros ->. by rewrite insert_union_l. Qed.

Lemma alter_top {A} (f : A → A) (stk : list A) (s' : list A) (x : A) :
  s' = stk ++ [x] → alter f (length stk) s' = stk ++ [f x].
Proof.
  intros ->. by rewrite (alter_app_r_alt f stk [x] (length stk)), Nat.sub_diag.
Qed.

Lemma append_assoc (a b c : string) : (a +:+ b) +:+ c = a +:+ (b +:+ c).
Proof.
  induction a as [|x a IH]; [done|]. rewrite !append_cons. by f_equal.
Qed.

Lemma append_after (out' out written text : string) :
  out' = out +:+ written → out' +:+ text = out +:+ (written +:+ text).
Proof. intros ->. apply append_assoc. Qed.

Lemma append_nothing (s : string) : s = s +:+ "".
Proof.
  induction s as [|x s IH]; [done|]. rewrite append_cons. by f_equal.
Qed.

Lemma wp_effect (l : list ExecutionStep.t) (a : AppState.t) (σ : Sim) :
  (λ σ', σ' = σ) (mkSim l a) → mkSim l a = σ.
Proof. done. Qed.

Ltac over_base :=
  lazymatch goal with
  | |- _ ∪ _ = _ => reflexivity
  | |- _ => symmetry; apply (left_id_L ∅ (∪))
  end.

Ltac effect_done :=
  apply wp_effect; f_equal;
  [ rewrite <- ?app_assoc; f_equal; vm_compute; reflexivity
  | f_equal;
    [ etrans;
      [ repeat eapply insert_over; over_base
      | f_equal; vm_compute; reflexivity ]
    | etrans;
      [ repeat eapply alter_top; reflexivity
      | f_equal; vm_compute; reflexivity ]
    | etrans;
      [ repeat eapply insert_over; over_base
      | f_equal; vm_compute; reflexivity ]
    | etrans;
      [ repeat eapply append_after; apply append_nothing
      | f_equal; vm_compute; reflexivity ] ] ].

Ltac run_effect :=
  intros l code toks ast mem stk hp out errs;
  match goal with
  | |- ?c ?σ = Normal ?σ' =>
      enough (wp c (λ σ'', σ'' = σ') σ) as (? & -> & ->) by done
  end;
  cbv zeta; repeat wp_step.

Lemma effect_basic : effect generateStepsForVariablesAndPointers.
Proof.
  unfold effect, generateStepsForVariablesAndPointers at 1.
  run_effect. effect_done.
Qed.

Lemma effect_arrays : effect generateStepsForArraysAndPointers.
Proof.
  unfold effect, generateStepsForArraysAndPointers at 1.
  run_effect. effect_done.
Qed.

Lemma effect_dynamic : effect generateStepsForDynamicAllocation.
Proof.
  unfold effect, generateStepsForDynamicAllocation at 1.
  run_effect. effect_done.
Qed.

(** The generators the class defines, by the category they are called
    for. *)
Definition definedGenerators : list (string * Cmd) :=
  [("basic", generateStepsForVariablesAndPointers);
   ("arrays", generateStepsForArraysAndPointers);
   ("dynamic_allocation", generateStepsForDynamicAllocation)].

(** What generateExecutionSteps returns and the state it leaves, for a
    category whose generator is defined. *)
Lemma generateExecutionSteps_defined (now : Z) (a : AppState.t)
    (generator : Cmd) :
  (determineCodeType a, generator) ∈ definedGenerators →
  generateExecutionSteps now a
  = (initialization :: scriptOf generator ++ [finalization (findLastLine a)],
     AppState.mk (AppState.code a) (AppState.tokens a) (AppState.ast a)
       (AppState.memory (stateOf generator) ∪ AppState.memory a)
       (AppState.stack a ++ AppState.stack (stateOf generator))
       (AppState.heap (stateOf generator) ∪ AppState.heap a)
       (AppState.consoleOutput a +:+ AppState.consoleOutput (stateOf generator))
       (AppState.errors a)).
Proof.
  intros Hdefined.
  assert (generateStepsFor (determineCodeType a) = generator
          ∧ effect generator) as [Hswitch Heffect].
  { unfold definedGenerators in Hdefined.
    rewrite !elem_of_cons, elem_of_nil in Hdefined.
    destruct Hdefined as [[= Htype ->]|[[= Htype ->]|[[= Htype ->]|[]]]];
      rewrite Htype.
    - split; [done|apply effect_basic].
    - split; [done|apply effect_arrays].
    - split; [done|apply effect_dynamic]. }
  unfold generateExecutionSteps, tryBlock, withState, stepsOfType, andThen.
  cbn [app]. rewrite Hswitch. destruct a as [code toks ast mem stk hp out errs].
  unfold push at 1. cbn [steps app]. rewrite Heffect.
  reflexivity.
Qed.

(** What generateExecutionSteps returns and the state it leaves, for a
    category whose generator is not defined. *)
Lemma generateExecutionSteps_undefined (now : Z) (a : AppState.t) :
  determineCodeType a ∈ undefinedGenerators →
  ∃ method,
    generateExecutionSteps now a
    = ([initialization],
       AppState.addError now ("this." +:+ method +:+ " is not a function") a).
Proof.
  intros (method & Hrun)%(stepsOfType_throws _ a). exists method.
  unfold generateExecutionSteps, tryBlock, withState. cbn [app].
  by rewrite Hrun.
Qed.

(** The category of a state is one of the three whose generator is
    defined, or one of the six whose generator is not. *)
Lemma determineCodeType_cases (a : AppState.t) :
  (∃ generator, (determineCodeType a, generator) ∈ definedGenerators)
  ∨ determineCodeType a ∈ undefinedGenerators.
Proof.
  pose proof (determineCodeType_range a) as Hrange.
  unfold definedGenerators, undefinedGenerators.
  rewrite !elem_of_cons, elem_of_nil in Hrange.
  destruct Hrange as [->|[->|[->|[->|[->|[->|[->|[->|[->|[]]]]]]]]]];
    first [ right; rewrite !elem_of_cons; tauto
          | left; eexists; rewrite !elem_of_cons; eauto ].
Qed.

(** The memory cells the steps of a list record, the later steps over
    the earlier ones, and the text they record for the console. *)
Definition memoryWritten (trace : list ExecutionStep.t) : gmap Z MemCell.t :=
  fold_left (λ m s, Changes.memory (ExecutionStep.changes s) ∪ m) trace ∅.

Fixpoint consoleWritten (trace : list ExecutionStep.t) : string :=
  match trace with
  | [] => ""
  | s :: rest =>
      default "" (Changes.saida (ExecutionStep.changes s))
      +:+ consoleWritten rest
  end.

Lemma memoryWritten_app (front later : list ExecutionStep.t) :
  memoryWritten (front ++ later)
  = fold_left (λ m s, Changes.memory (ExecutionStep.changes s) ∪ m) later
      (memoryWritten front).
Proof. unfold memoryWritten. by rewrite fold_left_app. Qed.

Lemma consoleWritten_app (front later : list ExecutionStep.t) :
  consoleWritten (front ++ later)
  = consoleWritten front +:+ consoleWritten later.
Proof.
  induction front as [|s front IH]; [done|].
  rewrite <- app_comm_cons. cbn [consoleWritten].
  by rewrite IH, append_assoc.
Qed.

(** X17. The steps generateExecutionSteps returns record what it did to
    the state: the memory it leaves is the memory it found with the cells
    of the steps written over it, and the console output it leaves is the
    one it found followed by the texts of the steps. *)
Theorem generateExecutionSteps_replays (now : Z) (a : AppState.t) :
  AppState.memory (generateExecutionSteps now a).2
  = memoryWritten (generateExecutionSteps now a).1 ∪ AppState.memory a
  ∧ AppState.consoleOutput (generateExecutionSteps now a).2
    = AppState.consoleOutput a
      +:+ consoleWritten (generateExecutionSteps now a).1.
Proof.
  destruct (determineCodeType_cases a) as [[generator Hdefined]|Hundefined].
  - rewrite (generateExecutionSteps_defined now a generator Hdefined).
    cbn [fst snd AppState.memory AppState.consoleOutput].
    rewrite (app_comm_cons _ _ initialization).
    rewrite memoryWritten_app, consoleWritten_app.
    unfold definedGenerators in Hdefined.
    rewrite !elem_of_cons, elem_of_nil in Hdefined.
    destruct Hdefined as [[= _ ->]|[[= _ ->]|[[= _ ->]|[]]]];
      (split; [f_equal|f_equal]; vm_compute; reflexivity).
  - destruct (generateExecutionSteps_undefined now a Hundefined)
      as [method ->].
    cbn. split; [by rewrite !(left_id_L ∅ (∪))|apply append_nothing].
Qed.

(** What the three generators have in common: each pushes one frame
    named main, and the last step of its script records the removal of
    that frame. *)
Lemma definedGenerators_frame (codeType : string) (generator : Cmd) :
  (codeType, generator) ∈ definedGenerators →
  ∃ frame front removal,
    AppState.stack (stateOf generator) = [frame]
    ∧ StackFrame.functionName frame = "main"
    ∧ scriptOf generator = front ++ [removal]
    ∧ Changes.stack (ExecutionStep.changes removal) !! "main" = Some SRemove.
Proof.
  unfold definedGenerators. rewrite !elem_of_cons, elem_of_nil.
  intros [[= _ ->]|[[= _ ->]|[[= _ ->]|[]]]].
  all:
    match goal with
    | |- context [stateOf ?generator] =>
        exists (default (StackFrame.new "" 0)
                  (head (AppState.stack (stateOf generator)))),
               (removelast (scriptOf generator)),
               (default initialization (last (scriptOf generator)))
    end;
    repeat split; vm_compute; reflexivity.
Qed.

(** The categories whose generator the class defines. *)
Definition definedCategories : list string :=
  ["basic"; "arrays"; "dynamic_allocation"].

Lemma definedCategories_generator (codeType : string) :
  codeType ∈ definedCategories →
  ∃ generator, (codeType, generator) ∈ definedGenerators.
Proof.
  unfold definedCategories, definedGenerators.
  rewrite !elem_of_cons, elem_of_nil.
  intros [->|[->|[->|[]]]]; eexists; rewrite !elem_of_cons; eauto.
Qed.

Lemma determineCodeType_defined (a : AppState.t) :
  determineCodeType a ∈ definedCategories
  ∨ determineCodeType a ∈ undefinedGenerators.
Proof.
  destruct (determineCodeType_cases a) as [[generator Hdefined]|Hundefined];
    [left|by right].
  unfold definedGenerators, definedCategories in *.
  rewrite !elem_of_cons, elem_of_nil in Hdefined.
  destruct Hdefined as [[= -> _]|[[= -> _]|[[= -> _]|[]]]];
    rewrite !elem_of_cons; tauto.
Qed.

(** X18. generateExecutionSteps leaves the source text, the tokens and
    the tree as they are, and never pops the stack of the state. The
    category of the state is one of the three whose generator is defined
    or one of the six whose generator is missing. In the first case one
    frame named main is pushed and is still on the stack at the end,
    although the last step but one of the list records its removal, and
    the error log is unchanged. In the second case the stack is
    unchanged and the list is the initialization step alone. *)
Theorem generateExecutionSteps_stack (now : Z) (a : AppState.t) :
  AppState.code (generateExecutionSteps now a).2 = AppState.code a
  ∧ AppState.tokens (generateExecutionSteps now a).2 = AppState.tokens a
  ∧ AppState.ast (generateExecutionSteps now a).2 = AppState.ast a
  ∧ (determineCodeType a ∈ definedCategories
     ∨ determineCodeType a ∈ undefinedGenerators)
  ∧ (determineCodeType a ∈ definedCategories →
     ∃ frame front removal,
       AppState.stack (generateExecutionSteps now a).2
       = AppState.stack a ++ [frame]
       ∧ StackFrame.functionName frame = "main"
       ∧ (generateExecutionSteps now a).1
         = initialization :: front ++ [removal; finalization (findLastLine a)]
       ∧ Changes.stack (ExecutionStep.changes removal) !! "main"
         = Some SRemove
       ∧ AppState.errors (generateExecutionSteps now a).2
         = AppState.errors a)
  ∧ (determineCodeType a ∈ undefinedGenerators →
     AppState.stack (generateExecutionSteps now a).2 = AppState.stack a
     ∧ (generateExecutionSteps now a).1 = [initialization]
     ∧ ∃ method,
         AppState.errors (generateExecutionSteps now a).2
         = AppState.errors a
           ++ [ErrorEntry.mk ("this." +:+ method +:+ " is not a function")
                 "error" now]).
Proof.
  assert (AppState.code (generateExecutionSteps now a).2 = AppState.code a
          ∧ AppState.tokens (generateExecutionSteps now a).2
            = AppState.tokens a
          ∧ AppState.ast (generateExecutionSteps now a).2 = AppState.ast a)
    as (Hcode & Htokens & Hast).
  { destruct (determineCodeType_cases a) as [[generator Hdefined]|Hundefined].
    - by rewrite (generateExecutionSteps_defined now a generator Hdefined).
    - by destruct (generateExecutionSteps_undefined now a Hundefined)
        as [method ->]. }
  split; [done|]. split; [done|]. split; [done|].
  split; [apply determineCodeType_defined|]. split.
  - intros [generator Hdefined]%definedCategories_generator.
    rewrite (generateExecutionSteps_defined now a generator Hdefined).
    cbn [fst snd AppState.stack AppState.errors].
    destruct (definedGenerators_frame _ _ Hdefined)
      as (frame & front & removal & -> & Hname & -> & Hremoval).
    exists frame, front, removal. split; [done|]. split; [done|].
    split; [|done]. by rewrite <- app_assoc.
  - intros Hundefined.
    destruct (generateExecutionSteps_undefined now a Hundefined)
      as [method ->].
    split; [done|]. split; [done|]. by exists method.
Qed.

Lemma generateExecutionSteps_stack_witness :
  ((generateExecutionSteps 0 structProgram).1 = [initialization]
   ∧ AppState.stack (generateExecutionSteps 0 structProgram).2 = [])
  ∧ ∃ frame,
      AppState.stack
        (generateExecutionSteps 0
           (AppState.mk "int x = 10;" [] None ∅ [] ∅ "" [])).2
      = [frame]
      ∧ StackFrame.functionName frame = "main".
Proof.
  split.
  - destruct (generateExecutionSteps_stack 0 structProgram)
      as (_ & _ & _ & _ & _ & Hmissing).
    destruct Hmissing as (Hstack & Hsteps & _).
    { apply (bool_decide_unpack _). by vm_compute. }
    split; [exact Hsteps|exact Hstack].
  - destruct (generateExecutionSteps_stack 0
                (AppState.mk "int x = 10;" [] None ∅ [] ∅ "" []))
      as (_ & _ & _ & _ & Hdefined & _).
    destruct Hdefined as (frame & _ & _ & Hstack & Hname & _).
    { apply (bool_decide_unpack _). by vm_compute. }
    exists frame. split; [exact Hstack|exact Hname].
Defined.

(** X19. The list generateExecutionSteps returns depends on the state
    through its category and the line findLastLine returns (the greatest
    line of its tokens) only: two states of the same category and with
    the same last line get the same list, whatever their source texts,
    tokens and trees are. *)
Theorem generateExecutionSteps_canned (now now' : Z) (a a' : AppState.t) :
  determineCodeType a = determineCodeType a' →
  findLastLine a = findLastLine a' →
  (generateExecutionSteps now a).1 = (generateExecutionSteps now' a').1.
Proof.
  intros Htype Hline.
  destruct (determineCodeType_cases a) as [[generator Hdefined]|Hundefined].
  - rewrite (generateExecutionSteps_defined now a generator Hdefined).
    rewrite Htype in Hdefined.
    rewrite (generateExecutionSteps_defined now' a' generator Hdefined).
    cbn [fst]. by rewrite Hline.
  - destruct (generateExecutionSteps_undefined now a Hundefined)
      as [method ->].
    rewrite Htype in Hundefined.
    by destruct (generateExecutionSteps_undefined now' a' Hundefined)
      as [method' ->].
Qed.

Lemma generateExecutionSteps_canned_witness :
  (generateExecutionSteps 0
     (AppState.mk "int x = 10;" [Token.mk "keyword" "int" 1 1] None ∅ [] ∅ ""
        [])).1
  = (generateExecutionSteps 7
       (AppState.mk "return 0;" [Token.mk "keyword" "return" 1 1] None ∅ []
          ∅ "" [])).1.
Proof. by apply (generateExecutionSteps_canned 0 7). Defined.

(** The kinds of the steps of the lists generateExecutionSteps
    returns. *)
Definition stepKinds : list string :=
  ["initialization"; "declaration"; "assignment"; "execution"; "conditional";
   "call"; "warning"; "return"; "finalization"].

(** X20. Every step generateExecutionSteps returns is of one of nine
    kinds. The kinds information and error are not among them: the
    generic generator, the only one that pushes such steps, is the
    default branch of a switch on the category, and every category has a
    branch of its own. *)
Theorem generateExecutionSteps_kinds (now : Z) (a : AppState.t) :
  Forall (λ s, ExecutionStep.type s ∈ stepKinds)
    (generateExecutionSteps now a).1.
Proof.
  assert (ExecutionStep.type initialization ∈ stepKinds) as Hfirst.
  { apply (bool_decide_unpack _). by vm_compute. }
  destruct (determineCodeType_cases a) as [[generator Hdefined]|Hundefined].
  - rewrite (generateExecutionSteps_defined now a generator Hdefined).
    cbn [fst]. constructor; [done|]. apply Forall_app. split.
    + unfold definedGenerators in Hdefined.
      rewrite !elem_of_cons, elem_of_nil in Hdefined.
      destruct Hdefined as [[= _ ->]|[[= _ ->]|[[= _ ->]|[]]]];
        apply (bool_decide_unpack _); by vm_compute.
    + constructor; [|constructor].
      apply (bool_decide_unpack _). by vm_compute.
  - destruct (generateExecutionSteps_undefined now a Hundefined)
      as [method ->].
    cbn [fst]. by constructor.
Qed.

(** ** The step in view *)

Section Stepping.
Import Session.

(** The moves of the step navigation. *)
Inductive Move :=
| First
| Previous
| Next
| Last
| To (stepIndex : Z).

Definition move (m : Move) (s : Session.t) : bool * Session.t :=
  match m with
  | First => goToFirstStep s
  | Previous => goToPreviousStep s
  | Next => goToNextStep s
  | Last => goToLastStep s
  | To stepIndex => goToStep stepIndex s
  end.

(** The step in view is one of the steps. *)
Definition inView (s : Session.t) : Prop :=
  0 ≤ currentStep s < Z.of_nat (length (executionSteps s)).

Lemma goToStep_spec (stepIndex : Z) (s : Session.t) :
  (0 ≤ stepIndex < Z.of_nat (length (executionSteps s))
   ∧ goToStep stepIndex s
     = (true, Session.mk (state s) (executionSteps s) stepIndex))
  ∨ (¬ 0 ≤ stepIndex < Z.of_nat (length (executionSteps s))
     ∧ goToStep stepIndex s = (false, s)).
Proof.
  unfold goToStep.
  destruct (Z.leb_spec 0 stepIndex), (Z.ltb_spec stepIndex
    (Z.of_nat (length (executionSteps s)))); simpl;
    first [left; split; [lia|done] | right; split; [lia|done]].
Qed.

Lemma move_inView (m : Move) (s : Session.t) :
  inView s →
  inView (move m s).2
  ∧ state (move m s).2 = state s
  ∧ executionSteps (move m s).2 = executionSteps s.
Proof.
  intros Hview.
  assert (∀ stepIndex,
            inView (goToStep stepIndex s).2
            ∧ state (goToStep stepIndex s).2 = state s
            ∧ executionSteps (goToStep stepIndex s).2 = executionSteps s)
    as Hstep.
  { intros stepIndex.
    by destruct (goToStep_spec stepIndex s) as [[Hin ->]|[Hout ->]]. }
  destruct m; apply Hstep.
Qed.

(** The index a move asks for. *)
Definition target (m : Move) (s : Session.t) : Z :=
  match m with
  | First => 0
  | Previous => currentStep s - 1
  | Next => currentStep s + 1
  | Last => Z.of_nat (length (executionSteps s)) - 1
  | To stepIndex => stepIndex
  end.

Lemma move_target (m : Move) (s : Session.t) :
  move m s = goToStep (target m s) s.
Proof. by destruct m. Qed.

(** X21. The step navigation never leaves the list of steps: from a
    step in view, any sequence of moves to the first, the previous, the
    next, the last or a given step leaves a step of the list in view, and
    changes neither the list of steps nor the rest of the state. A move
    is taken, and returns true, exactly when the index it asks for is an
    index of the list, and the step in view is then the one asked for; a
    move that would leave the list is refused: it returns false and
    changes nothing, the step in view included. *)
Theorem navigation_stays_in_view (moves : list Move) (s : Session.t) :
  inView s →
  (inView (foldl (λ s m, (move m s).2) s moves)
   ∧ state (foldl (λ s m, (move m s).2) s moves) = state s
   ∧ executionSteps (foldl (λ s m, (move m s).2) s moves) = executionSteps s)
  ∧ ∀ (m : Move) (s : Session.t),
      ((move m s).1 = true
       ↔ 0 ≤ target m s < Z.of_nat (length (executionSteps s)))
      ∧ ((move m s).1 = true →
         (move m s).2 = Session.mk (state s) (executionSteps s) (target m s))
      ∧ ((move m s).1 = false → (move m s).2 = s).
Proof.
  intros Hview. split.
  - revert s Hview.
    induction moves as [|m moves IH]; intros s Hview; [done|].
    cbn [foldl].
    destruct (move_inView m s Hview) as (Hview' & Hstate & Hsteps).
    destruct (IH _ Hview') as (H1 & H2 & H3).
    split; [done|]. split; congruence.
  - clear. intros m s. rewrite move_target.
    destruct (goToStep_spec (target m s) s) as [[Hin ->]|[Hout ->]];
      cbn [fst snd].
    + split; [done|]. split; [done|]. intros [=].
    + split; [split; [intros [=]|done]|]. split; [intros [=]|done].
Qed.

Lemma navigation_stays_in_view_witness :
  let s := Session.mk emptyApp
             [initialization; finalization 1] 0 in
  inView (foldl (λ s m, (move m s).2) s [Next; Next; Previous; Last; To 7])
  ∧ state (foldl (λ s m, (move m s).2) s [Next; Next; Previous; Last; To 7])
    = emptyApp
  ∧ executionSteps
      (foldl (λ s m, (move m s).2) s [Next; Next; Previous; Last; To 7])
    = [initialization; finalization 1].
Proof.
  intros s.
  apply (navigation_stays_in_view [Next; Next; Previous; Last; To 7] s).
  unfold inView. simpl. lia.
Defined.

(** X22. A step forwards that is taken is undone by a step backwards,
    and a step backwards that is taken by a step forwards; at the last
    step a step forwards is refused, and at the first step a step
    backwards. *)
Theorem goToNextStep_goToPreviousStep (s : Session.t) :
  inView s →
  (∀ s', goToNextStep s = (true, s') → goToPreviousStep s' = (true, s))
  ∧ (∀ s', goToPreviousStep s = (true, s') → goToNextStep s' = (true, s))
  ∧ (currentStep s = Z.of_nat (length (executionSteps s)) - 1 →
     goToNextStep s = (false, s))
  ∧ (currentStep s = 0 → goToPreviousStep s = (false, s)).
Proof.
  intros Hview. unfold inView in Hview.
  destruct s as [a steps current]. cbn [currentStep executionSteps] in *.
  unfold goToNextStep, goToPreviousStep. cbn [currentStep].
  repeat split.
  - intros s'.
    destruct (goToStep_spec (current + 1) (Session.mk a steps current))
      as [[Hin ->]|[Hout ->]]; [|done].
    intros [= <-]. cbn [currentStep executionSteps state] in *.
    destruct (goToStep_spec (current + 1 - 1)
                (Session.mk a steps (current + 1))) as [[_ ->]|[Hout _]].
    + cbn [executionSteps state]. by replace (current + 1 - 1) with current by lia.
    + cbn [executionSteps] in Hout. lia.
  - intros s'.
    destruct (goToStep_spec (current - 1) (Session.mk a steps current))
      as [[Hin ->]|[Hout ->]]; [|done].
    intros [= <-]. cbn [currentStep executionSteps state] in *.
    destruct (goToStep_spec (current - 1 + 1)
                (Session.mk a steps (current - 1))) as [[_ ->]|[Hout _]].
    + cbn [executionSteps state]. by replace (current - 1 + 1) with current by lia.
    + cbn [executionSteps] in Hout. lia.
  - intros Hlast.
    destruct (goToStep_spec (current + 1) (Session.mk a steps current))
      as [[Hin _]|[_ ->]]; [|done].
    cbn [executionSteps] in Hin. lia.
  - intros Hfirst.
    destruct (goToStep_spec (current - 1) (Session.mk a steps current))
      as [[Hin _]|[_ ->]]; [|done].
    lia.
Qed.

Lemma goToNextStep_goToPreviousStep_witness :
  goToPreviousStep (Session.mk emptyApp [initialization; finalization 1] 1)
  = (true, Session.mk emptyApp [initialization; finalization 1] 0).
Proof.
  apply (goToNextStep_goToPreviousStep
           (Session.mk emptyApp [initialization; finalization 1] 0)).
  - unfold inView. simpl. lia.
  - reflexivity.
Defined.

End Stepping.

(** ** The binary representation of a value *)

(** The number a string of binary digits stands for, read from the
    left. *)
Fixpoint binaryValueFrom (value : Z) (s : string) : Z :=
  match s with
  | EmptyString => value
  | String c s' =>
      binaryValueFrom (2 * value + (if Ascii.eqb c "1" then 1 else 0)) s'
  end.

Definition binaryValue (s : string) : Z := binaryValueFrom 0 s.

Definition isBinaryDigit (c : ascii) : bool :=
  Ascii.eqb c "0" || Ascii.eqb c "1".

Module TypeCFacts.
Import TypeC.

Lemma binaryDigits_length (p : positive) (lower : string) :
  String.length (binaryDigits p lower)
  = (Pos.size_nat p + String.length lower)%nat.
Proof.
  revert lower. induction p as [p IH|p IH|]; intros lower; simpl; [| |done].
  - rewrite IH. simpl. lia.
  - rewrite IH. simpl. lia.
Qed.

Lemma size_nat_bound (p : positive) (n : nat) :
  Z.pos p < 2 ^ Z.of_nat n → (Pos.size_nat p ≤ n)%nat.
Proof.
  revert n. induction p as [p IH|p IH|]; intros [|n] Hp; simpl in *;
    try lia.
  - rewrite Nat2Z.inj_succ, Z.pow_succ_r in Hp by lia.
    specialize (IH n). lia.
  - rewrite Nat2Z.inj_succ, Z.pow_succ_r in Hp by lia.
    specialize (IH n). lia.
Qed.

Lemma binaryDigits_value (p : positive) (lower : string) (value : Z) :
  binaryValueFrom value (binaryDigits p lower)
  = binaryValueFrom (value * 2 ^ Z.of_nat (Pos.size_nat p) + Z.pos p) lower.
Proof.
  revert lower value.
  induction p as [p IH|p IH|]; intros lower value; cbn [binaryDigits].
  - rewrite IH. cbn [binaryValueFrom Pos.size_nat]. f_equal.
    rewrite Nat2Z.inj_succ, Z.pow_succ_r by lia. simpl. lia.
  - rewrite IH. cbn [binaryValueFrom Pos.size_nat]. f_equal.
    rewrite Nat2Z.inj_succ, Z.pow_succ_r by lia. simpl. lia.
  - cbn [binaryValueFrom Pos.size_nat]. f_equal. simpl. lia.
Qed.

Lemma binaryDigits_digits (p : positive) (lower : string) :
  allChars isBinaryDigit lower = true →
  allChars isBinaryDigit (binaryDigits p lower) = true.
Proof.
  revert lower. induction p as [p IH|p IH|]; intros lower Hlower;
    cbn [binaryDigits]; [apply IH|apply IH|]; by simpl.
Qed.

Lemma filler_value (n : nat) (s : string) :
  binaryValueFrom 0 (filler n "0" s) = binaryValueFrom 0 s.
Proof. induction n as [|n IH]; [done|]. cbn [filler binaryValueFrom]. apply IH. Qed.

Lemma filler_digits (n : nat) (s : string) :
  allChars isBinaryDigit s = true →
  allChars isBinaryDigit (filler n "0" s) = true.
Proof. intros Hs. induction n as [|n IH]; [done|]. by simpl. Qed.

Lemma filler_length (n : nat) (c : ascii) (s : string) :
  String.length (filler n c s) = (n + String.length s)%nat.
Proof. induction n as [|n IH]; [done|]. simpl. by rewrite IH. Qed.

Lemma filler_sign (n : nat) (s : string) :
  allChars isBinaryDigit (filler n "0" (String "-" s)) = false.
Proof. induction n as [|n IH]; [done|]. by simpl. Qed.

End TypeCFacts.

(** X23. The binary representation of a number that is not negative is
    made of binary digits and stands for the number, and for a number
    below 2^32 it is 32 digits long. The representation of a negative
    number is not its two's complement: it holds a minus sign. *)
Theorem getBinaryRepresentation_decodes (type : string) (n : Z) :
  ∃ s,
    TypeC.getBinaryRepresentation (TypeC.mk type (TypeC.Number n)) = Some s
    ∧ (0 ≤ n →
       allChars isBinaryDigit s = true
       ∧ binaryValue s = n
       ∧ (n < 2 ^ 32 → String.length s = 32%nat))
    ∧ (n < 0 → allChars isBinaryDigit s = false).
Proof.
  eexists. split; [reflexivity|].
  unfold TypeC.padStart, binaryValue.
  rewrite TypeCFacts.filler_value, TypeCFacts.filler_length.
  destruct n as [|p|p].
  - split; [|lia]. intros _. by repeat split.
  - split; [|lia]. intros _. cbn [TypeC.toString2].
    rewrite TypeCFacts.binaryDigits_value, TypeCFacts.binaryDigits_length.
    split; [|split].
    + by apply TypeCFacts.filler_digits, TypeCFacts.binaryDigits_digits.
    + simpl. lia.
    + intros Hp. apply (TypeCFacts.size_nat_bound p 32) in Hp.
      simpl. lia.
  - split; [lia|]. intros _. cbn [TypeC.toString2].
    by apply TypeCFacts.filler_sign.
Qed.

(** ** The base conversion of the tokens *)

Module LexerBases.
Import Lexer.

(** A text that starts with the prefix of a binary literal is matched as
    the number 0 too. *)
Lemma matchHere_binary_prefix (s : string) :
  matchHere (String "0" (String "b" s)) = Some (Number, 1%nat).
Proof. reflexivity. Qed.

Lemma take_binary_prefix (n : nat) (s : string) :
  Js.startsWith (Js.take n s) "0b" = true →
  ∃ s', s = String "0" (String "b" s') ∧ (2 ≤ n)%nat.
Proof.
  intros H.
  destruct n as [|[|n]], s as [|c [|d s]]; cbn [Js.take] in H; try done.
  - by apply LexerNumbers.startsWith_cons in H as [_ H].
  - by apply LexerNumbers.startsWith_cons in H as [_ H].
  - by apply LexerNumbers.startsWith_cons in H as [_ H].
  - apply LexerNumbers.startsWith_cons in H as [-> H].
    apply LexerNumbers.startsWith_cons in H as [-> H].
    exists s. split; [done|lia].
Qed.

Lemma matchHere_no_binary (s : string) (g : Group) (n : nat) :
  matchHere s = Some (g, n) → Js.startsWith (Js.take n s) "0b" = false.
Proof.
  intros Hmatch.
  destruct (Js.startsWith (Js.take n s) "0b") eqn:Hbinary; [|done].
  apply take_binary_prefix in Hbinary as (s' & -> & Hn).
  rewrite matchHere_binary_prefix in Hmatch. injection Hmatch as _ <-. lia.
Qed.

(** No token of a text without directives starts with one of the two
    prefixes of the base conversion. *)
Lemma tokenize_no_prefix (code : string) (tokens : list Token.t) :
  directiveFree code →
  tokenize code = Some tokens →
  Forall (λ t, Js.startsWith (Token.value t) "0x" = false
               ∧ Js.startsWith (Token.value t) "0b" = false) tokens.
Proof.
  intros Hfree. unfold tokenize, tokenizeWith.
  rewrite LexerPlaces.collectDirectives_free by done.
  cbn [fmap list_fmap mbind list_bind].
  destruct (matchLoop _ _ _ _ _ _) as [tokens'|] eqn:Hloop; [|done].
  intros [= <-]. rewrite LexerTokens.sortTokens_Permutation.
  eapply LexerTokens.matchLoop_Forall; [|constructor|exact Hloop].
  intros lastIndex m (n & _ & Hmatch & ->)%LexerTokens.exec_match _ _ _.
  cbn [Token.value]. split.
  - by eapply LexerNumbers.matchHere_no_hex.
  - by eapply matchHere_no_binary.
Qed.

End LexerBases.

(** X24. The base conversion never applies to a token of the tokenizer:
    for every token of a text without directives convertBase returns
    null, whatever parseInt, toString and toUpperCase compute, because no
    such token starts with 0x or 0b. *)
Theorem tokenize_convertBase_null {Num : Type} (parseInt : string → Z → Num)
    (numberToString : Num → Z → string) (toUpperCase : string → string)
    (code : string) (tokens : list Token.t) :
  directiveFree code →
  Lexer.tokenize code = Some tokens →
  Forall (λ t, TokenBase.convertBase parseInt numberToString toUpperCase t
               = None) tokens.
Proof.
  intros Hfree Htokens.
  eapply Forall_impl; [by apply (LexerBases.tokenize_no_prefix code)|].
  intros t [Hhex Hbinary]. unfold TokenBase.convertBase.
  by rewrite Hhex, Hbinary.
Qed.

Lemma tokenize_convertBase_null_witness :
  Forall (λ t, TokenBase.convertBase (λ _ _, 0) (λ _ _, "") (λ s, s) t = None)
    [Token.mk "literal" "0" 1 1; Token.mk "identifier" "b101" 1 2].
Proof.
  apply (tokenize_convertBase_null (λ _ _, 0) (λ _ _, "") (λ s, s) "0b101");
    [|reflexivity].
  by repeat constructor.
Defined.

(** ** The two groups of addresses on display *)

Module VisualizerFacts.
Import Visualizer.

Lemma insertAddress_Permutation (a : Z) (sorted : list Z) :
  insertAddress a sorted ≡ₚ a :: sorted.
Proof.
  induction sorted as [|b rest IH]; simpl; [done|].
  destruct (_ <=? _); [done|]. rewrite IH. apply Permutation_swap.
Qed.

Lemma sortAddresses_Permutation (addresses : list Z) :
  sortAddresses addresses ≡ₚ addresses.
Proof.
  induction addresses as [|a addresses IH]; simpl; [done|].
  by rewrite insertAddress_Permutation, IH.
Qed.

Lemma insertAddress_sorted (a : Z) (sorted : list Z) :
  StronglySorted Z.le sorted → StronglySorted Z.le (insertAddress a sorted).
Proof.
  induction sorted as [|b rest IH]; intros Hsorted; simpl.
  { by repeat constructor. }
  destruct (Z.leb_spec (a - b) 0) as [Hle|Hgt].
  - constructor; [done|]. constructor; [lia|].
    apply StronglySorted_inv in Hsorted as [_ Hrest].
    eapply Forall_impl; [done|]. simpl. lia.
  - apply StronglySorted_inv in Hsorted as [Hsorted Hrest].
    constructor; [by apply IH|].
    rewrite insertAddress_Permutation. constructor; [lia|done].
Qed.

Lemma sortAddresses_sorted (addresses : list Z) :
  StronglySorted Z.le (sortAddresses addresses).
Proof.
  induction addresses as [|a addresses IH]; simpl; [constructor|].
  by apply insertAddress_sorted.
Qed.

Lemma keys_NoDup (memory : gmap Z MemCell.t) : NoDup (keys memory).
Proof. apply NoDup_fst_map_to_list. Qed.

Lemma elem_of_keys (memory : gmap Z MemCell.t) (address : Z) :
  address ∈ keys memory ↔ is_Some (memory !! address).
Proof.
  unfold keys. rewrite list_elem_of_fmap. split.
  - intros ([k c] & -> & Hin%elem_of_map_to_list). by exists c.
  - intros [c Hc]. exists (address, c). by rewrite elem_of_map_to_list.
Qed.

(** A group: the addresses of a class that hold a cell, in increasing
    order and without repetition. *)
Lemma group_sorted (f : Z → bool) (memory : gmap Z MemCell.t) :
  StronglySorted Z.le (sortAddresses (List.filter f (keys memory)))
  ∧ NoDup (sortAddresses (List.filter f (keys memory)))
  ∧ ∀ address,
      address ∈ sortAddresses (List.filter f (keys memory))
      ↔ is_Some (memory !! address) ∧ f address = true.
Proof.
  split; [apply sortAddresses_sorted|]. split.
  - rewrite sortAddresses_Permutation.
    apply NoDup_ListNoDup, List.NoDup_filter, NoDup_ListNoDup, keys_NoDup.
  - intros address. rewrite sortAddresses_Permutation.
    rewrite list_elem_of_In, filter_In, <- list_elem_of_In.
    by rewrite elem_of_keys.
Qed.

End VisualizerFacts.

(** X25. The two groups of addresses of the memory display divide the
    addresses that hold a cell: each address is in exactly one group, in
    the stack group when it is below 0x8000 and in the heap group
    otherwise; each group is in increasing order and without
    repetition. *)
Theorem filterAddresses_partition (a : AppState.t) :
  (∀ address,
     address ∈ Visualizer.filterStackAddresses a
     ↔ is_Some (AppState.memory a !! address) ∧ address < 0x8000)
  ∧ (∀ address,
       address ∈ Visualizer.filterHeapAddresses a
       ↔ is_Some (AppState.memory a !! address) ∧ 0x8000 ≤ address)
  ∧ StronglySorted Z.le (Visualizer.filterStackAddresses a)
  ∧ StronglySorted Z.le (Visualizer.filterHeapAddresses a)
  ∧ NoDup (Visualizer.filterStackAddresses a
           ++ Visualizer.filterHeapAddresses a).
Proof.
  unfold Visualizer.filterStackAddresses, Visualizer.filterHeapAddresses.
  destruct (VisualizerFacts.group_sorted (λ address, address <? 0x8000)
              (AppState.memory a)) as (Hsorted & Hnodup & Hin).
  destruct (VisualizerFacts.group_sorted (λ address, 0x8000 <=? address)
              (AppState.memory a)) as (Hsorted' & Hnodup' & Hin').
  split. { intros address. rewrite Hin. by rewrite Z.ltb_lt. }
  split. { intros address. rewrite Hin'. by rewrite Z.leb_le. }
  split; [done|]. split; [done|].
  apply NoDup_app. split; [done|]. split; [|done].
  intros address [_ Hbelow%Z.ltb_lt]%Hin [_ Habove%Z.leb_le]%Hin'. lia.
Qed.

(** ** Running a text *)

Module EventHandlersFacts.

(** What the three generators wrote is what the steps of their scripts
    record. *)
Lemma definedGenerators_written (codeType : string) (generator : Cmd)
    (lastLine : Z) :
  (codeType, generator) ∈ definedGenerators →
  AppState.memory (stateOf generator) ∪ ∅
  = memoryWritten
      (initialization :: scriptOf generator ++ [finalization lastLine])
  ∧ "" +:+ AppState.consoleOutput (stateOf generator)
    = consoleWritten
        (initialization :: scriptOf generator ++ [finalization lastLine]).
Proof.
  unfold definedGenerators. rewrite !elem_of_cons, elem_of_nil.
  rewrite (app_comm_cons _ _ initialization).
  rewrite memoryWritten_app, consoleWritten_app.
  intros [[= _ ->]|[[= _ ->]|[[= _ ->]|[]]]];
    (split; vm_compute; reflexivity).
Qed.

Lemma definedCategories_not_undefined (codeType : string) :
  codeType ∈ definedCategories → codeType ∉ undefinedGenerators.
Proof.
  unfold definedCategories, undefinedGenerators.
  rewrite !elem_of_cons, elem_of_nil.
  intros [->|[->|[->|[]]]] H;
    repeat (destruct H as [H|H]; [discriminate H|]); done.
Qed.

End EventHandlersFacts.

(** X26. Running a text in which the tokenizer finds no token ends in
    the catch block, which shows the message of the parser, No tokens to
    parse; the state left is the state after the reset, with the text of
    the editor as its source text, whatever was on display before. *)
Theorem executeCode_no_tokens (fuel : nat) (now : Z) (codeInput : string)
    (s : Session.t) :
  Lexer.tokenize codeInput = Some [] →
  EventHandlers.executeCode fuel now codeInput s
  = EventHandlers.ShowsError "No tokens to parse"
      (Session.mk (AppState.mk codeInput [] None ∅ [] ∅ "" []) [] 0).
Proof.
  intros Htokens. unfold EventHandlers.executeCode.
  cbn [Session.resetExecutionState Session.state AppState.code].
  by rewrite Htokens.
Qed.

Lemma executeCode_no_tokens_witness :
  EventHandlers.executeCode 3 0 "  /* nothing */  "
    (Session.mk (AppState.mk "int x;" [Token.mk "keyword" "int" 1 1] None ∅ []
                   ∅ "out" [])
       [initialization] 0)
  = EventHandlers.ShowsError "No tokens to parse"
      (Session.mk (AppState.mk "  /* nothing */  " [] None ∅ [] ∅ "" []) [] 0).
Proof. by apply (executeCode_no_tokens 3 0 "  /* nothing */  "). Defined.

(** X27. Running a text puts steps on display exactly when the parser
    returns a tree for the tokens of the text. The state shown then holds
    the text, its tokens and the tree. The step in view is the first of
    the list, which is the initialization step, so the list is never
    empty. The memory and the console output shown are the ones the
    steps of the list record, and the stack holds at most one frame.
    When the generator of the category of the text is defined, the error
    log is empty and the list ends with the finalization step. When it
    is missing, the error of the generator does not reach the catch block
    of executeCode: the steps are on display all the same, the list is
    the initialization step alone, and the error is the one entry of the
    error log. *)
Theorem executeCode_displayed (fuel : nat) (now : Z) (codeInput : string)
    (s : Session.t) :
  (∀ s',
     EventHandlers.executeCode fuel now codeInput s
     = EventHandlers.Displayed s' →
     ∃ tokens root,
       Lexer.tokenize codeInput = Some tokens
       ∧ Parser.parse tokens fuel = Ok root)
  ∧ ∀ tokens root,
      Lexer.tokenize codeInput = Some tokens →
      Parser.parse tokens fuel = Ok root →
      ∃ s' rest,
        EventHandlers.executeCode fuel now codeInput s
        = EventHandlers.Displayed s'
        ∧ AppState.code (Session.state s') = codeInput
        ∧ AppState.tokens (Session.state s') = tokens
        ∧ AppState.ast (Session.state s') = Some root
        ∧ Session.currentStep s' = 0
        ∧ Session.executionSteps s' = initialization :: rest
        ∧ AppState.memory (Session.state s')
          = memoryWritten (Session.executionSteps s')
        ∧ AppState.consoleOutput (Session.state s')
          = consoleWritten (Session.executionSteps s')
        ∧ (length (AppState.stack (Session.state s')) ≤ 1)%nat
        ∧ (determineCodeType (Session.state s') ∈ definedCategories
           ∨ determineCodeType (Session.state s') ∈ undefinedGenerators)
        ∧ (determineCodeType (Session.state s') ∈ definedCategories →
           AppState.errors (Session.state s') = []
           ∧ ∃ front,
               rest
               = front ++ [finalization (findLastLine (Session.state s'))])
        ∧ (determineCodeType (Session.state s') ∈ undefinedGenerators →
           rest = []
           ∧ ∃ method,
               AppState.errors (Session.state s')
               = [ErrorEntry.mk ("this." +:+ method +:+ " is not a function")
                    "error" now]).
Proof.
  unfold EventHandlers.executeCode.
  cbn [Session.resetExecutionState Session.state AppState.code
       Session.executionSteps Session.currentStep AppState.tokens
       AppState.ast AppState.memory AppState.stack AppState.heap
       AppState.consoleOutput AppState.errors].
  split.
  { intros s'.
    destruct (Lexer.tokenize codeInput) as [tokens|] eqn:Htokens; [|done].
    destruct (Parser.parse tokens fuel) as [root| |] eqn:Hparse; [|done..].
    intros _. by exists tokens, root. }
  intros tokens root -> ->.
  set (a := AppState.mk codeInput tokens (Some root) ∅ [] ∅ "" []).
  destruct (determineCodeType_defined a) as [Hdefined|Hundefined].
  - destruct (definedCategories_generator _ Hdefined)
      as [generator Hgenerator].
    rewrite (generateExecutionSteps_defined now a generator Hgenerator).
    unfold Session.goToFirstStep, Session.goToStep.
    cbn [Session.executionSteps Session.state length].
    replace (0 <? _) with true by (symmetry; apply Z.ltb_lt; lia).
    cbn [Z.leb Z.compare andb].
    eexists _, (scriptOf generator ++ [finalization (findLastLine a)]).
    split; [reflexivity|].
    cbn [Session.state Session.executionSteps Session.currentStep snd
         AppState.code AppState.tokens AppState.ast AppState.memory
         AppState.stack AppState.consoleOutput AppState.errors].
    destruct (EventHandlersFacts.definedGenerators_written _ _
                (findLastLine a) Hgenerator) as [Hmemory Hconsole].
    destruct (definedGenerators_frame _ _ Hgenerator)
      as (frame & _ & _ & Hframe & _).
    repeat (split; [done|]). split; [by rewrite Hframe|].
    split; [by left|]. split.
    + intros _. split; [done|]. by exists (scriptOf generator).
    + intros Hundefined.
      by destruct (EventHandlersFacts.definedCategories_not_undefined _
                     Hdefined).
  - destruct (generateExecutionSteps_undefined now a Hundefined)
      as [method ->].
    unfold Session.goToFirstStep, Session.goToStep.
    cbn [Session.executionSteps Session.state length].
    eexists _, []. split; [reflexivity|].
    cbn [Session.state Session.executionSteps Session.currentStep snd].
    repeat (split; [done|]). split; [simpl; lia|].
    split; [by right|]. split.
    + intros Hdefined.
      by destruct (EventHandlersFacts.definedCategories_not_undefined _
                     Hdefined).
    + intros _. split; [done|]. by exists method.
Qed.

Lemma executeCode_displayed_witness :
  ∃ s' method,
    EventHandlers.executeCode 10 0 "int a; // struct b"
      (Session.mk emptyApp [] 0) = EventHandlers.Displayed s'
    ∧ Session.executionSteps s' = [initialization]
    ∧ AppState.errors (Session.state s')
      = [ErrorEntry.mk ("this." +:+ method +:+ " is not a function")
           "error" 0].
Proof.
  destruct (Lexer.tokenize "int a; // struct b") as [tokens|] eqn:Htokens;
    [|by vm_compute in Htokens].
  destruct (Parser.parse tokens 10) as [root| |] eqn:Hparse;
    [|by vm_compute in Htokens; injection Htokens as <-;
        vm_compute in Hparse..].
  destruct (executeCode_displayed 10 0 "int a; // struct b"
              (Session.mk emptyApp [] 0)) as [_ Hrun].
  destruct (Hrun tokens root Htokens Hparse)
    as (s' & rest & Hdisplayed & Hcode & _ & _ & _ & Hsteps & _ & _ & _ & _
        & _ & Hmissing).
  destruct Hmissing as [-> [method Herrors]].
  { unfold determineCodeType. rewrite Hcode.
    apply (bool_decide_unpack _). by vm_compute. }
  by exists s', method.
Defined.
